(** * markdown-check: the target-validation and negotiation-probe pipeline

    A shallow embedding of the server side of the Markdown presence checker:
    - [Security]  : lib/security  (isPrivateIPv4, isPrivateIPv6, isPrivateIp,
                    assertSafeTarget);
    - [RateLimit] : lib/rate-limit (the in-process fallback of enforceRateLimit);
    - [Route]     : app/api/check/route (getIpFromRequest, sanitizeUserAgent,
                    isMarkdownContentType, readTextLimited and POST).
    The module [JS] models the pieces of the JavaScript runtime the code
    calls: strings, [Number], [net.isIP] and the streaming UTF-8 TextDecoder. *)

From Stdlib Require Import ZArith NArith Strings.String Strings.Ascii List Bool Lia.
From Stdlib Require Import Sorting.Sorted.
From stdpp Require Import gmap strings list.

Open Scope string_scope.
Open Scope list_scope.
Open Scope Z_scope.

(** ** Part I: definitions *)

(** *** The JavaScript runtime *)

Module JS.

(** Strings that are ASCII or Latin-1 at run time (host names after URL
    parsing, DNS addresses, header values, error messages) are [string]:
    one [ascii] per code unit. *)

Definition code (c : ascii) : N := N_of_ascii c.

Definition in_range (lo hi : N) (c : ascii) : bool :=
  ((lo <=? code c) && (code c <=? hi))%N.

Definition is_digit (c : ascii) : bool := in_range 48 57 c.

Definition is_hex_digit (c : ascii) : bool :=
  is_digit c || in_range 97 102 c || in_range 65 70 c.

Definition is_alpha (c : ascii) : bool :=
  in_range 97 122 c || in_range 65 90 c.

(** String.prototype.toLowerCase on Latin-1 code units: A-Z and the
    accented capitals U+00C0..U+00DE (U+00D7, the multiplication sign,
    apart) move up by 32. *)
Definition lower_char (c : ascii) : ascii :=
  if in_range 65 90 c || (in_range 192 222 c && negb (code c =? 215)%N)
  then ascii_of_N (code c + 32)
  else c.

Fixpoint toLowerCase (s : string) : string :=
  match s with
  | EmptyString => EmptyString
  | String c r => String (lower_char c) (toLowerCase r)
  end.

Fixpoint startsWith (s p : string) : bool :=
  match p, s with
  | EmptyString, _ => true
  | String _ _, EmptyString => false
  | String a p', String b s' => Ascii.eqb a b && startsWith s' p'
  end.

(** [s.includes(p)]: [p] starts at some position of [s]. *)
Fixpoint includes (s p : string) : bool :=
  startsWith s p ||
  match s with
  | EmptyString => false
  | String _ r => includes r p
  end.

Fixpoint drop (n : nat) (s : string) : string :=
  match n, s with
  | O, _ => s
  | S _, EmptyString => EmptyString
  | S k, String _ r => drop k r
  end.

Definition endsWith (s p : string) : bool :=
  (String.length p <=? String.length s)%nat &&
  String.eqb (drop (String.length s - String.length p) s) p.

(** [s.replace(p, r)] with a string pattern: the first occurrence only. *)
Fixpoint replace (s p r : string) : string :=
  if startsWith s p then r +:+ drop (String.length p) s
  else match s with
       | EmptyString => EmptyString
       | String c t => String c (replace t p r)
       end.

(** [s.split(sep)] for a separator of one character; the empty string
    splits into one empty part. *)
Fixpoint split (sep : ascii) (s : string) : list string :=
  match s with
  | EmptyString => [EmptyString]
  | String c r =>
      if Ascii.eqb c sep then EmptyString :: split sep r
      else match split sep r with
           | h :: t => String c h :: t
           | [] => [String c EmptyString]
           end
  end.

Fixpoint all_chars (p : ascii -> bool) (s : string) : bool :=
  match s with
  | EmptyString => true
  | String c r => p c && all_chars p r
  end.

(** WhiteSpace and LineTerminator code points below 256: TAB, LF, VT, FF,
    CR, SP, NBSP. *)
Definition is_space (c : ascii) : bool :=
  in_range 9 13 c || (code c =? 32)%N || (code c =? 160)%N.

Fixpoint trimStart (s : string) : string :=
  match s with
  | String c r => if is_space c then trimStart r else s
  | EmptyString => EmptyString
  end.

Fixpoint trimEnd (s : string) : string :=
  match s with
  | EmptyString => EmptyString
  | String c r =>
      match trimEnd r with
      | EmptyString => if is_space c then EmptyString else String c EmptyString
      | t => String c t
      end
  end.

Definition trim (s : string) : string := trimEnd (trimStart s).

(** **** Numbers

    A Number is NaN, an infinity, or a finite binary64 value [m * 2^e]
    (the sign of zero is not kept: no comparison of the code sees it). *)

Inductive JsNumber : Type :=
| NaN
| Infinity (negative : bool)
| Finite (m e : Z).

Definition isNaN (x : JsNumber) : bool :=
  match x with NaN => true | _ => false end.

(** [x === k], [x >= k] and [x <= k] for an integer constant [k]. *)
Definition eq_int (x : JsNumber) (k : Z) : bool :=
  match x with
  | Finite m e => if 0 <=? e then m * 2 ^ e =? k else m =? k * 2 ^ (- e)
  | _ => false
  end.

Definition ge_int (x : JsNumber) (k : Z) : bool :=
  match x with
  | NaN => false
  | Infinity neg => negb neg
  | Finite m e => if 0 <=? e then k <=? m * 2 ^ e else k * 2 ^ (- e) <=? m
  end.

Definition le_int (x : JsNumber) (k : Z) : bool :=
  match x with
  | NaN => false
  | Infinity neg => neg
  | Finite m e => if 0 <=? e then m * 2 ^ e <=? k else m <=? k * 2 ^ (- e)
  end.

(** Round the non-negative rational [n / d] to the nearest integer, ties to
    even. *)
Definition round_half_even (n d : Z) : Z :=
  let q := n / d in
  match (2 * (n mod d)) ?= d with
  | Lt => q
  | Gt => q + 1
  | Eq => if Z.even q then q else q + 1
  end.

(** The binary64 value nearest to [n / d] (with [0 <= n], [0 < d]), signed
    by [neg]: 53 bits of mantissa, exponents from -1074 (subnormals) to
    971, overflow to an infinity. *)
Definition to_binary64 (neg : bool) (n d : Z) : JsNumber :=
  if n =? 0 then Finite 0 0
  else
    let l0 := Z.log2 n - Z.log2 d in
    let l := if (if 0 <=? l0 then d * 2 ^ l0 <=? n else d <=? n * 2 ^ (- l0))
             then l0 else l0 - 1 in
    let e := Z.max (l - 52) (-1074) in
    let m := if 0 <=? e then round_half_even n (d * 2 ^ e)
             else round_half_even (n * 2 ^ (- e)) d in
    if (971 <? e) || ((e =? 971) && (m =? 2 ^ 53)) then Infinity neg
    else Finite (if neg then - m else m) e.

Definition digit_value (c : ascii) : Z :=
  if is_digit c then Z.of_N (code c) - 48
  else if in_range 97 102 c then Z.of_N (code c) - 87
  else Z.of_N (code c) - 55.

Fixpoint digits_value (base acc : Z) (s : string) : Z :=
  match s with
  | EmptyString => acc
  | String c r => digits_value base (base * acc + digit_value c) r
  end.

(** The longest prefix of [s] made of characters in [p], and the rest. *)
Fixpoint span (p : ascii -> bool) (s : string) : string * string :=
  match s with
  | String c r =>
      if p c then let '(a, b) := span p r in (String c a, b)
      else (EmptyString, s)
  | EmptyString => (EmptyString, EmptyString)
  end.

Definition is_exp_mark (c : ascii) : bool :=
  Ascii.eqb c "e" || Ascii.eqb c "E".

(** ExponentPart, when [s] is one: [e] or [E], an optional sign, digits. *)
Definition exponent_part (s : string) : option Z :=
  match s with
  | EmptyString => Some 0
  | String c r =>
      if is_exp_mark c then
        let '(neg, ds) :=
          match r with
          | String "-" t => (true, t)
          | String "+" t => (false, t)
          | _ => (false, r)
          end in
        match ds with
        | EmptyString => None
        | _ => if all_chars is_digit ds
               then Some (if neg then - digits_value 10 0 ds
                          else digits_value 10 0 ds)
               else None
        end
      else None
  end.

(** StrUnsignedDecimalLiteral: [Infinity], or digits with an optional
    fraction and exponent, or a fraction starting with the dot. *)
Definition unsigned_decimal (neg : bool) (s : string) : JsNumber :=
  if String.eqb s "Infinity" then Infinity neg
  else
    let '(ip, r1) := span is_digit s in
    let '(fp, r2) :=
      match r1 with
      | String "." t => span is_digit t
      | _ => (EmptyString, r1)
      end in
    if (String.length ip =? 0)%nat && (String.length fp =? 0)%nat then NaN
    else
      match exponent_part r2 with
      | None => NaN
      | Some ex =>
          let mant := digits_value 10 0 (ip +:+ fp) in
          let e10 := ex - Z.of_nat (String.length fp) in
          if 0 <=? e10 then to_binary64 neg (mant * 10 ^ e10) 1
          else to_binary64 neg mant (10 ^ (- e10))
      end.

Definition radix_literal (p : ascii -> bool) (base : Z) (ds : string)
  : JsNumber :=
  match ds with
  | EmptyString => NaN
  | _ => if all_chars p ds then to_binary64 false (digits_value base 0 ds) 1
         else NaN
  end.

(** [Number(s)] on a string (StringToNumber): white space is trimmed, the
    empty string is 0, then a signed decimal literal or an unsigned
    hexadecimal, octal or binary one; anything else is NaN. *)
Definition Number (s : string) : JsNumber :=
  match trim s with
  | EmptyString => Finite 0 0
  | String "0" (String x ds) as t =>
      if Ascii.eqb x "x" || Ascii.eqb x "X" then radix_literal is_hex_digit 16 ds
      else if Ascii.eqb x "o" || Ascii.eqb x "O"
           then radix_literal (in_range 48 55) 8 ds
      else if Ascii.eqb x "b" || Ascii.eqb x "B"
           then radix_literal (in_range 48 49) 2 ds
      else unsigned_decimal false t
  | String "-" t => unsigned_decimal true t
  | String "+" t => unsigned_decimal false t
  | t => unsigned_decimal false t
  end.

(** **** net.isIP *)

(** One decimal octet of a dotted quad: 0..255, no leading zero. *)
Definition is_v4_segment (p : string) : bool :=
  match p with
  | String a EmptyString => is_digit a
  | String a (String b EmptyString) =>
      is_digit a && negb (Ascii.eqb a "0") && is_digit b
  | String a (String b (String c EmptyString)) =>
      is_digit a && negb (Ascii.eqb a "0") && is_digit b && is_digit c
      && (digits_value 10 0 p <=? 255)
  | _ => false
  end.

Definition isIPv4 (s : string) : bool :=
  let parts := split "." s in
  (length parts =? 4)%nat && forallb is_v4_segment parts.

(** One group of an IPv6 literal: one to four hexadecimal digits. *)
Definition is_v6_segment (p : string) : bool :=
  (1 <=? String.length p)%nat && (String.length p <=? 4)%nat
  && all_chars is_hex_digit p.

(** The text before and after the first [::] of [s]. *)
Fixpoint cut_double_colon (s : string) : option (string * string) :=
  match s with
  | String ":" (String ":" r) => Some (EmptyString, r)
  | String c r =>
      match cut_double_colon r with
      | Some (a, b) => Some (String c a, b)
      | None => None
      end
  | EmptyString => None
  end.

(** The groups of a colon-separated run, [None] when one of them is
    malformed: the number of 16-bit groups it spells, a dotted quad being
    allowed in the last place (when [v4_last]) and counting for two. *)
Fixpoint count_groups (v4_last : bool) (parts : list string) : option nat :=
  match parts with
  | [] => Some O
  | [p] =>
      if is_v6_segment p then Some 1%nat
      else if v4_last && isIPv4 p then Some 2%nat
      else None
  | p :: rest =>
      if is_v6_segment p
      then option_map S (count_groups v4_last rest)
      else None
  end.

Definition groups_of (v4_last : bool) (s : string) : option nat :=
  match s with
  | EmptyString => Some O
  | _ => count_groups v4_last (split ":" s)
  end.

Definition is_zone_char (c : ascii) : bool :=
  is_digit c || is_alpha c
  || Ascii.eqb c "-" || Ascii.eqb c "." || Ascii.eqb c ":".

(** Eight groups written in full, or fewer around one [::]; then an
    optional zone, [%] and at least one zone character. *)
Definition isIPv6 (s : string) : bool :=
  let '(addr, zone_ok) :=
    match split "%" s with
    | [a] => (a, true)
    | a :: z :: more =>
        (a, match more with [] => true | _ => false end
            && (1 <=? String.length z)%nat && all_chars is_zone_char z)
    | [] => (s, false)
    end in
  zone_ok &&
  match cut_double_colon addr with
  | None =>
      match groups_of true addr with
      | Some 8%nat => negb (String.eqb addr EmptyString)
      | _ => false
      end
  | Some (l, r) =>
      match groups_of false l, groups_of true r with
      | Some k, Some j => (k + j <=? 7)%nat
      | _, _ => false
      end
  end.

Definition isIP (s : string) : Z :=
  if isIPv4 s then 4 else if isIPv6 s then 6 else 0.

End JS.

(** *** Thrown errors and the asynchronous DNS call *)

(** A call either returns or throws an [Error] with a message. *)
Inductive result (A : Type) : Type :=
| Return (a : A)
| Throw (message : string).
Arguments Return {A} a.
Arguments Throw {A} message.

Definition is_failure {A} (r : result A) : bool :=
  match r with Throw _ => true | Return _ => false end.

(** One entry of [dns.lookup(host, { all: true })]. *)
Record LookupAddress : Type := { address : string; family : Z }.

(** An async function whose only awaited call is [dns.lookup]: it has
    settled, or it awaits the lookup of a host name and goes on with what
    the resolver answers (a list of records, or a rejection). *)
Inductive Async (A : Type) : Type :=
| Settled (r : result A)
| AwaitLookup (hostname : string)
              (k : result (list LookupAddress) -> Async A).
Arguments Settled {A} r.
Arguments AwaitLookup {A} hostname k.

(** Running against a resolver: the result, and the host names looked up. *)
Fixpoint run {A} (dns : string -> result (list LookupAddress)) (p : Async A)
  : list string * result A :=
  match p with
  | Settled r => ([], r)
  | AwaitLookup h k =>
      let '(log, r) := run dns (k (dns h)) in (h :: log, r)
  end.

(** *** lib/security *)

Module Security.
Import JS.

Definition isPrivateIPv4 (ip : string) : bool :=
  let parts := map Number (split "." ip) in
  if negb (length parts =? 4)%nat || existsb isNaN parts then true
  else
    match parts with
    | a :: b :: _ =>
        if eq_int a 10 || eq_int a 127 || eq_int a 0 then true
        else if eq_int a 169 && eq_int b 254 then true
        else if eq_int a 172 && ge_int b 16 && le_int b 31 then true
        else if eq_int a 192 && eq_int b 168 then true
        else if eq_int a 100 && ge_int b 64 && le_int b 127 then true
        else if ge_int a 224 then true
        else false
    | _ => true
    end.

Definition isPrivateIPv6 (ip : string) : bool :=
  let normalized := toLowerCase ip in
  String.eqb normalized "::1"
  || String.eqb normalized "::"
  || startsWith normalized "fc"
  || startsWith normalized "fd"
  || startsWith normalized "fe8"
  || startsWith normalized "fe9"
  || startsWith normalized "fea"
  || startsWith normalized "feb".

Definition isPrivateIp (ip : string) : bool :=
  let family := isIP ip in
  if family =? 4 then isPrivateIPv4 ip
  else if family =? 6 then
    if startsWith ip "::ffff:" && (isIP (replace ip "::ffff:" EmptyString) =? 4)
    then isPrivateIPv4 (replace ip "::ffff:" EmptyString)
    else isPrivateIPv6 ip
  else true.

(** The fields of a parsed [URL] the module reads. [hostname] is the host
    as the URL serializes it: a domain in lower case, an IPv4 address as a
    dotted quad, an IPv6 address between brackets. *)
Record URL : Type := {
  protocol : string;
  username : string;
  password : string;
  hostname : string
}.

(** [parse] is the URL parser of the runtime, [new URL(rawUrl)], which
    throws on a string that is not an absolute URL. *)
Definition assertSupportedUrl (parse : string -> result URL) (rawUrl : string)
  : result URL :=
  match parse rawUrl with
  | Throw e => Throw e
  | Return parsed =>
      if negb (existsb (String.eqb (protocol parsed)) ["http:"; "https:"])
      then Throw "Only HTTP(S) URLs are supported."
      else if negb (String.eqb (username parsed) EmptyString)
              || negb (String.eqb (password parsed) EmptyString)
      then Throw "URLs with credentials are not allowed."
      else Return parsed
  end.

Definition LOCAL_BLOCKED := "Local targets are blocked.".
Definition PRIVATE_IP_BLOCKED := "Private IP ranges are blocked.".
Definition RESOLUTION_FAILED := "Could not resolve hostname.".
Definition RESOLVED_PRIVATE :=
  "Resolved to a private IP range, request blocked.".

(** The loop over the records: the first private address throws. *)
Fixpoint check_records (records : list LookupAddress) : result unit :=
  match records with
  | [] => Return tt
  | record :: rest =>
      if isPrivateIp (address record) then Throw RESOLVED_PRIVATE
      else check_records rest
  end.

Definition assertSafeTarget (url : URL) : Async unit :=
  let host := toLowerCase (hostname url) in
  if String.eqb host "localhost" || endsWith host ".local"
  then Settled (Throw LOCAL_BLOCKED)
  else if negb (isIP host =? 0) then
    if isPrivateIp host then Settled (Throw PRIVATE_IP_BLOCKED)
    else Settled (Return tt)
  else
    AwaitLookup host (fun answer =>
      match answer with
      | Throw e => Settled (Throw e)
      | Return records =>
          if (length records =? 0)%nat then Settled (Throw RESOLUTION_FAILED)
          else Settled (check_records records)
      end).

End Security.

(** *** lib/rate-limit *)

Module RateLimit.

Definition LIMIT : Z := 30.
Definition WINDOW_MS : Z := 10 * 60 * 1000.

Record RateLimitResult : Type := {
  success : bool;
  limit : Z;
  remaining : Z;
  reset : Z
}.

(** [bucket.filter((timestamp) => now - timestamp <= WINDOW_MS)] *)
Definition fresh_of (now : Z) (bucket : list Z) : list Z :=
  filter (fun timestamp => now - timestamp <= WINDOW_MS) bucket.

(** [fresh[0]], the number a missing element becomes in arithmetic being
    left out: the branch that reads it has [fresh.length >= LIMIT]. *)
Definition first_of (fresh : list Z) : Z := hd 0 fresh.

(** One call, at clock reading [now], on the module's [store]. The remote
    limiter, when configured, answers alone and the store is not touched:
    [upstashLimiter] gives the answer of a remote call that resolves. A
    remote call that rejects, which neither this function nor the handler
    catches, is outside this model; the properties below that depend on the
    answer of the limiter are stated for the in-process fallback, or with
    the answer as a hypothesis. *)
Definition enforceRateLimit
    (upstashLimiter : option (string -> RateLimitResult))
    (now : Z) (identifier : string) (store : gmap string (list Z))
  : RateLimitResult * gmap string (list Z) :=
  match upstashLimiter with
  | Some limiter =>
      let result := limiter identifier in
      ({| success := success result; limit := limit result;
          remaining := remaining result; reset := reset result |}, store)
  | None =>
      let bucket := default [] (store !! identifier) in
      let fresh := fresh_of now bucket in
      if LIMIT <=? Z.of_nat (length fresh) then
        ({| success := false; limit := LIMIT; remaining := 0;
            reset := first_of fresh + WINDOW_MS |},
         <[identifier := fresh]> store)
      else
        let fresh := fresh ++ [now] in
        ({| success := true; limit := LIMIT;
            remaining := Z.max 0 (LIMIT - Z.of_nat (length fresh));
            reset := now + WINDOW_MS |},
         <[identifier := fresh]> store)
  end.

(** The in-process fallback: no remote limiter configured. *)
Definition check := enforceRateLimit None.

(** A run of calls, each an identifier and the clock reading of the call,
    from a given store: the results in order and the last store. *)
Fixpoint run_calls (calls : list (string * Z)) (store : gmap string (list Z))
  : list RateLimitResult * gmap string (list Z) :=
  match calls with
  | [] => ([], store)
  | (identifier, now) :: rest =>
      let '(r, store1) := check now identifier store in
      let '(rs, store2) := run_calls rest store1 in
      (r :: rs, store2)
  end.

End RateLimit.

(** *** Text of arbitrary characters, and the TextDecoder *)

(** A string that may hold any character (the user agent of the request,
    the decoded body) is the list of its UTF-16 code units, which is what
    [length] and [slice] count. *)
Module Text.

Definition of_string (s : string) : list N :=
  map N_of_ascii (list_ascii_of_string s).

(** WhiteSpace and LineTerminator of ECMAScript, which [trim] removes. *)
Definition isWhiteSpace (u : N) : bool :=
  (((9 <=? u) && (u <=? 13)) || (u =? 32) || (u =? 160) || (u =? 5760)
   || ((8192 <=? u) && (u <=? 8202)) || (u =? 8232) || (u =? 8233)
   || (u =? 8239) || (u =? 8287) || (u =? 12288) || (u =? 65279))%N.

Fixpoint trimStart (s : list N) : list N :=
  match s with
  | u :: r => if isWhiteSpace u then trimStart r else s
  | [] => []
  end.

Fixpoint trimEnd (s : list N) : list N :=
  match s with
  | [] => []
  | u :: r =>
      match trimEnd r with
      | [] => if isWhiteSpace u then [] else [u]
      | t => u :: t
      end
  end.

Definition trim (s : list N) : list N := trimEnd (trimStart s).

(** [s.slice(0, n)] for an integer [n]: the first [n] code units, and for
    a negative [n] all but the last [- n]. *)
Definition slice0 (n : Z) (s : list N) : list N :=
  firstn (Z.to_nat (if n <? 0 then Z.of_nat (length s) + n else n)) s.

End Text.

(** [new TextDecoder()]: UTF-8, replacement on error, a leading byte order
    mark dropped. The state is that of the UTF-8 decoder of the Encoding
    standard, and the flag telling that output has started. *)
Module TextDecoder.

Record state : Type := {
  code_point : N;
  bytes_seen : N;
  bytes_needed : N;
  lower_boundary : N;
  upper_boundary : N;
  bom_seen : bool
}.

Definition initial : state :=
  {| code_point := 0; bytes_seen := 0; bytes_needed := 0;
     lower_boundary := 128; upper_boundary := 191; bom_seen := false |}.

Definition rest_state (st : state) : state :=
  {| code_point := 0; bytes_seen := 0; bytes_needed := 0;
     lower_boundary := 128; upper_boundary := 191; bom_seen := bom_seen st |}.

Definition REPLACEMENT : N := 65533.

(** A byte read when no sequence is open: an ASCII byte is a code point, a
    lead byte opens a sequence, anything else is an error. *)
Definition lead_byte (st : state) (b : N) : state * list N :=
  (if b <=? 127 then (st, [b])
   else if (194 <=? b) && (b <=? 223) then
     ({| code_point := N.land b 31; bytes_seen := 0; bytes_needed := 1;
         lower_boundary := 128; upper_boundary := 191;
         bom_seen := bom_seen st |}, [])
   else if (224 <=? b) && (b <=? 239) then
     ({| code_point := N.land b 15; bytes_seen := 0; bytes_needed := 2;
         lower_boundary := if b =? 224 then 160 else 128;
         upper_boundary := if b =? 237 then 159 else 191;
         bom_seen := bom_seen st |}, [])
   else if (240 <=? b) && (b <=? 244) then
     ({| code_point := N.land b 7; bytes_seen := 0; bytes_needed := 3;
         lower_boundary := if b =? 240 then 144 else 128;
         upper_boundary := if b =? 244 then 143 else 191;
         bom_seen := bom_seen st |}, [])
   else (st, [REPLACEMENT]))%N.

(** The handler of the UTF-8 decoder on one byte: the new state and the code
    points given out. A byte that breaks an open sequence gives U+FFFD and is
    read again with no sequence open. *)
Definition handler (st : state) (b : N) : state * list N :=
  (if bytes_needed st =? 0 then lead_byte st b
   else if (b <? lower_boundary st) || (upper_boundary st <? b) then
     let '(st', out) := lead_byte (rest_state st) b in
     (st', REPLACEMENT :: out)
   else
     let cp := N.lor (N.shiftl (code_point st) 6) (N.land b 63) in
     let seen := bytes_seen st + 1 in
     if seen =? bytes_needed st then (rest_state st, [cp])
     else
       ({| code_point := cp; bytes_seen := seen;
           bytes_needed := bytes_needed st;
           lower_boundary := 128; upper_boundary := 191;
           bom_seen := bom_seen st |}, []))%N.

(** The code units of a code point: itself, or a surrogate pair. *)
Definition code_units (cp : N) : list N :=
  (if cp <? 65536 then [cp]
   else [55296 + (cp - 65536) / 1024; 56320 + (cp - 65536) mod 1024])%N.

(** Serializing the code points given out: the first one of the stream sets
    the flag, and is dropped when it is the byte order mark. *)
Fixpoint serialize (seen : bool) (cps : list N) : bool * list N :=
  match cps with
  | [] => (seen, [])
  | cp :: r =>
      let '(seen', out) := serialize true r in
      (seen', if negb seen && (cp =? 65279)%N then out
              else code_units cp ++ out)
  end.

Definition with_bom (st : state) (seen : bool) : state :=
  {| code_point := code_point st; bytes_seen := bytes_seen st;
     bytes_needed := bytes_needed st;
     lower_boundary := lower_boundary st;
     upper_boundary := upper_boundary st; bom_seen := seen |}.

Fixpoint feed (st : state) (bytes : list Byte.byte) : state * list N :=
  match bytes with
  | [] => (st, [])
  | b :: r =>
      let '(st1, out1) := handler st (Byte.to_N b) in
      let '(st2, out2) := feed st1 r in
      (st2, out1 ++ out2)
  end.

(** [decoder.decode(value, { stream: true })] *)
Definition decode_stream (st : state) (value : list Byte.byte)
  : state * list N :=
  let '(st1, cps) := feed st value in
  let '(seen, out) := serialize (bom_seen st1) cps in
  (with_bom st1 seen, out).

(** [decoder.decode()]: the end of the stream. An open sequence gives one
    U+FFFD. *)
Definition decode_end (st : state) : list N :=
  if (bytes_needed st =? 0)%N then []
  else snd (serialize (bom_seen st) [REPLACEMENT]).

(** [new TextDecoder().decode(bytes)]: a whole body at once. *)
Definition decode_all (bytes : list Byte.byte) : list N :=
  let '(st, out) := decode_stream initial bytes in out ++ decode_end st.

End TextDecoder.

(** *** app/api/check/route *)

Module Route.
Import JS.

Definition MAX_MARKDOWN_CHARS : Z := 50000.
Definition FETCH_TIMEOUT_MS : Z := 10000.

Definition DEFAULT_USER_AGENT : string :=
  "Mozilla/5.0 (compatible; MD-Checker/1.0; +https://md-check.dotversis.com)".

(** [/[\r\n\t]/g] replaced by a space. *)
Definition blank_line_breaks (u : N) : N :=
  if ((u =? 13) || (u =? 10) || (u =? 9))%N then 32%N else u.

(** [input] is [None] when the field is absent. *)
Definition sanitizeUserAgent (input : option (list N)) : list N :=
  match input with
  | None => Text.of_string DEFAULT_USER_AGENT
  | Some input =>
      if (length input =? 0)%nat || (length (Text.trim input) =? 0)%nat
      then Text.of_string DEFAULT_USER_AGENT
      else
        let cleaned := Text.trim (map blank_line_breaks input) in
        Text.slice0 220 cleaned
  end.

(** [contentType] is [None] when the header is absent. *)
Definition isMarkdownContentType (contentType : option string) : bool :=
  match contentType with
  | None => false
  | Some contentType =>
      if String.eqb contentType EmptyString then false
      else includes (toLowerCase contentType) "text/markdown"
  end.

(** What the handler reads of the [Response] of fetch: the status line, the
    content-type header, the chunks the body stream gives to its reader
    ([None] when there is no body stream), and the text [response.text()]
    resolves to. *)
Record Response : Type := {
  status : Z;
  statusText : string;
  content_type : option string;
  body : option (list (list Byte.byte));
  text : list N
}.

Definition ok (response : Response) : bool :=
  (200 <=? status response) && (status response <=? 299).

Record Read : Type := { read_text : list N; read_truncated : bool }.

(** The [while (true)] loop of readTextLimited over the chunks still to
    come: the text, the flag, and the decoder as the loop leaves it. *)
Fixpoint read_loop (limitChars : Z) (decoder : TextDecoder.state)
    (text : list N) (chunks : list (list Byte.byte))
  : list N * bool * TextDecoder.state :=
  match chunks with
  | [] => (text, false, decoder)
  | value :: rest =>
      let '(decoder, piece) := TextDecoder.decode_stream decoder value in
      let text := text ++ piece in
      if limitChars <? Z.of_nat (length text)
      then (Text.slice0 limitChars text, true, decoder)
      else read_loop limitChars decoder text rest
  end.

Definition readTextLimited (response : Response) (limitChars : Z) : Read :=
  match body response with
  | None =>
      let fallback := text response in
      {| read_text := Text.slice0 limitChars fallback;
         read_truncated := limitChars <? Z.of_nat (length fallback) |}
  | Some chunks =>
      let '(text, truncated, decoder) :=
        read_loop limitChars TextDecoder.initial [] chunks in
      {| read_text := text ++ TextDecoder.decode_end decoder;
         read_truncated := truncated |}
  end.

Definition FOUND_REASON :=
  "Markdown detected: 2xx response with Content-Type text/markdown.".
Definition REDIRECT_REASON :=
  "Redirect response received and redirects are intentionally disabled.".
Definition NON_2XX_REASON := "Target returned a non-2xx status.".
Definition IGNORED_REASON :=
  "Target ignored markdown negotiation or returned a different content type.".

(** The verdict part of the JSON body of the 200 reply. *)
Record Verdict : Type := {
  found : bool;
  reason : string;
  markdown : list N;
  truncated : bool
}.

(** The [try] block of POST once fetch has resolved. *)
Definition classify (response : Response) : Verdict :=
  let contentType := content_type response in
  let found := ok response && isMarkdownContentType contentType in
  let '(markdownPreview, truncated) :=
    if found
    then let read := readTextLimited response MAX_MARKDOWN_CHARS in
         (read_text read, read_truncated read)
    else ([], false) in
  let reason :=
    if found then FOUND_REASON
    else if (300 <=? status response) && (status response <? 400)
         then REDIRECT_REASON
    else if negb (ok response) then NON_2XX_REASON
    else IGNORED_REASON in
  {| found := found; reason := reason;
     markdown := markdownPreview; truncated := truncated |}.

(** A value caught by [catch (error)]: an [Error] (with its name and
    message), or anything else, of which the handler only takes
    [String(error)]. *)
Inductive Thrown : Type :=
| ErrorObject (name message : string)
| OtherValue (as_string : string).

Record ErrorReply : Type := {
  http_status : Z;
  error : string;
  details : string
}.

Definition isTimeout (error : Thrown) : bool :=
  match error with
  | ErrorObject name message =>
      String.eqb name "TimeoutError"
      || String.eqb name "AbortError"
      || includes (toLowerCase message) "timeout"
  | OtherValue _ => false
  end.

(** The [catch] block of POST around the probe. *)
Definition probe_failed (error : Thrown) : ErrorReply :=
  {| http_status := if isTimeout error then 504 else 502;
     error := if isTimeout error
              then "Request timed out after 10 seconds."
              else "Failed to fetch target URL.";
     details := match error with
                | ErrorObject _ message => message
                | OtherValue s => s
                end |}.

(** What POST answers: the 200 reply with the verdict, or an error reply
    (429, 400, and 504 or 502 from the [catch] block around the probe). *)
Inductive Reply : Type :=
| Checked (http_status : Z) (verdict : Verdict)
| RateLimited (http_status : Z) (error : string)
| BadRequest (http_status : Z) (error : string)
| Failed (reply : ErrorReply).

(** From fetch on: it resolved with a response, or the [try] block threw. *)
Definition probe_stage (outcome : Response + Thrown) : Reply :=
  match outcome with
  | inl response => Checked 200 (classify response)
  | inr error => Failed (probe_failed error)
  end.

(** The JSON body of the request ([None] for an absent field) and what the
    handler reads of the request: two headers and the body, [None] when
    [request.json()] throws. *)
Record RequestBody : Type := {
  url : option string;
  userAgent : option (list N)
}.

Record NextRequest : Type := {
  x_forwarded_for : option string;
  x_real_ip : option string;
  json : option RequestBody
}.

Definition or_unknown (s : string) : string :=
  if String.eqb s EmptyString then "unknown" else s.

Definition getIpFromRequest (request : NextRequest) : string :=
  let forwarded := default EmptyString (x_forwarded_for request) in
  let realIp := default EmptyString (x_real_ip request) in
  if negb (String.eqb forwarded EmptyString)
  then or_unknown (trim (hd EmptyString (split "," forwarded)))
  else or_unknown realIp.

(** What the handler calls outside the module: the remote limiter when
    configured, the clock, the URL parser, the resolver, and fetch (given
    the target and the user agent). *)
Record Runtime : Type := {
  upstashLimiter : option (string -> RateLimit.RateLimitResult);
  now : Z;
  parse : string -> result Security.URL;
  lookup : string -> result (list LookupAddress);
  fetch : Security.URL -> list N -> Response + Thrown
}.

(** The reply, the rate-limit headers it carries (on 429 and 200), and the
    store of the limiter after the call. *)
Definition POST (rt : Runtime) (request : NextRequest)
    (store : gmap string (list Z))
  : Reply * option RateLimit.RateLimitResult * gmap string (list Z) :=
  let ip := getIpFromRequest request in
  let '(rate, store) :=
    RateLimit.enforceRateLimit (upstashLimiter rt) (now rt) ip store in
  if negb (RateLimit.success rate)
  then (RateLimited 429 "Rate limit exceeded. Try again in a few minutes.",
        Some rate, store)
  else
    match json request with
    | None => (BadRequest 400 "Invalid JSON body.", None, store)
    | Some body =>
        match url body with
        | None => (BadRequest 400 "URL is required.", None, store)
        | Some raw =>
            if String.eqb raw EmptyString
            then (BadRequest 400 "URL is required.", None, store)
            else
              match Security.assertSupportedUrl (parse rt) (trim raw) with
              | Throw message => (BadRequest 400 message, None, store)
              | Return target =>
                  match snd (run (lookup rt)
                               (Security.assertSafeTarget target)) with
                  | Throw message => (BadRequest 400 message, None, store)
                  | Return _ =>
                      let userAgent := sanitizeUserAgent (userAgent body) in
                      match probe_stage (fetch rt target userAgent) with
                      | Checked code verdict =>
                          (Checked code verdict, Some rate, store)
                      | reply => (reply, None, store)
                      end
                  end
              end
        end
    end.

End Route.

(** *** The vocabulary of the specification

    What the specification means by an address, a range and a control
    character, written from its words, to state the properties against. *)

Module Wording.
Import JS.

(** The decimal spelling of an octet, and a dotted quad. *)
Definition digit_char (d : Z) : ascii := ascii_of_N (Z.to_N (48 + d)).

Definition octet (n : Z) : string :=
  if n <? 10 then String (digit_char n) EmptyString
  else if n <? 100
  then String (digit_char (n / 10)) (String (digit_char (n mod 10)) EmptyString)
  else String (digit_char (n / 100))
         (String (digit_char (n / 10 mod 10))
            (String (digit_char (n mod 10)) EmptyString)).

Definition dotted (a b c d : Z) : string :=
  octet a +:+ "." +:+ octet b +:+ "." +:+ octet c +:+ "." +:+ octet d.

(** 10.0.0.0/8, 127.0.0.0/8, 0.0.0.0/8, 169.254.0.0/16, 172.16.0.0/12,
    192.168.0.0/16, 100.64.0.0/10, and a first octet of 224 or more. *)
Definition in_private_ranges (a b : Z) : bool :=
  (a =? 10) || (a =? 127) || (a =? 0)
  || ((a =? 169) && (b =? 254))
  || ((a =? 172) && (16 <=? b) && (b <=? 31))
  || ((a =? 192) && (b =? 168))
  || ((a =? 100) && (64 <=? b) && (b <=? 127))
  || (224 <=? a).

(** Exactly four dot-separated numeric octets: four parts, each of one to
    three decimal digits and at most 255. *)
Definition is_numeric_octet (p : string) : bool :=
  (1 <=? String.length p)%nat && (String.length p <=? 3)%nat
  && all_chars is_digit p && (digits_value 10 0 p <=? 255).

Definition four_numeric_octets (s : string) : bool :=
  (length (split "." s) =? 4)%nat && forallb is_numeric_octet (split "." s).

(** The eight 16-bit groups an IPv6 literal spells (the zone left out). *)
Definition hex_group (p : string) : option Z :=
  if is_v6_segment p then Some (digits_value 16 0 p) else None.

Definition quad_groups (p : string) : option (list Z) :=
  if isIPv4 p then
    match map (digits_value 10 0) (split "." p) with
    | [a; b; c; d] => Some [a * 256 + b; c * 256 + d]
    | _ => None
    end
  else None.

Fixpoint groups (v4_last : bool) (parts : list string) : option (list Z) :=
  match parts with
  | [] => Some []
  | [p] =>
      match hex_group p with
      | Some g => Some [g]
      | None => if v4_last then quad_groups p else None
      end
  | p :: rest =>
      match hex_group p, groups v4_last rest with
      | Some g, Some gs => Some (g :: gs)
      | _, _ => None
      end
  end.

Definition run_of_groups (v4_last : bool) (s : string) : option (list Z) :=
  match s with
  | EmptyString => Some []
  | _ => groups v4_last (split ":" s)
  end.

(** The groups of an address written without a zone: eight groups in
    full, or fewer around one [::], which stands for the groups left out. *)
Definition address_groups (addr : string) : option (list Z) :=
  match cut_double_colon addr with
  | None =>
      match run_of_groups true addr with
      | Some gs => if (length gs =? 8)%nat then Some gs else None
      | None => None
      end
  | Some (l, r) =>
      match run_of_groups false l, run_of_groups true r with
      | Some a, Some b =>
          if (length a + length b <=? 7)%nat
          then Some (a ++ repeat 0 (8 - length a - length b) ++ b)
          else None
      | _, _ => None
      end
  end.

(** The address of a literal: the text before the zone, that is before the
    first [%], the whole literal when it has no zone. *)
Definition address_part (s : string) : string := hd s (split "%" s).

(** The groups of a literal: those of its address, whatever its zone. *)
Definition ipv6_groups (s : string) : option (list Z) :=
  address_groups (address_part s).

(** The IPv4 address an IPv4-mapped literal (::ffff:0:0/96) carries. *)
Definition embedded_ipv4 (s : string) : option (Z * Z * Z * Z) :=
  match ipv6_groups s with
  | Some [0; 0; 0; 0; 0; 65535; h; l] =>
      Some (h / 256, h mod 256, l / 256, l mod 256)
  | _ => None
  end.

(** The IPv6 address is the loopback, the unspecified address, or in
    fc00::/7 or fe80::/10. *)
Definition in_private_ranges_v6 (s : string) : bool :=
  match ipv6_groups s with
  | Some ((g :: _) as gs) =>
      forallb (Z.eqb 0) gs
      || (forallb (Z.eqb 0) (removelast gs) && (List.last gs 0 =? 1))
      || (Z.land g 65024 =? 64512)
      || (Z.land g 65472 =? 65152)
  | _ => false
  end.

(** C0 and C1 control characters and DEL. *)
Definition is_control (u : N) : bool :=
  ((u <? 32) || ((127 <=? u) && (u <=? 159)))%N.

(** The abort reason of [AbortSignal.timeout]: the only thing the timeout
    of the probe raises. *)
Definition TIMEOUT_REASON : Route.Thrown :=
  Route.ErrorObject "TimeoutError" "The operation was aborted due to timeout".

(** How a probe fails: its timeout fired, or the transport failed with some
    thrown value of its own. *)
Inductive ProbeFailure : Type :=
| TimedOut
| TransportFailed (error : Route.Thrown).

Definition thrown_of (f : ProbeFailure) : Route.Thrown :=
  match f with
  | TimedOut => TIMEOUT_REASON
  | TransportFailed error => error
  end.

End Wording.

(** *** The vocabulary of the properties *)

Section RateLimitVocabulary.
Import RateLimit.

Implicit Types (store : gmap string (list Z)) (bucket : list Z).

(** Every stored timestamp of every identifier satisfies [P]. *)
Definition all_buckets (P : list Z -> Prop) store : Prop :=
  forall identifier bucket, store !! identifier = Some bucket -> P bucket.

(** The clock readings of a run of calls never go back, from [t] on. *)
Fixpoint nondecreasing (t : Z) (calls : list (string * Z)) : Prop :=
  match calls with
  | [] => True
  | (_, now) :: rest => t <= now /\ nondecreasing now rest
  end.

(** The last clock reading of a run of calls that starts at [t]. *)
Fixpoint last_reading (t : Z) (calls : list (string * Z)) : Z :=
  match calls with
  | [] => t
  | (_, now) :: rest => last_reading now rest
  end.

(** No bucket ever holds more than LIMIT timestamps. *)
Definition bounded bucket : Prop := Z.of_nat (length bucket) <= LIMIT.

(** With a clock that never goes back, each bucket is in the order of the
    calls (oldest first) and holds nothing later than the last reading. *)
Definition ordered_until (t : Z) bucket : Prop :=
  StronglySorted Z.le bucket /\ Forall (fun e => e <= t) bucket.

(** A clock reading within one window starting at [T0], and a stored
    timestamp that had left the window before [T0]. *)
Definition in_window (T0 t : Z) : Prop := T0 <= t <= T0 + WINDOW_MS.
Definition expired (T0 e : Z) : Prop := e + WINDOW_MS < T0.

End RateLimitVocabulary.

Section AddressVocabulary.
Import JS Security Wording.

(** A character other than the separator. *)
Definition not_char (sep c : ascii) : bool := negb (Ascii.eqb c sep).

(** What the classifier needs of the spelling of an octet: no dot in it, a
    valid segment for net.isIP, and a Number that compares as the octet. *)
Definition octet_checked (n : Z) : bool :=
  let x := Number (octet n) in
  all_chars (not_char ".") (octet n)
  && is_v4_segment (octet n)
  && (digits_value 10 0 (octet n) =? n)
  && negb (isNaN x)
  && forallb (fun k => Bool.eqb (eq_int x k) (n =? k))
       [10; 127; 0; 169; 254; 172; 192; 168; 100]
  && forallb (fun k => Bool.eqb (ge_int x k) (k <=? n)) [16; 64; 224]
  && forallb (fun k => Bool.eqb (le_int x k) (n <=? k)) [31; 127].

(** No colon and no percent sign in the spelling of an octet. *)
Definition octet_plain (n : Z) : bool :=
  all_chars (not_char ":") (octet n) && all_chars (not_char "%") (octet n).

(** The parts put back together around the separator. *)
Fixpoint join (sep : ascii) (parts : list string) : string :=
  match parts with
  | [] => EmptyString
  | [p] => p
  | p :: rest => p +:+ String sep EmptyString +:+ join sep rest
  end.

(** Whether the host name is refused before anything else. *)
Definition local_name (host : string) : bool :=
  String.eqb host "localhost" || endsWith host ".local".

(** The characters of a dotted quad: decimal digits and the dot. *)
Definition quad_char (c : ascii) : bool := is_digit c || Ascii.eqb c ".".

End AddressVocabulary.

Section ReaderVocabulary.
Import Route TextDecoder.

(** The characters the sanitizer replaces: CR, LF and TAB. *)
Definition is_line_break (u : N) : Prop := u = 13%N \/ u = 10%N \/ u = 9%N.

(** The chunks of a stream decoded one after the other: the decoder at the
    end and the text given out. *)
Fixpoint decode_chunks (st : state) (chunks : list (list Byte.byte))
  : state * list N :=
  match chunks with
  | [] => (st, [])
  | value :: rest =>
      let '(st1, out1) := decode_stream st value in
      let '(st2, out2) := decode_chunks st1 rest in
      (st2, out1 ++ out2)
  end.

(** The decoder is inside a multi-byte sequence. *)
Definition open_sequence (st : state) : Prop := bytes_needed st <> 0%N.

(** A body of 50,000 letters [a] followed by the lone lead byte 0xC3, in
    one chunk. *)
Definition dangling_body : list (list Byte.byte) :=
  [repeat Byte.x61 (Z.to_nat 50000) ++ [Byte.xc3]].

(** A body of 50,001 letters [a] and one e-acute (0xC3 0xA9), well-formed
    UTF-8 of 50,002 characters, whose first chunk ends between the two
    bytes of the last character. *)
Definition cut_inside_body : list (list Byte.byte) :=
  [repeat Byte.x61 (Z.to_nat 50001) ++ [Byte.xc3]; [Byte.xa9]].

(** A 200 response declaring Markdown, with a given body stream and
    a given text. *)
Definition response_of (chunks : option (list (list Byte.byte)))
    (text : list N) : Response :=
  {| status := 200; statusText := "OK";
     content_type := Some "text/markdown";
     body := chunks; text := text |}.

End ReaderVocabulary.

(** *** The rest of the route and of the page *)

(** [asRecord] of app/api/check/route: the entries of a [Headers] object, in
    the order of [headers.entries()], written one after the other into a
    plain object. *)
Module Diagnostics.

(** [out[key] = value] on an object literal: the assignment creates or
    overwrites the property, except under the name [__proto__], where a
    string is no prototype and nothing is stored. *)
Definition assign (out : gmap string string) (key value : string)
  : gmap string string :=
  if String.eqb key "__proto__" then out else <[key := value]> out.

Definition asRecord (headers : list (string * string)) : gmap string string :=
  fold_left (fun out entry => assign out (fst entry) (snd entry)) headers ∅.

End Diagnostics.

(** The form of components/markdown-checker: the user agent it sends. *)
Module Client.

Definition CUSTOM : list N := Text.of_string "custom".

(** The entries of the selector: label and value. *)
Definition USER_AGENTS : list (string * list N) :=
  [ ("Browser-like",
     Text.of_string
       "Mozilla/5.0 (Macintosh; Intel Mac OS X 14_0) AppleWebKit/537.36 (KHTML, like Gecko) Chrome/123.0.0.0 Safari/537.36");
    ("Claude-User",
     Text.of_string "Claude-User/1.0 (+https://www.anthropic.com)");
    ("ChatGPT-User",
     Text.of_string "ChatGPT-User/1.0 (+https://openai.com/bot)");
    ("Googlebot",
     Text.of_string
       "Mozilla/5.0 (compatible; Googlebot/2.1; +http://www.google.com/bot.html)");
    ("Custom", CUSTOM) ].

(** [resolvedUserAgent], from the selected entry and the custom field. *)
Definition resolvedUserAgent (agent customAgent : list N) : list N :=
  if bool_decide (agent = CUSTOM) then Text.trim customAgent else agent.

End Client.

Section HandlerVocabulary.
Import RateLimit Route.

(** The results of the calls of one identifier within a run of calls. *)
Fixpoint results_for (identifier : string) (calls : list (string * Z))
    (store : gmap string (list Z)) : list RateLimitResult :=
  match calls with
  | [] => []
  | (caller, now) :: rest =>
      let '(r, store1) := check now caller store in
      if bool_decide (caller = identifier)
      then r :: results_for identifier rest store1
      else results_for identifier rest store1
  end.

(** The calls of one identifier. *)
Definition calls_of (identifier : string) (calls : list (string * Z))
  : list (string * Z) :=
  filter (fun call => fst call = identifier) calls.

(** The HTTP status of a reply. *)
Definition status_of (reply : Reply) : Z :=
  match reply with
  | Checked code _ => code
  | RateLimited code _ => code
  | BadRequest code _ => code
  | Failed r => http_status r
  end.

(** A byte of the ASCII range. *)
Definition is_ascii (b : Byte.byte) : Prop := (Byte.to_N b <= 127)%N.

(** The same runtime with another fetch. *)
Definition with_fetch (rt : Runtime)
    (f : Security.URL -> list N -> Response + Thrown) : Runtime :=
  {| upstashLimiter := upstashLimiter rt; now := now rt; parse := parse rt;
     lookup := lookup rt; fetch := f |}.

(** A target that assertSupportedUrl lets through. *)
Definition supported (target : Security.URL) : Prop :=
  (Security.protocol target = "http:" \/ Security.protocol target = "https:")
  /\ Security.username target = EmptyString
  /\ Security.password target = EmptyString.

(** The call of the limiter a request makes: the identifier of the client
    and the clock reading. *)
Definition call_of (entry : Runtime * NextRequest) : string * Z :=
  (getIpFromRequest (snd entry), now (fst entry)).

(** Requests served one after the other, each with the runtime of its own
    moment, on the store of the limiter: the replies with their rate-limit
    headers, and the store at the end. *)
Fixpoint serve (requests : list (Runtime * NextRequest))
    (store : gmap string (list Z))
  : list (Reply * option RateLimitResult) * gmap string (list Z) :=
  match requests with
  | [] => ([], store)
  | (rt, request) :: rest =>
      let '(reply, headers, store1) := POST rt request store in
      let '(replies, store2) := serve rest store1 in
      ((reply, headers) :: replies, store2)
  end.

End HandlerVocabulary.

(** ** Part II: properties *)

(** *** The in-process rate limiter *)

Section RateLimitFacts.
Import RateLimit.

Implicit Types (store : gmap string (list Z)) (bucket : list Z).

Lemma fresh_of_in now bucket e :
  e ∈ fresh_of now bucket <-> now - e <= WINDOW_MS /\ e ∈ bucket.
Proof.
  exact (list_elem_of_filter
           (fun timestamp => now - timestamp <= WINDOW_MS) bucket e).
Qed.

Lemma fresh_of_within now bucket :
  Forall (fun e => now - WINDOW_MS <= e) (fresh_of now bucket).
Proof.
  apply Forall_forall. intros e He. apply fresh_of_in in He. lia.
Qed.

Lemma fresh_of_keeps now bucket :
  Forall (fun e => now - e <= WINDOW_MS) bucket -> fresh_of now bucket = bucket.
Proof.
  unfold fresh_of. induction 1 as [|e l He _ IH]; [reflexivity|].
  rewrite filter_cons_True by exact He. now rewrite IH.
Qed.

Lemma fresh_of_drops now bucket :
  Forall (fun e => WINDOW_MS < now - e) bucket -> fresh_of now bucket = [].
Proof.
  unfold fresh_of. induction 1 as [|e l He _ IH]; [reflexivity|].
  rewrite filter_cons_False by lia. exact IH.
Qed.

Lemma fresh_of_app now l1 l2 :
  fresh_of now (l1 ++ l2) = fresh_of now l1 ++ fresh_of now l2.
Proof. apply filter_app. Qed.

Lemma fresh_of_length now bucket :
  (length (fresh_of now bucket) <= length bucket)%nat.
Proof. apply length_filter. Qed.

(** The two branches of the fallback. *)
Lemma check_rejected now identifier store :
  LIMIT <= Z.of_nat (length (fresh_of now (default [] (store !! identifier)))) ->
  check now identifier store =
    ({| success := false; limit := LIMIT; remaining := 0;
        reset := first_of (fresh_of now (default [] (store !! identifier)))
                 + WINDOW_MS |},
     <[identifier := fresh_of now (default [] (store !! identifier))]> store).
Proof.
  intros H. unfold check, enforceRateLimit.
  destruct (Z.leb_spec LIMIT
    (Z.of_nat (length (fresh_of now (default [] (store !! identifier))))));
    [reflexivity | lia].
Qed.

Lemma check_allowed now identifier store :
  Z.of_nat (length (fresh_of now (default [] (store !! identifier)))) < LIMIT ->
  check now identifier store =
    ({| success := true; limit := LIMIT;
        remaining := LIMIT - 1
          - Z.of_nat (length (fresh_of now (default [] (store !! identifier))));
        reset := now + WINDOW_MS |},
     <[identifier :=
         fresh_of now (default [] (store !! identifier)) ++ [now]]> store).
Proof.
  intros H. unfold check, enforceRateLimit.
  destruct (Z.leb_spec LIMIT
    (Z.of_nat (length (fresh_of now (default [] (store !! identifier))))));
    [lia|].
  do 2 f_equal. rewrite length_app. simpl. lia.
Qed.

(** What a call stores for its identifier, in both branches. *)
Lemma check_stored now identifier store :
  let fresh := fresh_of now (default [] (store !! identifier)) in
  snd (check now identifier store) !! identifier
  = Some (if success (fst (check now identifier store))
          then fresh ++ [now] else fresh)
  /\ (success (fst (check now identifier store)) = true
      <-> Z.of_nat (length fresh) < LIMIT).
Proof.
  intros fresh.
  destruct (Z.lt_ge_cases (Z.of_nat (length fresh)) LIMIT) as [H|H].
  - rewrite (check_allowed _ _ _ H). simpl. rewrite lookup_insert_eq.
    split; [reflexivity|]. tauto.
  - rewrite (check_rejected _ _ _ H). simpl. rewrite lookup_insert_eq.
    split; [reflexivity|]. split; [discriminate | lia].
Qed.

Lemma check_other now identifier other store :
  identifier <> other ->
  snd (check now identifier store) !! other = store !! other.
Proof.
  intros Hne. unfold check, enforceRateLimit.
  destruct (LIMIT <=? _); simpl; now rewrite lookup_insert_ne.
Qed.

(** A property of buckets kept by pruning and by the accepted append is
    kept by a call. *)
Lemma check_all_buckets (P : list Z -> Prop) now identifier store :
  (forall bucket, P bucket -> P (fresh_of now bucket)) ->
  (forall bucket, P bucket -> Z.of_nat (length bucket) < LIMIT ->
                  Forall (fun e => now - WINDOW_MS <= e) bucket ->
                  P (bucket ++ [now])) ->
  P [] ->
  all_buckets P store ->
  all_buckets P (snd (check now identifier store)).
Proof.
  intros Hprune Hpush Hnil Hstore other bucket Hlook.
  destruct (decide (identifier = other)) as [<-|Hne].
  - destruct (check_stored now identifier store) as [Hs Hok].
    rewrite Hs in Hlook. injection Hlook as <-.
    assert (Hold : P (fresh_of now (default [] (store !! identifier)))).
    { apply Hprune. destruct (store !! identifier) eqn:E; simpl; eauto. }
    destruct (success _).
    + apply Hpush; [exact Hold | now apply Hok | apply fresh_of_within].
    + exact Hold.
  - rewrite check_other in Hlook by exact Hne. eauto.
Qed.

Lemma run_calls_step identifier now rest store :
  run_calls ((identifier, now) :: rest) store
  = (fst (check now identifier store)
       :: fst (run_calls rest (snd (check now identifier store))),
     snd (run_calls rest (snd (check now identifier store)))).
Proof.
  simpl. destruct (check now identifier store) as [r s1]. simpl.
  now destruct (run_calls rest s1).
Qed.

Lemma check_bounded now identifier store :
  all_buckets bounded store ->
  all_buckets bounded (snd (check now identifier store)).
Proof.
  apply check_all_buckets; unfold bounded.
  - intros b Hb. pose proof (fresh_of_length now b). lia.
  - intros b _ Hlt _. rewrite length_app. simpl. lia.
  - simpl. unfold LIMIT. lia.
Qed.

Lemma run_calls_bounded calls store :
  all_buckets bounded store ->
  all_buckets bounded (snd (run_calls calls store)).
Proof.
  revert store. induction calls as [|[identifier now] rest IH]; intros store H.
  - exact H.
  - rewrite run_calls_step. simpl. apply IH, check_bounded, H.
Qed.

Lemma all_buckets_empty (P : list Z -> Prop) : all_buckets P ∅.
Proof. intros identifier bucket H. now rewrite lookup_empty in H. Qed.

Lemma ordered_until_mono t t' bucket :
  t <= t' -> ordered_until t bucket -> ordered_until t' bucket.
Proof.
  intros Ht [Hs Hb]. split; [exact Hs|].
  eapply Forall_impl; [exact Hb|]. simpl. intros; lia.
Qed.

Lemma ordered_until_fresh t now bucket :
  ordered_until t bucket -> ordered_until t (fresh_of now bucket).
Proof.
  intros [Hs Hb]. split.
  - unfold fresh_of. induction Hs as [|e l Hs IH Hall]; [constructor|].
    inversion Hb; subst.
    rewrite filter_cons. destruct (decide _); [|now apply IH].
    constructor; [now apply IH|].
    apply Forall_forall. intros x Hx. apply list_elem_of_filter in Hx.
    rewrite Forall_forall in Hall. apply Hall, Hx.
  - apply Forall_forall. intros e He. apply fresh_of_in in He.
    rewrite Forall_forall in Hb. apply Hb, He.
Qed.

Lemma ordered_until_push now bucket :
  ordered_until now bucket -> ordered_until now (bucket ++ [now]).
Proof.
  intros [Hs Hb]. split.
  - induction Hs as [|e l Hs IH Hall]; simpl.
    + repeat constructor.
    + inversion Hb; subst. constructor; [now apply IH|].
      apply Forall_app. split; [exact Hall|]. constructor; [lia|constructor].
  - apply Forall_app. split; [exact Hb|]. constructor; [lia|constructor].
Qed.

Lemma check_ordered t now identifier store :
  t <= now ->
  all_buckets (ordered_until t) store ->
  all_buckets (ordered_until now) (snd (check now identifier store)).
Proof.
  intros Ht Hstore.
  apply check_all_buckets.
  - intros b Hb. now apply ordered_until_fresh.
  - intros b Hb _ _. now apply ordered_until_push.
  - split; constructor.
  - intros other b Hb. eapply ordered_until_mono; [exact Ht|]. eauto.
Qed.

Lemma run_calls_ordered calls t store :
  nondecreasing t calls ->
  all_buckets (ordered_until t) store ->
  all_buckets (ordered_until (last_reading t calls))
              (snd (run_calls calls store)).
Proof.
  revert t store.
  induction calls as [|[identifier now] rest IH]; intros t store Hc H.
  - exact H.
  - destruct Hc as [Ht Hrest]. rewrite run_calls_step. simpl.
    apply IH; [exact Hrest|]. eapply check_ordered; eauto.
Qed.

End RateLimitFacts.

Section RateLimitWindow.
Import RateLimit.

Variables (identifier : string) (T0 : Z).

Lemma fresh_of_expired_kept now stale kept :
  in_window T0 now -> Forall (expired T0) stale -> Forall (in_window T0) kept ->
  fresh_of now (stale ++ kept) = kept.
Proof.
  intros Hnow Hstale Hkept. rewrite fresh_of_app.
  rewrite fresh_of_drops, fresh_of_keeps; [reflexivity| |].
  - eapply Forall_impl; [exact Hkept|].
    unfold in_window in *. simpl. intros; lia.
  - eapply Forall_impl; [exact Hstale|].
    unfold in_window, expired in *. simpl. intros; lia.
Qed.

(** While fewer than LIMIT readings of the window are stored, each call in
    the window is accepted and appended. *)
Lemma run_in_window times :
  forall (store : gmap string (list Z)) stale kept,
    default [] (store !! identifier) = stale ++ kept ->
    Forall (expired T0) stale -> Forall (in_window T0) kept -> Forall (in_window T0) times ->
    Z.of_nat (length kept + length times) <= LIMIT ->
    Forall (fun r => success r = true /\ limit r = LIMIT)
           (fst (run_calls (map (pair identifier) times) store))
    /\ length (fst (run_calls (map (pair identifier) times) store))
       = length times
    /\ exists stale',
         default [] (snd (run_calls (map (pair identifier) times) store)
                       !! identifier) = stale' ++ kept ++ times
         /\ Forall (expired T0) stale'.
Proof.
  induction times as [|now rest IH]; intros store stale kept Hb Hs Hk Ht Hlen.
  - simpl. rewrite app_nil_r. repeat split; [constructor|]. eauto.
  - inversion Ht as [|? ? Hnow Hrest]; subst.
    simpl map. rewrite run_calls_step. simpl fst. simpl snd.
    assert (Hfresh : fresh_of now (default [] (store !! identifier)) = kept).
    { rewrite Hb. now apply fresh_of_expired_kept. }
    assert (Hlt : Z.of_nat (length (fresh_of now
                     (default [] (store !! identifier)))) < LIMIT).
    { rewrite Hfresh. simpl in Hlen. lia. }
    rewrite (check_allowed _ _ _ Hlt), Hfresh. simpl fst. simpl snd.
    destruct (IH (<[identifier := kept ++ [now]]> store) [] (kept ++ [now]))
      as (Hall & Hn & stale' & Hst & Hex).
    + now rewrite lookup_insert_eq.
    + constructor.
    + apply Forall_app. split; [exact Hk|]. now constructor.
    + exact Hrest.
    + rewrite length_app. simpl in *. lia.
    + split; [|split].
      * constructor; [split; reflexivity | exact Hall].
      * simpl. now rewrite Hn.
      * exists stale'. rewrite Hst, <- app_assoc. simpl. auto.
Qed.

End RateLimitWindow.

(** C8. With the in-process fallback, thirty checks of one identifier within
    one window (clock readings in [T0, T0 + WINDOW_MS], nothing of the
    identifier still counted at T0) all succeed; a thirty-first within the
    same window is rejected with [remaining = 0]; and once the window has
    fully elapsed since the counted checks, a further check succeeds. *)
Theorem fallback_thirty_then_reject_then_recover
    (identifier : string) (store : gmap string (list Z))
    (T0 : Z) (times : list Z) (t31 later : Z) :
  length times = 30%nat ->
  Forall (in_window T0) times ->
  in_window T0 t31 ->
  Forall (expired T0) (default [] (store !! identifier)) ->
  Forall (fun t => t + RateLimit.WINDOW_MS < later) times ->
  let first30 := RateLimit.run_calls (map (pair identifier) times) store in
  let call31 := RateLimit.check t31 identifier (snd first30) in
  let after := RateLimit.check later identifier (snd call31) in
  length (fst first30) = 30%nat
  /\ Forall (fun r => RateLimit.success r = true) (fst first30)
  /\ RateLimit.success (fst call31) = false
  /\ RateLimit.remaining (fst call31) = 0
  /\ RateLimit.success (fst after) = true.
Proof.
  intros Hlen Htimes H31 Hstale Hlater first30 call31 after.
  destruct (run_in_window identifier T0 times store
              (default [] (store !! identifier)) [])
    as (Hall & Hn & stale' & Hst & Hex).
  - now rewrite app_nil_r.
  - exact Hstale.
  - constructor.
  - exact Htimes.
  - rewrite Hlen. unfold RateLimit.LIMIT. simpl. lia.
  - simpl in Hst. fold first30 in Hall, Hn, Hst.
    assert (Hfresh : RateLimit.fresh_of t31
              (default [] (snd first30 !! identifier)) = times).
    { rewrite Hst. now apply (fresh_of_expired_kept T0). }
    assert (Hge : RateLimit.LIMIT <= Z.of_nat (length (RateLimit.fresh_of t31
              (default [] (snd first30 !! identifier))))).
    { rewrite Hfresh, Hlen. unfold RateLimit.LIMIT. simpl. lia. }
    pose proof (check_rejected _ _ _ Hge) as H31eq. fold call31 in H31eq.
    rewrite Hfresh in H31eq.
    assert (Hafter : Z.of_nat (length (RateLimit.fresh_of later
              (default [] (snd call31 !! identifier)))) < RateLimit.LIMIT).
    { rewrite H31eq. simpl. rewrite lookup_insert_eq. simpl.
      rewrite fresh_of_drops; [unfold RateLimit.LIMIT; simpl; lia|].
      eapply Forall_impl; [exact Hlater|]. simpl. intros; lia. }
    pose proof (check_allowed _ _ _ Hafter) as Haeq. fold after in Haeq.
    repeat split.
    + now rewrite Hn.
    + eapply Forall_impl; [exact Hall|]. simpl. tauto.
    + now rewrite H31eq.
    + now rewrite H31eq.
    + now rewrite Haeq.
Qed.

Lemma fallback_thirty_witness :
  let times := map Z.of_nat (seq 0 30) in
  let first30 :=
    RateLimit.run_calls (map (pair "198.51.100.7") times) ∅ in
  let call31 := RateLimit.check 30 "198.51.100.7" (snd first30) in
  let after := RateLimit.check 600030 "198.51.100.7" (snd call31) in
  length (fst first30) = 30%nat
  /\ Forall (fun r => RateLimit.success r = true) (fst first30)
  /\ RateLimit.success (fst call31) = false
  /\ RateLimit.remaining (fst call31) = 0
  /\ RateLimit.success (fst after) = true.
Proof.
  apply (fallback_thirty_then_reject_then_recover
           "198.51.100.7" ∅ 0 (map Z.of_nat (seq 0 30)) 30 600030).
  - reflexivity.
  - simpl.
    repeat (constructor; [unfold in_window, RateLimit.WINDOW_MS; lia|]).
    constructor.
  - unfold in_window, RateLimit.WINDOW_MS. lia.
  - rewrite lookup_empty. constructor.
  - simpl.
    repeat (constructor; [unfold RateLimit.WINDOW_MS; lia|]).
    constructor.
Defined.

Lemma nondecreasing_snoc t0 calls identifier now :
  nondecreasing t0 (calls ++ [(identifier, now)]) ->
  nondecreasing t0 calls /\ last_reading t0 calls <= now.
Proof.
  revert t0. induction calls as [|[other t] rest IH]; intros t0; simpl.
  - tauto.
  - intros [Ht Hrest]. destruct (IH _ Hrest). tauto.
Qed.

(** C10. In any run of the in-process fallback from the empty store, after
    a call the list stored for the queried identifier has at most 30
    entries, none older than the trailing window, and, when the clock never
    went back, none later than the call; a rejected call stores the pruned
    list as it is, with no timestamp appended. *)
Theorem fallback_bucket_invariant
    (calls : list (string * Z)) (identifier : string) (now : Z) :
  let store := snd (RateLimit.run_calls calls ∅) in
  let outcome := RateLimit.check now identifier store in
  exists bucket,
    snd outcome !! identifier = Some bucket
    /\ (length bucket <= 30)%nat
    /\ Forall (fun e => now - RateLimit.WINDOW_MS <= e) bucket
    /\ (forall t0, nondecreasing t0 (calls ++ [(identifier, now)]) ->
        Forall (fun e => e <= now) bucket)
    /\ (RateLimit.success (fst outcome) = false ->
        bucket = RateLimit.fresh_of now (default [] (store !! identifier))
        /\ (length bucket <= length (default [] (store !! identifier)))%nat).
Proof.
  intros store outcome.
  destruct (check_stored now identifier store) as [Hs Hok].
  fold outcome in Hs, Hok.
  eexists. split; [exact Hs|].
  assert (Hb : all_buckets bounded (snd outcome)).
  { apply check_bounded, run_calls_bounded, all_buckets_empty. }
  split; [|split; [|split]].
  - specialize (Hb _ _ Hs). unfold bounded, RateLimit.LIMIT in Hb. lia.
  - destruct (RateLimit.success (fst outcome)).
    + apply Forall_app. split; [apply fresh_of_within|].
      constructor; [unfold RateLimit.WINDOW_MS; lia | constructor].
    + apply fresh_of_within.
  - intros t0 Hclock. apply nondecreasing_snoc in Hclock as [Hc Hlast].
    assert (Ho : all_buckets (ordered_until now) (snd outcome)).
    { eapply check_ordered; [exact Hlast|].
      apply run_calls_ordered; [exact Hc|].
      apply all_buckets_empty. }
    exact (proj2 (Ho _ _ Hs)).
  - intros Hrej. rewrite Hrej. split; [reflexivity|].
    apply fresh_of_length.
Qed.

Lemma fallback_bucket_invariant_witness :
  exists bucket,
    snd (RateLimit.check 7 "a" (snd (RateLimit.run_calls [("a", 5)] ∅)))
      !! "a" = Some bucket
    /\ Forall (fun e => e <= 7) bucket.
Proof.
  destruct (fallback_bucket_invariant [("a", 5)] "a" 7)
    as (bucket & Hs & _ & _ & Hclock & _).
  exists bucket. split; [exact Hs|].
  apply (Hclock 0). simpl. lia.
Defined.

(** C7, as the code has it. In any run of the in-process fallback from the
    empty store with a clock that never goes back: a rejected call returns
    as [reset] the time at which the oldest counted timestamp of the
    identifier leaves the window; an accepted call returns
    [now + WINDOW_MS], the time at which the timestamp it has just recorded
    (the newest one) leaves the window. *)
Theorem fallback_reset_time
    (calls : list (string * Z)) (identifier : string) (now t0 : Z) :
  nondecreasing t0 (calls ++ [(identifier, now)]) ->
  let store := snd (RateLimit.run_calls calls ∅) in
  let outcome := RateLimit.check now identifier store in
  exists bucket,
    snd outcome !! identifier = Some bucket
    /\ (RateLimit.success (fst outcome) = false ->
        exists oldest rest,
          bucket = oldest :: rest
          /\ Forall (fun e => oldest <= e) rest
          /\ RateLimit.reset (fst outcome) = oldest + RateLimit.WINDOW_MS)
    /\ (RateLimit.success (fst outcome) = true ->
        exists earlier,
          bucket = earlier ++ [now]
          /\ Forall (fun e => e <= now) earlier
          /\ RateLimit.reset (fst outcome) = now + RateLimit.WINDOW_MS).
Proof.
  intros Hclock store outcome.
  apply nondecreasing_snoc in Hclock as [Hc Hlast].
  assert (Ho : all_buckets (ordered_until now) (snd outcome)).
  { eapply check_ordered; [exact Hlast|].
    apply run_calls_ordered; [exact Hc | apply all_buckets_empty]. }
  set (fresh := RateLimit.fresh_of now (default [] (store !! identifier))).
  destruct (Z.lt_ge_cases (Z.of_nat (length fresh)) RateLimit.LIMIT)
    as [H|H].
  - pose proof (check_allowed _ _ _ H) as E. fold outcome fresh in E.
    exists (fresh ++ [now]). rewrite E. simpl. rewrite lookup_insert_eq.
    split; [reflexivity|]. split; [discriminate|]. intros _.
    exists fresh. repeat split.
    specialize (Ho identifier (fresh ++ [now])).
    rewrite E in Ho. simpl in Ho. rewrite lookup_insert_eq in Ho.
    destruct (Ho eq_refl) as [_ Hb]. apply Forall_app in Hb. tauto.
  - pose proof (check_rejected _ _ _ H) as E. fold outcome fresh in E.
    exists fresh. rewrite E. simpl. rewrite lookup_insert_eq.
    split; [reflexivity|]. split; [|discriminate]. intros _.
    specialize (Ho identifier fresh).
    rewrite E in Ho. simpl in Ho. rewrite lookup_insert_eq in Ho.
    destruct (Ho eq_refl) as [Hs _].
    destruct fresh as [|oldest rest].
    + unfold RateLimit.LIMIT in H. simpl in H. lia.
    + exists oldest, rest. inversion Hs; subst. repeat split. assumption.
Qed.

Lemma fallback_reset_time_witness :
  exists bucket,
    snd (RateLimit.check 1000 "a" (snd (RateLimit.run_calls [("a", 0)] ∅)))
      !! "a" = Some bucket.
Proof.
  destruct (fallback_reset_time [("a", 0)] "a" 1000 0) as (bucket & Hs & _).
  - simpl. lia.
  - exists bucket. exact Hs.
Defined.

(** C7 as stated fails on an accepted call that finds an earlier timestamp
    in the window: after a check at 0, a check at 1000 is accepted, the
    oldest counted timestamp is 0, leaving the window at 600000, and the
    [reset] returned is 601000. *)
Lemma reset_of_allowed_call_is_not_oldest :
  let outcome :=
    RateLimit.check 1000 "a" (snd (RateLimit.run_calls [("a", 0)] ∅)) in
  RateLimit.success (fst outcome) = true
  /\ snd outcome !! "a" = Some [0; 1000]
  /\ RateLimit.reset (fst outcome) = 601000
  /\ RateLimit.reset (fst outcome) <> 0 + RateLimit.WINDOW_MS.
Proof.
  vm_compute. repeat split; discriminate.
Qed.

(** *** Strings *)

#[local] Arguments String.append !s1 s2 : simpl nomatch.

Section StringFacts.
Import JS.

Lemma startsWith_iff s p :
  startsWith s p = true <-> exists post, s = p +:+ post.
Proof.
  revert s. induction p as [|a p IH]; intros s; simpl.
  - split; [intros _; now exists s | intros _; now destruct s].
  - destruct s as [|b s].
    + split; [discriminate | intros [post H]; discriminate].
    + simpl. rewrite andb_true_iff, IH. split.
      * intros [Hab [post ->]]. apply Ascii.eqb_eq in Hab as ->.
        now exists post.
      * intros [post H]. injection H as -> ->.
        split; [apply Ascii.eqb_refl | now exists post].
Qed.

(** [includes] is the substring relation. *)
Lemma includes_iff s p :
  includes s p = true <-> exists pre post, s = pre +:+ p +:+ post.
Proof.
  induction s as [|c s IH].
  - cbn [includes]. rewrite orb_false_r, startsWith_iff. split.
    + intros [post H]. now exists EmptyString, post.
    + intros [[|x pre] [post H]]; [now exists post | discriminate].
  - cbn [includes]. rewrite orb_true_iff, startsWith_iff, IH. split.
    + intros [[post H] | [pre [post H]]].
      * now exists EmptyString, post.
      * exists (String c pre), post. simpl. now rewrite H.
    + intros [[|x pre] [post H]].
      * left. now exists post.
      * right. injection H as -> ->. now exists pre, post.
Qed.

Lemma toLowerCase_app a b :
  toLowerCase (a +:+ b) = toLowerCase a +:+ toLowerCase b.
Proof. induction a as [|x a IH]; simpl; [reflexivity | now rewrite IH]. Qed.

(** A split of the lowered string comes from a split of the string. *)
Lemma toLowerCase_split s a b :
  toLowerCase s = a +:+ b ->
  exists a' b', s = a' +:+ b' /\ toLowerCase a' = a /\ toLowerCase b' = b.
Proof.
  revert s. induction a as [|x a IH]; intros s H.
  - exists EmptyString, s. auto.
  - destruct s as [|c s]; [discriminate|].
    simpl in H. injection H as Hx Hs.
    destruct (IH _ Hs) as (a' & b' & -> & Ha & Hb).
    exists (String c a'), b'. simpl. now rewrite Hx, Ha, Hb.
Qed.

(** Matching a lower-case pattern in the lowered string is finding any
    spelling of it, in any letter case, somewhere in the string. *)
Lemma includes_lowered_iff s p :
  includes (toLowerCase s) p = true
  <-> exists pre mid post, s = pre +:+ mid +:+ post /\ toLowerCase mid = p.
Proof.
  rewrite includes_iff. split.
  - intros (pre & post & H).
    apply toLowerCase_split in H as (pre' & r & -> & _ & Hr).
    apply toLowerCase_split in Hr as (mid & post' & -> & Hm & _).
    now exists pre', mid, post'.
  - intros (pre & mid & post & -> & <-).
    exists (toLowerCase pre), (toLowerCase post).
    now rewrite !toLowerCase_app.
Qed.

End StringFacts.

(** *** The verdict *)

Section VerdictFacts.
Import JS Route.

Lemma ok_iff response :
  ok response = true <-> 200 <= status response < 300.
Proof. unfold ok. rewrite andb_true_iff, !Z.leb_le. lia. Qed.

Lemma isMarkdownContentType_iff contentType :
  isMarkdownContentType contentType = true
  <-> exists header pre mid post,
        contentType = Some header
        /\ header = pre +:+ mid +:+ post
        /\ toLowerCase mid = "text/markdown".
Proof.
  destruct contentType as [header|]; simpl.
  - destruct (String.eqb_spec header EmptyString) as [->|Hne].
    + split; [discriminate|].
      intros (h & pre & mid & post & Hh & H & Hm). injection Hh as <-.
      destruct pre; [|discriminate]. destruct mid; discriminate.
    + rewrite includes_lowered_iff. split.
      * intros (pre & mid & post & H & Hm). now exists header, pre, mid, post.
      * intros (h & pre & mid & post & Hh & H & Hm). injection Hh as <-.
        now exists pre, mid, post.
  - split; [discriminate|]. intros (h & _ & _ & _ & H & _). discriminate.
Qed.

End VerdictFacts.

(** C4. The verdict of a probe response: [found] holds exactly when the
    status is in [200, 300) and the content-type header holds some spelling
    of text/markdown, in any letter case, anywhere in its value (so with
    any parameters after it); the reason is the first that applies of:
    found, status in [300, 400), status outside [200, 300), otherwise the
    ignored-negotiation one; and two responses with the same status and
    content-type header get the same [found] and [reason]. *)
Theorem verdict_of_status_and_content_type :
  (forall response,
     Route.found (Route.classify response) = true
     <-> (200 <= Route.status response < 300
          /\ exists header pre mid post,
               Route.content_type response = Some header
               /\ header = pre +:+ mid +:+ post
               /\ JS.toLowerCase mid = "text/markdown"))
  /\ (forall response,
        Route.reason (Route.classify response)
        = if Route.found (Route.classify response) then Route.FOUND_REASON
          else if decide (300 <= Route.status response < 400)
               then Route.REDIRECT_REASON
          else if decide (~ 200 <= Route.status response < 300)
               then Route.NON_2XX_REASON
          else Route.IGNORED_REASON)
  /\ (forall r1 r2,
        Route.status r1 = Route.status r2 ->
        Route.content_type r1 = Route.content_type r2 ->
        Route.found (Route.classify r1) = Route.found (Route.classify r2)
        /\ Route.reason (Route.classify r1)
           = Route.reason (Route.classify r2)).
Proof.
  assert (Hfound : forall response,
    Route.found (Route.classify response)
    = Route.ok response
      && Route.isMarkdownContentType (Route.content_type response)).
  { intros response. unfold Route.classify.
    destruct (Route.ok response && _); reflexivity. }
  assert (Hreason : forall response,
    Route.reason (Route.classify response)
    = if Route.ok response
         && Route.isMarkdownContentType (Route.content_type response)
      then Route.FOUND_REASON
      else if (300 <=? Route.status response)
              && (Route.status response <? 400)
           then Route.REDIRECT_REASON
      else if negb (Route.ok response) then Route.NON_2XX_REASON
      else Route.IGNORED_REASON).
  { intros response. unfold Route.classify.
    destruct (Route.ok response && _); reflexivity. }
  split; [|split].
  - intros response.
    rewrite Hfound, andb_true_iff, ok_iff, isMarkdownContentType_iff.
    reflexivity.
  - intros response. rewrite Hreason, Hfound.
    destruct (Route.ok response && _); [reflexivity|].
    destruct (decide (300 <= Route.status response < 400)) as [H|H].
    + replace ((300 <=? _) && (_ <? 400)) with true; [reflexivity|].
      symmetry. apply andb_true_iff. rewrite Z.leb_le, Z.ltb_lt. exact H.
    + replace ((300 <=? _) && (_ <? 400)) with false.
      2:{ symmetry. apply andb_false_iff.
          rewrite Z.leb_gt, Z.ltb_ge. lia. }
      destruct (Route.ok response) eqn:Hok.
      * apply ok_iff in Hok. simpl.
        destruct (decide _) as [Hn|_]; [tauto | reflexivity].
      * simpl. destruct (decide _) as [_|Hn]; [reflexivity|].
        exfalso. apply Hn. intros Hin. apply ok_iff in Hin. congruence.
  - intros r1 r2 Hs Hc. rewrite !Hfound, !Hreason. unfold Route.ok.
    rewrite Hs, Hc. auto.
Qed.

Lemma verdict_witness :
  Route.found (Route.classify
    {| Route.status := 200; Route.statusText := "OK";
       Route.content_type := Some "Text/Markdown; charset=utf-8";
       Route.body := None; Route.text := [] |}) = true.
Proof.
  apply (proj1 verdict_of_status_and_content_type). split; [simpl; lia|].
  exists "Text/Markdown; charset=utf-8", EmptyString, "Text/Markdown",
         "; charset=utf-8".
  repeat split.
Defined.

(** *** Probe failures *)

(** Once the limiter, the JSON body and the two checks of the target have
    let the request through, the reply of POST is that of the probe
    stage. *)
Lemma POST_reaches_probe rt request store body raw target :
  RateLimit.success
    (fst (RateLimit.enforceRateLimit (Route.upstashLimiter rt) (Route.now rt)
            (Route.getIpFromRequest request) store)) = true ->
  Route.json request = Some body ->
  Route.url body = Some raw ->
  raw <> EmptyString ->
  Security.assertSupportedUrl (Route.parse rt) (JS.trim raw) = Return target ->
  snd (run (Route.lookup rt) (Security.assertSafeTarget target)) = Return tt ->
  fst (fst (Route.POST rt request store))
  = Route.probe_stage
      (Route.fetch rt target (Route.sanitizeUserAgent (Route.userAgent body))).
Proof.
  intros Hrate Hjson Hurl Hraw Hsup Hsafe. unfold Route.POST.
  destruct (RateLimit.enforceRateLimit _ _ _ _) as [rate store'].
  cbn [fst] in Hrate. rewrite Hrate, Hjson, Hurl. cbn [negb].
  destruct (String.eqb_spec raw EmptyString) as [E|_]; [contradiction|].
  rewrite Hsup, Hsafe.
  now destruct (Route.probe_stage _).
Qed.

(** C6, as the code has it. A value caught around the probe gives 504
    exactly when it is an Error named TimeoutError or AbortError or an Error
    whose message holds some spelling of timeout in any letter case, and 502
    otherwise; the abort reason of the timeout signal is such a value; and
    in both cases [details] is the message of the Error (the string form of
    a value that is not an Error). *)
Theorem probe_failure_reply (error : Route.Thrown) :
  (Route.http_status (Route.probe_failed error) = 504
   <-> exists name message,
         error = Route.ErrorObject name message
         /\ (name = "TimeoutError" \/ name = "AbortError"
             \/ exists pre mid post,
                  message = pre +:+ mid +:+ post
                  /\ JS.toLowerCase mid = "timeout"))
  /\ (Route.http_status (Route.probe_failed error) <> 504 ->
      Route.http_status (Route.probe_failed error) = 502)
  /\ Route.details (Route.probe_failed error)
     = match error with
       | Route.ErrorObject _ message => message
       | Route.OtherValue s => s
       end
  /\ Route.probe_stage (inr error) = Route.Failed (Route.probe_failed error)
  /\ Route.http_status
       (Route.probe_failed (Wording.thrown_of Wording.TimedOut)) = 504.
Proof.
  assert (Hs : Route.http_status (Route.probe_failed error)
               = if Route.isTimeout error then 504 else 502) by reflexivity.
  split; [|split; [|repeat split]].
  - rewrite Hs. destruct error as [name message|s]; simpl.
    + destruct (String.eqb_spec name "TimeoutError") as [->|H1]; simpl.
      { split; [|reflexivity]. intros _. eexists _, _. eauto. }
      destruct (String.eqb_spec name "AbortError") as [->|H2]; simpl.
      { split; [|reflexivity]. intros _. eexists _, _. eauto. }
      destruct (JS.includes (JS.toLowerCase message) "timeout") eqn:Hi.
      { split; [|reflexivity]. intros _.
        apply includes_lowered_iff in Hi. eexists _, _. eauto. }
      split; [discriminate|].
      intros (n & m & Heq & Hcase). injection Heq as <- <-.
      destruct Hcase as [Hn|[Hn|Hm]]; [congruence | congruence |].
      apply includes_lowered_iff in Hm. congruence.
    + split; [discriminate|]. intros (n & m & Heq & _). discriminate.
  - rewrite Hs. destruct (Route.isTimeout error); [congruence | reflexivity].
Qed.

Lemma probe_failure_reply_witness :
  Route.http_status
    (Route.probe_failed (Route.ErrorObject "TypeError" "fetch failed")) = 502.
Proof.
  apply (probe_failure_reply (Route.ErrorObject "TypeError" "fetch failed")).
  vm_compute. discriminate.
Defined.

(** C6 as stated fails: a failure that is not the timeout of the probe, an
    Error of another name whose message mentions a timeout, gives 504. *)
Lemma status_504_without_the_timeout_signal :
  let failure :=
    Wording.TransportFailed
      (Route.ErrorObject "TypeError" "upstream reported a gateway timeout") in
  failure <> Wording.TimedOut
  /\ Wording.thrown_of failure <> Wording.thrown_of Wording.TimedOut
  /\ Route.http_status (Route.probe_failed (Wording.thrown_of failure)) = 504.
Proof.
  repeat split; [discriminate | discriminate].
Qed.

(** *** The user agent *)

Section UserAgentFacts.
Import Route.

Lemma trimEnd_nil s :
  Text.trimEnd s = [] <-> forallb Text.isWhiteSpace s = true.
Proof.
  induction s as [|u s IH]; simpl; [tauto|].
  destruct (Text.trimEnd s) as [|x t].
  - destruct (Text.isWhiteSpace u); simpl.
    + split; [intros _; now apply IH | reflexivity].
    + split; discriminate.
  - split; [discriminate|]. rewrite andb_true_iff. intros [_ H].
    apply IH in H. discriminate.
Qed.

Lemma trimStart_suffix s : exists pre, s = pre ++ Text.trimStart s
                                       /\ forallb Text.isWhiteSpace pre = true.
Proof.
  induction s as [|u s (pre & IH & Hp)]; simpl.
  - now exists [].
  - destruct (Text.isWhiteSpace u) eqn:Hu.
    + exists (u :: pre). simpl. rewrite Hu, Hp. split; [now f_equal | reflexivity].
    + now exists [].
Qed.

(** [trim] gives nothing exactly on white space. *)
Lemma trim_nil s :
  Text.trim s = [] <-> forallb Text.isWhiteSpace s = true.
Proof.
  unfold Text.trim. rewrite trimEnd_nil.
  destruct (trimStart_suffix s) as (pre & Hs & Hp).
  rewrite Hs at 2. rewrite forallb_app, Hp. simpl. reflexivity.
Qed.

Lemma trimStart_In u s : In u (Text.trimStart s) -> In u s.
Proof.
  induction s as [|x s IH]; simpl; [tauto|].
  destruct (Text.isWhiteSpace x); simpl; tauto.
Qed.

Lemma trimEnd_In u s : In u (Text.trimEnd s) -> In u s.
Proof.
  induction s as [|x s IH]; simpl; [tauto|].
  destruct (Text.trimEnd s) as [|y t].
  - destruct (Text.isWhiteSpace x); simpl; tauto.
  - intros [H|H]; [now left | right; now apply IH].
Qed.

Lemma trim_In u s : In u (Text.trim s) -> In u s.
Proof. intros H. now apply trimStart_In, trimEnd_In. Qed.

Lemma slice0_220 s : Text.slice0 220 s = firstn 220 s.
Proof. reflexivity. Qed.

(** Blanking the line breaks changes white space into white space only. *)
Lemma blank_line_breaks_space u :
  Text.isWhiteSpace (blank_line_breaks u) = Text.isWhiteSpace u.
Proof.
  unfold blank_line_breaks.
  destruct (N.eqb_spec u 13) as [->|_]; [reflexivity|].
  destruct (N.eqb_spec u 10) as [->|_]; [reflexivity|].
  destruct (N.eqb_spec u 9) as [->|_]; reflexivity.
Qed.

Lemma blank_line_breaks_all_space s :
  forallb Text.isWhiteSpace (map blank_line_breaks s)
  = forallb Text.isWhiteSpace s.
Proof.
  induction s as [|u s IH]; simpl; [reflexivity|].
  now rewrite blank_line_breaks_space, IH.
Qed.

Lemma blank_line_breaks_not_break u :
  blank_line_breaks u <> 13%N /\ blank_line_breaks u <> 10%N
  /\ blank_line_breaks u <> 9%N.
Proof.
  unfold blank_line_breaks.
  destruct (N.eqb_spec u 13) as [->|?]; [repeat split; discriminate|].
  destruct (N.eqb_spec u 10) as [->|?]; [repeat split; discriminate|].
  destruct (N.eqb_spec u 9) as [->|?]; [repeat split; discriminate|].
  simpl. tauto.
Qed.

Lemma no_line_break_checked (l : list N) :
  forallb (fun u => negb ((u =? 13) || (u =? 10) || (u =? 9))%N) l = true ->
  Forall (fun u => ~ is_line_break u) l.
Proof.
  intros H. apply Forall_forall. intros u Hu. apply list_elem_of_In in Hu.
  rewrite forallb_forall in H. specialize (H u Hu).
  intros [ -> | [ -> | -> ] ]; discriminate.
Qed.

End UserAgentFacts.

(** C9, as the code has it. The sanitized user agent is never empty and
    never longer than 220 code units, and holds no carriage return, line
    feed or tab (each is replaced by a space; other control characters are
    kept); an absent input, and an input that is empty or only white space,
    give the default identifying string. *)
Theorem sanitizeUserAgent_output (input : option (list N)) :
  Route.sanitizeUserAgent input <> []
  /\ (length (Route.sanitizeUserAgent input) <= 220)%nat
  /\ Forall (fun u => ~ is_line_break u) (Route.sanitizeUserAgent input)
  /\ ((input = None
       \/ exists s, input = Some s /\ forallb Text.isWhiteSpace s = true) ->
      Route.sanitizeUserAgent input
      = Text.of_string Route.DEFAULT_USER_AGENT)
  /\ (forall s, input = Some s -> forallb Text.isWhiteSpace s = false ->
      Route.sanitizeUserAgent input
      = firstn 220 (Text.trim (map Route.blank_line_breaks s))).
Proof.
  assert (Hdefault :
    Text.of_string Route.DEFAULT_USER_AGENT <> []
    /\ (length (Text.of_string Route.DEFAULT_USER_AGENT) <= 220)%nat
    /\ Forall (fun u => ~ is_line_break u)
              (Text.of_string Route.DEFAULT_USER_AGENT)).
  { split; [discriminate|]. split; [vm_compute; lia|].
    apply no_line_break_checked. reflexivity. }
  destruct input as [s|]; simpl.
  2:{ destruct Hdefault as (? & ? & ?). repeat split; auto.
      intros s Hs. discriminate. }
  destruct (forallb Text.isWhiteSpace s) eqn:Hws.
  - (* empty or blank: the default *)
    assert (Hcond : (length s =? 0)%nat || (length (Text.trim s) =? 0)%nat = true).
    { apply orb_true_iff. right. apply Nat.eqb_eq.
      apply trim_nil in Hws. now rewrite Hws. }
    rewrite Hcond. destruct Hdefault as (? & ? & ?). repeat split; auto.
    intros s' Heq Hs'. injection Heq as <-. congruence.
  - assert (Hcond : (length s =? 0)%nat || (length (Text.trim s) =? 0)%nat = false).
    { apply orb_false_iff. split; apply Nat.eqb_neq.
      - destruct s; [discriminate | simpl; lia].
      - intros Hl. apply length_zero_iff_nil, trim_nil in Hl. congruence. }
    rewrite Hcond, slice0_220.
    assert (Hne : Text.trim (map Route.blank_line_breaks s) <> []).
    { intros Hnil. apply trim_nil in Hnil.
      rewrite blank_line_breaks_all_space in Hnil. congruence. }
    split; [|split; [|split; [|split]]].
    + intros Hf. apply Hne.
      destruct (Text.trim (map Route.blank_line_breaks s));
        [reflexivity | discriminate Hf].
    + apply firstn_le_length.
    + apply Forall_forall. intros u Hu.
      apply elem_of_take in Hu as (i & Hi & _).
      assert (Hin : u ∈ Text.trim (map Route.blank_line_breaks s))
        by (apply list_elem_of_lookup; eauto).
      apply list_elem_of_In, trim_In, in_map_iff in Hin.
      destruct Hin as (x & <- & _).
      pose proof (blank_line_breaks_not_break x). unfold is_line_break. tauto.
    + intros [Hnone|(s' & Hs' & Hall)]; [discriminate|].
      injection Hs' as <-. congruence.
    + intros s' Hs' _. now injection Hs' as <-.
Qed.

Lemma sanitizeUserAgent_witness :
  Route.sanitizeUserAgent (Some [32; 9]%N)
  = Text.of_string Route.DEFAULT_USER_AGENT.
Proof.
  apply (sanitizeUserAgent_output (Some [32; 9]%N)).
  right. exists [32; 9]%N. split; reflexivity.
Defined.

(** C9 as stated fails on the control characters other than CR, LF and
    TAB: an escape character (U+001B) inside the input is still there in
    the output. *)
Lemma sanitized_user_agent_keeps_escape :
  Route.sanitizeUserAgent (Some [77; 27; 68]%N) = [77; 27; 68]%N
  /\ Wording.is_control 27 = true
  /\ Exists (fun u => Wording.is_control u = true)
            (Route.sanitizeUserAgent (Some [77; 27; 68]%N)).
Proof.
  split; [reflexivity|]. split; [reflexivity|].
  apply Exists_cons_tl, Exists_cons_hd. reflexivity.
Qed.

(** *** Address classification *)

Section AddressFacts.
Import JS Security Wording.

Lemma below_256 (P : Z -> bool) :
  forallb P (map Z.of_nat (seq 0 256)) = true ->
  forall n, 0 <= n <= 255 -> P n = true.
Proof.
  intros H n Hn. rewrite forallb_forall in H. apply H.
  apply in_map_iff. exists (Z.to_nat n). split; [lia|].
  apply in_seq. lia.
Qed.

Lemma split_whole sep p :
  all_chars (not_char sep) p = true -> split sep p = [p].
Proof.
  induction p as [|c p IH]; simpl; [reflexivity|].
  unfold not_char at 1. rewrite andb_true_iff, negb_true_iff.
  intros [-> Hp]. now rewrite IH.
Qed.

Lemma split_app_cons sep p r :
  all_chars (not_char sep) p = true ->
  split sep (p +:+ String sep r) = p :: split sep r.
Proof.
  induction p as [|c p IH]; simpl.
  - intros _. now rewrite Ascii.eqb_refl.
  - unfold not_char at 1. rewrite andb_true_iff, negb_true_iff.
    intros [-> Hp]. now rewrite IH.
Qed.

Lemma split_app sep p r :
  all_chars (not_char sep) p = true ->
  split sep (p +:+ String sep EmptyString +:+ r) = p :: split sep r.
Proof. exact (split_app_cons sep p r). Qed.

Lemma octets_checked :
  forallb octet_checked (map Z.of_nat (seq 0 256)) = true.
Proof. vm_compute. reflexivity. Qed.

Lemma octet_facts n :
  0 <= n <= 255 ->
  all_chars (not_char ".") (octet n) = true
  /\ is_v4_segment (octet n) = true
  /\ digits_value 10 0 (octet n) = n
  /\ isNaN (Number (octet n)) = false
  /\ (forall k, In k [10; 127; 0; 169; 254; 172; 192; 168; 100] ->
      eq_int (Number (octet n)) k = (n =? k))
  /\ (forall k, In k [16; 64; 224] ->
      ge_int (Number (octet n)) k = (k <=? n))
  /\ (forall k, In k [31; 127] ->
      le_int (Number (octet n)) k = (n <=? k)).
Proof.
  intros Hn. pose proof (below_256 _ octets_checked n Hn) as H.
  unfold octet_checked in H.
  repeat (apply andb_true_iff in H as [H ?]).
  repeat split; try assumption.
  - now apply Z.eqb_eq.
  - now apply negb_true_iff.
  - intros k Hk. eapply forallb_forall in Hk; [|eassumption].
    now apply Bool.eqb_prop in Hk.
  - intros k Hk. eapply forallb_forall in Hk; [|eassumption].
    now apply Bool.eqb_prop in Hk.
  - intros k Hk. eapply forallb_forall in Hk; [|eassumption].
    now apply Bool.eqb_prop in Hk.
Qed.

Lemma split_dotted a b c d :
  0 <= a <= 255 -> 0 <= b <= 255 -> 0 <= c <= 255 -> 0 <= d <= 255 ->
  split "." (dotted a b c d) = [octet a; octet b; octet c; octet d].
Proof.
  intros Ha Hb Hc Hd. unfold dotted.
  rewrite (split_app "." (octet a)) by now apply octet_facts.
  rewrite (split_app "." (octet b)) by now apply octet_facts.
  rewrite (split_app "." (octet c)) by now apply octet_facts.
  rewrite split_whole by now apply octet_facts.
  reflexivity.
Qed.

(** On a dotted quad the classifier is the list of ranges. *)
Lemma isPrivateIPv4_dotted a b c d :
  0 <= a <= 255 -> 0 <= b <= 255 -> 0 <= c <= 255 -> 0 <= d <= 255 ->
  isPrivateIPv4 (dotted a b c d) = in_private_ranges a b.
Proof.
  intros Ha Hb Hc Hd. unfold isPrivateIPv4.
  rewrite split_dotted by assumption.
  destruct (octet_facts a Ha) as (_ & _ & _ & Na & Ea & Ga & _).
  destruct (octet_facts b Hb) as (_ & _ & _ & Nb & Eb & Gb & Lb).
  destruct (octet_facts c Hc) as (_ & _ & _ & Nc & _).
  destruct (octet_facts d Hd) as (_ & _ & _ & Nd & _).
  cbn [map length existsb Nat.eqb negb orb].
  rewrite Na, Nb, Nc, Nd. cbn [orb].
  rewrite !Ea, !Eb, !Ga, !Gb, !Lb by (simpl; tauto).
  unfold in_private_ranges.
  repeat (match goal with
          | |- context [Z.eqb ?x ?y] => destruct (Z.eqb x y)
          | |- context [Z.leb ?x ?y] => destruct (Z.leb x y)
          end; cbn [andb orb]; try reflexivity).
Qed.

Lemma isIPv4_dotted a b c d :
  0 <= a <= 255 -> 0 <= b <= 255 -> 0 <= c <= 255 -> 0 <= d <= 255 ->
  isIPv4 (dotted a b c d) = true.
Proof.
  intros Ha Hb Hc Hd. unfold isIPv4.
  rewrite split_dotted by assumption. cbn [length Nat.eqb forallb andb].
  destruct (octet_facts a Ha) as (_ & -> & _).
  destruct (octet_facts b Hb) as (_ & -> & _).
  destruct (octet_facts c Hc) as (_ & -> & _).
  destruct (octet_facts d Hd) as (_ & -> & _).
  reflexivity.
Qed.

End AddressFacts.

Section DottedQuads.
Import JS Security Wording.

Lemma split_not_nil sep s : split sep s <> [].
Proof.
  destruct s as [|c s]; simpl; [discriminate|].
  destruct (Ascii.eqb c sep); [discriminate|].
  destruct (split sep s); discriminate.
Qed.

Lemma join_split sep s : join sep (split sep s) = s.
Proof.
  induction s as [|c s IH]; [reflexivity|].
  simpl split. destruct (Ascii.eqb_spec c sep) as [->|Hne].
  - pose proof (split_not_nil sep s) as Hnn.
    destruct (split sep s) as [|h t] eqn:E; [congruence|].
    change (String sep (join sep (h :: t)) = String sep s). now rewrite IH.
  - pose proof (split_not_nil sep s) as Hnn.
    destruct (split sep s) as [|h t] eqn:E; [congruence|].
    destruct t as [|h' t].
    + simpl in *. now rewrite IH.
    + change (String c (join sep (h :: h' :: t)) = String c s).
      now rewrite IH.
Qed.

Lemma digit_is_digit_char c :
  is_digit c = true ->
  exists x, 0 <= x <= 9 /\ c = digit_char x /\ digit_value c = x.
Proof.
  intros H. exists (Z.of_N (code c) - 48).
  unfold digit_value. rewrite H.
  unfold is_digit, in_range in H.
  apply andb_true_iff in H as [H1 H2].
  apply N.leb_le in H1, H2.
  split; [lia|]. split; [|reflexivity].
  unfold digit_char.
  replace (Z.to_N (48 + (Z.of_N (code c) - 48))) with (code c) by lia.
  unfold code. now rewrite ascii_N_embedding.
Qed.

(** A segment accepted by net.isIP is the spelling of its octet. *)
Lemma segment_is_octet p :
  is_v4_segment p = true -> exists n, 0 <= n <= 255 /\ p = octet n.
Proof.
  destruct p as [|a [|b [|c [|? ?]]]]; try discriminate; cbn [is_v4_segment].
  - intros Ha. apply digit_is_digit_char in Ha as (x & Hx & -> & _).
    exists x. split; [lia|]. unfold octet.
    destruct (Z.ltb_spec x 10); [reflexivity | lia].
  - rewrite !andb_true_iff, negb_true_iff. intros [[Ha Hz] Hb].
    apply digit_is_digit_char in Ha as (x & Hx & -> & _).
    apply digit_is_digit_char in Hb as (y & Hy & -> & _).
    assert (x <> 0).
    { intros ->. now rewrite Ascii.eqb_refl in Hz. }
    exists (10 * x + y). split; [lia|]. unfold octet.
    destruct (Z.ltb_spec (10 * x + y) 10); [lia|].
    destruct (Z.ltb_spec (10 * x + y) 100); [|lia].
    replace ((10 * x + y) / 10) with x
      by (apply (Z.div_unique _ _ _ y); lia).
    replace ((10 * x + y) mod 10) with y
      by (apply (Z.mod_unique _ _ x); lia).
    reflexivity.
  - rewrite !andb_true_iff, negb_true_iff.
    intros [[[[Ha Hz] Hb] Hc] Hv].
    cbn [digits_value] in Hv.
    apply digit_is_digit_char in Ha as (x & Hx & -> & Vx).
    apply digit_is_digit_char in Hb as (y & Hy & -> & Vy).
    apply digit_is_digit_char in Hc as (z & Hzz & -> & Vz).
    rewrite Vx, Vy, Vz in Hv. apply Z.leb_le in Hv.
    assert (x <> 0).
    { intros ->. now rewrite Ascii.eqb_refl in Hz. }
    exists (100 * x + 10 * y + z). split; [lia|]. unfold octet.
    destruct (Z.ltb_spec (100 * x + 10 * y + z) 10); [lia|].
    destruct (Z.ltb_spec (100 * x + 10 * y + z) 100); [lia|].
    replace ((100 * x + 10 * y + z) / 100) with x
      by (apply (Z.div_unique _ _ _ (10 * y + z)); lia).
    replace ((100 * x + 10 * y + z) / 10) with (10 * x + y)
      by (apply (Z.div_unique _ _ _ z); lia).
    replace ((10 * x + y) mod 10) with y
      by (apply (Z.mod_unique _ _ x); lia).
    replace ((100 * x + 10 * y + z) mod 10) with z
      by (apply (Z.mod_unique _ _ (10 * x + y)); lia).
    reflexivity.
Qed.

(** The strings net.isIP takes for IPv4 addresses are the dotted quads. *)
Lemma isIPv4_iff s :
  isIPv4 s = true
  <-> exists a b c d,
        (0 <= a <= 255 /\ 0 <= b <= 255 /\ 0 <= c <= 255 /\ 0 <= d <= 255)
        /\ s = dotted a b c d.
Proof.
  split.
  - unfold isIPv4. rewrite andb_true_iff. intros [Hlen Hall].
    pose proof (join_split "." s) as Hj.
    destruct (split "." s) as [|p1 [|p2 [|p3 [|p4 [|? ?]]]]];
      try discriminate.
    cbn [forallb] in Hall. rewrite !andb_true_iff in Hall.
    destruct Hall as (H1 & H2 & H3 & H4 & _).
    apply segment_is_octet in H1 as (a & Ha & ->).
    apply segment_is_octet in H2 as (b & Hb & ->).
    apply segment_is_octet in H3 as (c & Hc & ->).
    apply segment_is_octet in H4 as (d & Hd & ->).
    exists a, b, c, d. split; [tauto|]. now rewrite <- Hj.
  - intros (a & b & c & d & (Ha & Hb & Hc & Hd) & ->).
    now apply isIPv4_dotted.
Qed.

End DottedQuads.

Section ClassifierFacts.
Import JS Security Wording.

Lemma in_private_ranges_iff a b :
  in_private_ranges a b = true
  <-> (a = 10 \/ a = 127 \/ a = 0
       \/ (a = 169 /\ b = 254)
       \/ (a = 172 /\ 16 <= b <= 31)
       \/ (a = 192 /\ b = 168)
       \/ (a = 100 /\ 64 <= b <= 127)
       \/ 224 <= a).
Proof.
  unfold in_private_ranges.
  rewrite !orb_true_iff, !andb_true_iff, !Z.eqb_eq, !Z.leb_le. lia.
Qed.

(** The guard of isPrivateIPv4: a wrong number of parts, or a part that
    [Number] does not read, is unsafe. *)
Lemma isPrivateIPv4_fail_closed s :
  length (split "." s) <> 4%nat
  \/ Exists (fun p => Number p = NaN) (split "." s) ->
  isPrivateIPv4 s = true.
Proof.
  intros H. unfold isPrivateIPv4.
  assert (Hg : negb (length (map Number (split "." s)) =? 4)%nat
               || existsb isNaN (map Number (split "." s)) = true).
  { apply orb_true_iff. rewrite length_map. destruct H as [H|H].
    - left. apply negb_true_iff, Nat.eqb_neq, H.
    - right. apply existsb_exists. apply Exists_exists in H as (p & Hp & Hn).
      exists (Number p). split; [|now rewrite Hn].
      apply in_map, list_elem_of_In, Hp. }
  now rewrite Hg.
Qed.

Lemma isIP_4_iff s : isIP s = 4 <-> isIPv4 s = true.
Proof.
  unfold isIP. destruct (isIPv4 s); [tauto|].
  destruct (isIPv6 s); split; discriminate.
Qed.

Lemma isPrivateIp_not_literal s : isIP s = 0 -> isPrivateIp s = true.
Proof. intros H. unfold isPrivateIp. now rewrite H. Qed.

End ClassifierFacts.

Section NumericOctets.
Import JS Security Wording.

Lemma octets_numeric :
  forallb (fun n => is_numeric_octet (octet n)) (map Z.of_nat (seq 0 256))
  = true.
Proof. vm_compute. reflexivity. Qed.

(** An IPv4 address string parses as four numeric octets. *)
Lemma isIPv4_numeric s : isIPv4 s = true -> four_numeric_octets s = true.
Proof.
  intros H. apply isIPv4_iff in H as (a & b & c & d & (Ha & Hb & Hc & Hd) & ->).
  unfold four_numeric_octets. rewrite split_dotted by assumption.
  cbn [length Nat.eqb forallb andb].
  rewrite !(below_256 _ octets_numeric) by assumption. reflexivity.
Qed.

Lemma isPrivateIp_v4 s : isIP s = 4 -> isPrivateIp s = isPrivateIPv4 s.
Proof. intros H. unfold isPrivateIp. now rewrite H. Qed.

End NumericOctets.

(** C3. The IPv4 address strings, those net.isIP takes for IPv4, are the
    dotted quads of four octets, and they are all isPrivateIPv4 is asked
    about. On every one of them isPrivateIPv4, and isPrivateIp with it,
    answers unsafe exactly in 10/8, 127/8, 0/8, 169.254/16, 172.16/12,
    192.168/16, 100.64/10 and for a first octet of 224 or more. A string
    that does not parse as four dot-separated numeric octets is no IPv4
    address string, and the classifier answers unsafe for it: isPrivateIp
    does, unless the string is an IPv6 literal, which has rules of its own;
    and isPrivateIPv4 itself answers unsafe for every string that does not
    split at the dots into exactly four parts or has a part that [Number]
    reads as NaN. *)
Theorem ipv4_addresses_are_classified_by_range :
  (forall s,
     JS.isIP s = 4
     <-> exists a b c d,
           (0 <= a <= 255 /\ 0 <= b <= 255 /\ 0 <= c <= 255 /\ 0 <= d <= 255)
           /\ s = Wording.dotted a b c d)
  /\ (forall a b c d,
        0 <= a <= 255 -> 0 <= b <= 255 -> 0 <= c <= 255 -> 0 <= d <= 255 ->
        (Security.isPrivateIPv4 (Wording.dotted a b c d) = true
         <-> (a = 10 \/ a = 127 \/ a = 0
              \/ (a = 169 /\ b = 254)
              \/ (a = 172 /\ 16 <= b <= 31)
              \/ (a = 192 /\ b = 168)
              \/ (a = 100 /\ 64 <= b <= 127)
              \/ 224 <= a))
        /\ Security.isPrivateIp (Wording.dotted a b c d)
           = Security.isPrivateIPv4 (Wording.dotted a b c d))
  /\ (forall s,
        Wording.four_numeric_octets s = false ->
        JS.isIP s <> 4
        /\ (JS.isIP s <> 6 -> Security.isPrivateIp s = true))
  /\ (forall s,
        length (JS.split "." s) <> 4%nat
        \/ Exists (fun p => JS.Number p = JS.NaN) (JS.split "." s) ->
        Security.isPrivateIPv4 s = true).
Proof.
  split; [|split; [|split]].
  - intros s. rewrite isIP_4_iff. apply isIPv4_iff.
  - intros a b c d Ha Hb Hc Hd. split.
    + rewrite isPrivateIPv4_dotted by assumption.
      apply in_private_ranges_iff.
    + apply isPrivateIp_v4, isIP_4_iff. now apply isIPv4_dotted.
  - intros s Hs.
    assert (H4 : JS.isIPv4 s = false).
    { destruct (JS.isIPv4 s) eqn:E; [|reflexivity].
      apply isIPv4_numeric in E. congruence. }
    split.
    + rewrite isIP_4_iff, H4. discriminate.
    + intros H6. apply isPrivateIp_not_literal.
      unfold JS.isIP in *. rewrite H4 in *.
      destruct (JS.isIPv6 s); [now elim H6 | reflexivity].
  - exact isPrivateIPv4_fail_closed.
Qed.

Lemma ipv4_addresses_witness :
  (Security.isPrivateIPv4 (Wording.dotted 172 20 1 2) = true
   /\ Security.isPrivateIp (Wording.dotted 172 20 1 2) = true)
  /\ (Security.isPrivateIPv4 (Wording.dotted 172 32 1 2) = true -> False)
  /\ Security.isPrivateIp "1.2.3" = true
  /\ Security.isPrivateIp "1.2.x.4" = true
  /\ Security.isPrivateIp "256.1.1.1" = true.
Proof.
  destruct ipv4_addresses_are_classified_by_range as (_ & Hr & Hn & _).
  destruct (Hr 172 20 1 2) as [Hin Hsame]; try lia.
  destruct (Hr 172 32 1 2) as [Hout _]; try lia.
  split; [|split; [|split; [|split]]].
  - split; [|rewrite Hsame]; apply Hin; lia.
  - intros H. apply Hout in H. lia.
  - apply (Hn "1.2.3"); [reflexivity | discriminate].
  - apply (Hn "1.2.x.4"); [reflexivity | discriminate].
  - apply (Hn "256.1.1.1"); [reflexivity | discriminate].
Defined.

(** The guard inside isPrivateIPv4 goes by what [Number] reads, for which an
    empty part is 0 and a part above 255 a number like another. Strings of
    that kind are no addresses for net.isIP: isPrivateIp answers unsafe for
    them without asking isPrivateIPv4. *)
Remark malformed_quads_never_reach_isPrivateIPv4 :
  (Security.isPrivateIPv4 "8..8.8" = false
   /\ JS.isIP "8..8.8" = 0 /\ Security.isPrivateIp "8..8.8" = true)
  /\ (Security.isPrivateIPv4 "200.999.1.1" = false
      /\ JS.isIP "200.999.1.1" = 0
      /\ Security.isPrivateIp "200.999.1.1" = true).
Proof. vm_compute. auto 10. Qed.

Section SuffixFacts.
Import JS.

Lemma length_append a b :
  String.length (a +:+ b) = (String.length a + String.length b)%nat.
Proof. induction a as [|c a IH]; simpl; [reflexivity | now rewrite IH]. Qed.

Lemma append_assoc_r a b c : (a +:+ b) +:+ c = a +:+ b +:+ c.
Proof. induction a as [|x a IH]; simpl; [reflexivity | now rewrite IH]. Qed.

Lemma drop_append a b : drop (String.length a) (a +:+ b) = b.
Proof. induction a as [|c a IH]; simpl; [now destruct b | exact IH]. Qed.

Lemma drop_suffix n s : exists pre, s = pre +:+ drop n s.
Proof.
  revert s. induction n as [|n IH]; intros s.
  - exists EmptyString. now destruct s.
  - destruct s as [|c s]; [now exists EmptyString|].
    destruct (IH s) as [pre Hpre]. exists (String c pre).
    simpl. now rewrite <- Hpre.
Qed.

(** [endsWith] is the suffix relation. *)
Lemma endsWith_iff s p :
  endsWith s p = true <-> exists pre, s = pre +:+ p.
Proof.
  unfold endsWith. rewrite andb_true_iff, Nat.leb_le, String.eqb_eq. split.
  - intros [_ H]. destruct (drop_suffix (String.length s - String.length p) s)
      as [pre Hpre]. exists pre. now rewrite <- H.
  - intros [pre ->]. rewrite length_append. split; [lia|].
    replace (String.length pre + String.length p - String.length p)%nat
      with (String.length pre) by lia.
    apply drop_append.
Qed.

End SuffixFacts.

Section TargetFacts.
Import JS Security Wording.

Lemma octets_plain : forallb octet_plain (map Z.of_nat (seq 0 256)) = true.
Proof. vm_compute. reflexivity. Qed.

Lemma all_chars_app p a b :
  all_chars p (a +:+ b) = all_chars p a && all_chars p b.
Proof.
  induction a as [|c a IH]; simpl; [reflexivity|].
  now rewrite IH, andb_assoc.
Qed.

Lemma dotted_plain a b c d :
  0 <= a <= 255 -> 0 <= b <= 255 -> 0 <= c <= 255 -> 0 <= d <= 255 ->
  all_chars (not_char ":") (dotted a b c d) = true
  /\ all_chars (not_char "%") (dotted a b c d) = true.
Proof.
  intros Ha Hb Hc Hd.
  pose proof (below_256 _ octets_plain a Ha) as Pa.
  pose proof (below_256 _ octets_plain b Hb) as Pb.
  pose proof (below_256 _ octets_plain c Hc) as Pc.
  pose proof (below_256 _ octets_plain d Hd) as Pd.
  unfold octet_plain in *.
  apply andb_true_iff in Pa as [? ?], Pb as [? ?], Pc as [? ?], Pd as [? ?].
  unfold dotted. rewrite !all_chars_app.
  split; repeat (apply andb_true_iff; split); auto.
Qed.

(** [::ffff:] before a dotted quad is an IPv6 literal for net.isIP... *)
Lemma isIP_mapped a b c d :
  0 <= a <= 255 -> 0 <= b <= 255 -> 0 <= c <= 255 -> 0 <= d <= 255 ->
  isIP ("::ffff:" +:+ dotted a b c d) = 6.
Proof.
  intros Ha Hb Hc Hd.
  destruct (dotted_plain a b c d Ha Hb Hc Hd) as [Hcolon Hpct].
  assert (H4 : isIPv4 ("::ffff:" +:+ dotted a b c d) = false).
  { unfold isIPv4. cbn [String.append split Ascii.eqb Bool.eqb].
    rewrite split_dotted by assumption. reflexivity. }
  assert (H6 : isIPv6 ("::ffff:" +:+ dotted a b c d) = true).
  { unfold isIPv6.
    rewrite (split_whole "%") by (rewrite all_chars_app, Hpct; reflexivity).
    cbn [String.append cut_double_colon andb groups_of].
    cbn [split Ascii.eqb Bool.eqb]. rewrite (split_whole ":") by exact Hcolon.
    cbn [count_groups]. change (is_v6_segment "ffff") with true. cbv iota.
    rewrite isIPv4_dotted by assumption.
    destruct (is_v6_segment (dotted a b c d)); reflexivity. }
  unfold isIP. now rewrite H4, H6.
Qed.

(** ... and is classified by the quad. *)
Lemma isPrivateIp_mapped a b c d :
  0 <= a <= 255 -> 0 <= b <= 255 -> 0 <= c <= 255 -> 0 <= d <= 255 ->
  isPrivateIp ("::ffff:" +:+ dotted a b c d) = in_private_ranges a b.
Proof.
  intros Ha Hb Hc Hd. unfold isPrivateIp.
  rewrite isIP_mapped by assumption.
  change (6 =? 4) with false. change (6 =? 6) with true. cbv iota.
  assert (Hs : startsWith ("::ffff:" +:+ dotted a b c d) "::ffff:" = true).
  { apply startsWith_iff. now exists (dotted a b c d). }
  assert (Hr : replace ("::ffff:" +:+ dotted a b c d) "::ffff:" EmptyString
               = dotted a b c d).
  { destruct (dotted a b c d); reflexivity. }
  rewrite Hs, Hr.
  replace (isIP (dotted a b c d)) with 4
    by (symmetry; apply isIP_4_iff; now apply isIPv4_dotted).
  cbn [andb Z.eqb Pos.eqb]. now apply isPrivateIPv4_dotted.
Qed.

Lemma isPrivateIp_quad a b c d :
  0 <= a <= 255 -> 0 <= b <= 255 -> 0 <= c <= 255 -> 0 <= d <= 255 ->
  isPrivateIp (dotted a b c d) = in_private_ranges a b.
Proof.
  intros Ha Hb Hc Hd. unfold isPrivateIp.
  replace (isIP (dotted a b c d)) with 4
    by (symmetry; apply isIP_4_iff; now apply isIPv4_dotted).
  cbn [Z.eqb Pos.eqb]. now apply isPrivateIPv4_dotted.
Qed.

Lemma check_records_throws records :
  Exists (fun r => isPrivateIp (address r) = true) records ->
  check_records records = Throw RESOLVED_PRIVATE.
Proof.
  induction records as [|r rest IH]; intros H; [inversion H|]. simpl.
  destruct (isPrivateIp (address r)) eqn:E; [reflexivity|].
  apply IH. inversion H; subst; [congruence | assumption].
Qed.

Lemma check_records_returns records :
  check_records records = Return tt
  <-> Forall (fun r => isPrivateIp (address r) = false) records.
Proof.
  induction records as [|r rest IH]; simpl.
  - split; [constructor | reflexivity].
  - destruct (isPrivateIp (address r)) eqn:E.
    + split; [discriminate|]. intros H. inversion H; congruence.
    + rewrite IH. split; [now constructor | intros H; now inversion H].
Qed.

Lemma assertSafeTarget_local url :
  local_name (toLowerCase (hostname url)) = true ->
  assertSafeTarget url = Settled (Throw LOCAL_BLOCKED).
Proof.
  intros H. unfold assertSafeTarget. unfold local_name in H. now rewrite H.
Qed.

Lemma assertSafeTarget_literal url :
  local_name (toLowerCase (hostname url)) = false ->
  isIP (toLowerCase (hostname url)) <> 0 ->
  assertSafeTarget url
  = Settled (if isPrivateIp (toLowerCase (hostname url))
             then Throw PRIVATE_IP_BLOCKED else Return tt).
Proof.
  intros Hl Hip. unfold assertSafeTarget. unfold local_name in Hl.
  rewrite Hl. apply Z.eqb_neq in Hip. rewrite Hip. simpl.
  now destruct (isPrivateIp _).
Qed.

Lemma assertSafeTarget_name url :
  local_name (toLowerCase (hostname url)) = false ->
  isIP (toLowerCase (hostname url)) = 0 ->
  assertSafeTarget url
  = AwaitLookup (toLowerCase (hostname url)) (fun answer =>
      match answer with
      | Throw e => Settled (Throw e)
      | Return records =>
          if (length records =? 0)%nat then Settled (Throw RESOLUTION_FAILED)
          else Settled (check_records records)
      end).
Proof.
  intros Hl Hip. unfold assertSafeTarget. unfold local_name in Hl.
  now rewrite Hl, Hip.
Qed.

(** A dotted quad is made of digits and dots: lower-casing leaves it as it
    is, and it is no local name. *)
Lemma quad_char_lower s : all_chars quad_char s = true -> toLowerCase s = s.
Proof.
  induction s as [|c s IH]; [reflexivity|]. cbn [all_chars toLowerCase].
  intros H. apply andb_true_iff in H as [Hc Hs]. rewrite (IH Hs). f_equal.
  unfold quad_char in Hc. apply orb_true_iff in Hc as [Hc|Hc].
  - destruct c as [[] [] [] [] [] [] [] []]; try discriminate Hc; reflexivity.
  - apply Ascii.eqb_eq in Hc. now subst c.
Qed.

Lemma octet_quad_chars n :
  0 <= n <= 255 -> all_chars quad_char (octet n) = true.
Proof.
  apply (below_256 (fun n => all_chars quad_char (octet n))).
  vm_compute. reflexivity.
Qed.

Lemma dotted_quad_chars a b c d :
  0 <= a <= 255 -> 0 <= b <= 255 -> 0 <= c <= 255 -> 0 <= d <= 255 ->
  all_chars quad_char (dotted a b c d) = true.
Proof.
  intros Ha Hb Hc Hd. unfold dotted. rewrite !all_chars_app.
  rewrite !octet_quad_chars by assumption. reflexivity.
Qed.

Lemma quad_chars_not_local s :
  all_chars quad_char s = true -> local_name s = false.
Proof.
  intros H. unfold local_name. apply orb_false_iff. split.
  - destruct (String.eqb_spec s "localhost") as [->|_];
      [discriminate H | reflexivity].
  - destruct (endsWith s ".local") eqn:E; [|reflexivity].
    apply endsWith_iff in E as [pre ->].
    rewrite all_chars_app in H. apply andb_true_iff in H as [_ H].
    discriminate H.
Qed.

End TargetFacts.

Section TargetTheorems.
Import JS Security Wording.

Lemma lower_char_idempotent c : lower_char (lower_char c) = lower_char c.
Proof. destruct c as [[] [] [] [] [] [] [] []]; reflexivity. Qed.

Lemma toLowerCase_idempotent s : toLowerCase (toLowerCase s) = toLowerCase s.
Proof.
  induction s as [|c s IH]; simpl; [reflexivity|].
  now rewrite lower_char_idempotent, IH.
Qed.

(** An address the textual IPv6 test flags is unsafe for isPrivateIp. *)
Lemma isPrivateIp_v6_flagged ip :
  isIP ip = 6 -> isPrivateIPv6 ip = true -> isPrivateIp ip = true.
Proof.
  intros H6 Hp. unfold isPrivateIp. rewrite H6.
  change (6 =? 4) with false. change (6 =? 6) with true. cbv iota.
  destruct (startsWith ip "::ffff:") eqn:Hs; [|exact Hp].
  apply startsWith_iff in Hs as [post ->].
  unfold isPrivateIPv6 in Hp. rewrite toLowerCase_app in Hp.
  discriminate Hp.
Qed.

End TargetTheorems.

(** C1. For a host name that is not an IP literal, whatever the resolver
    answers: when the answer holds at least one address classified private
    (by isPrivateIp), assertSafeTarget fails, with the private-network error
    once the name has passed the localhost and .local test (which fails on
    its own, before any lookup); when the answer holds no record it fails,
    with the resolution error; and it returns normally only when the
    resolver gave at least one record and every record is classified
    safe. *)
Theorem resolved_names_no_partial_trust
    (url : Security.URL) (dns : string -> result (list LookupAddress)) :
  let host := JS.toLowerCase (Security.hostname url) in
  JS.isIP host = 0 ->
  (forall records,
     dns host = Return records ->
     Exists (fun r => Security.isPrivateIp (address r) = true) records ->
     is_failure (snd (run dns (Security.assertSafeTarget url))) = true
     /\ (local_name host = false ->
         run dns (Security.assertSafeTarget url)
         = ([host], Throw Security.RESOLVED_PRIVATE)))
  /\ (dns host = Return [] ->
      is_failure (snd (run dns (Security.assertSafeTarget url))) = true
      /\ (local_name host = false ->
          run dns (Security.assertSafeTarget url)
          = ([host], Throw Security.RESOLUTION_FAILED)))
  /\ (snd (run dns (Security.assertSafeTarget url)) = Return tt ->
      exists records,
        dns host = Return records /\ records <> []
        /\ Forall (fun r => Security.isPrivateIp (address r) = false)
                  records).
Proof.
  intros host Hip.
  destruct (local_name host) eqn:Hl.
  - rewrite (assertSafeTarget_local url Hl). simpl.
    repeat split; try discriminate.
  - rewrite (assertSafeTarget_name url Hl Hip). fold host. simpl.
    split; [|split].
    + intros records Hd Hex. rewrite Hd.
      destruct records as [|r rest]; [inversion Hex|]. simpl length.
      cbn [Nat.eqb]. rewrite (check_records_throws _ Hex). simpl. auto.
    + intros Hd. rewrite Hd. simpl. auto.
    + destruct (dns host) as [records|e]; simpl; [|discriminate].
      destruct records as [|r rest]; simpl length; cbn [Nat.eqb];
        [discriminate|].
      cbn [run snd]. intros Hr. exists (r :: rest).
      split; [reflexivity|]. split; [discriminate|].
      now apply check_records_returns.
Qed.

Lemma resolved_names_no_partial_trust_witness :
  run (fun _ => Return [ {| address := "93.184.216.34"; family := 4 |};
                         {| address := "10.0.0.5"; family := 4 |} ])
      (Security.assertSafeTarget
         {| Security.protocol := "https:"; Security.username := EmptyString;
            Security.password := EmptyString; Security.hostname := "Example.COM" |})
  = (["example.com"], Throw Security.RESOLVED_PRIVATE).
Proof.
  eapply (resolved_names_no_partial_trust
            {| Security.protocol := "https:"; Security.username := EmptyString;
               Security.password := EmptyString; Security.hostname := "Example.COM" |}).
  - reflexivity.
  - reflexivity.
  - apply Exists_cons_tl, Exists_cons_hd. reflexivity.
  - reflexivity.
Defined.

Section BracketedHosts.
Import JS Security Wording.

Lemma split_first sep c s :
  Ascii.eqb c sep = false ->
  exists h rest, split sep (String c s) = String c h :: rest.
Proof.
  intros H. cbn [split]. rewrite H.
  destruct (split sep s) as [|h rest]; eauto.
Qed.

Lemma is_v4_segment_bracket x : is_v4_segment (String "[" x) = false.
Proof. now destruct x as [|b [|c [|d e]]]. Qed.

Lemma isIPv4_bracket t : isIPv4 (String "[" t) = false.
Proof.
  unfold isIPv4.
  destruct (split_first "." "[" t eq_refl) as (h & rest & ->).
  cbn [forallb]. now rewrite is_v4_segment_bracket, andb_false_r.
Qed.

Lemma is_v6_segment_bracket x : is_v6_segment (String "[" x) = false.
Proof.
  unfold is_v6_segment. cbn [all_chars].
  change (is_hex_digit "[") with false. now rewrite andb_false_r.
Qed.

Lemma count_groups_bracket v4_last x rest :
  count_groups v4_last (String "[" x :: rest) = None.
Proof.
  destruct rest as [|p rest]; cbn [count_groups];
    rewrite is_v6_segment_bracket; [|reflexivity].
  now rewrite isIPv4_bracket, andb_false_r.
Qed.

Lemma groups_of_bracket v4_last t : groups_of v4_last (String "[" t) = None.
Proof.
  unfold groups_of.
  destruct (split_first ":" "[" t eq_refl) as (h & rest & ->).
  apply count_groups_bracket.
Qed.

Lemma isIPv6_bracket t : isIPv6 (String "[" t) = false.
Proof.
  unfold isIPv6.
  destruct (split_first "%" "[" t eq_refl) as (h & rest & ->).
  assert (H : match cut_double_colon (String "[" h) with
              | None =>
                  match groups_of true (String "[" h) with
                  | Some 8%nat => negb (String.eqb (String "[" h) EmptyString)
                  | _ => false
                  end
              | Some (l, r) =>
                  match groups_of false l, groups_of true r with
                  | Some k, Some j => (k + j <=? 7)%nat
                  | _, _ => false
                  end
              end = false).
  { change (cut_double_colon (String "[" h))
      with (match cut_double_colon h with
            | Some (a, b) => Some (String "[" a, b)
            | None => None
            end).
    destruct (cut_double_colon h) as [[a b]|];
      now rewrite groups_of_bracket. }
  destruct rest as [|z more]; rewrite H; apply andb_false_r.
Qed.

(** net.isIP takes no string that begins with a bracket. *)
Lemma isIP_bracket t : isIP (String "[" t) = 0.
Proof. unfold isIP. now rewrite isIPv4_bracket, isIPv6_bracket. Qed.

Lemma append_last_char a b c d :
  a +:+ String c EmptyString = b +:+ String d EmptyString -> c = d.
Proof.
  revert b. induction a as [|x a IH]; intros [|y b]; cbn [String.append].
  - now intros [= ->].
  - destruct b; discriminate.
  - destruct a; discriminate.
  - intros [= _ H]. exact (IH b H).
Qed.

(** A host name between brackets is no local name. *)
Lemma bracketed_not_local t : local_name (String "[" (t +:+ "]")) = false.
Proof.
  unfold local_name. cbn [String.eqb Ascii.eqb Bool.eqb andb orb].
  destruct (endsWith (String "[" (t +:+ "]")) ".local") eqn:E; [|reflexivity].
  apply endsWith_iff in E as [pre E].
  change (String "[" (t +:+ "]")) with (String "[" t +:+ "]") in E.
  change ".local" with (".loca" +:+ "l") in E.
  rewrite <- append_assoc_r in E. apply append_last_char in E.
  discriminate E.
Qed.

End BracketedHosts.

(** C2. A host written as a dotted quad is classified as the claim says:
    with no lookup, and refused exactly in the private ranges. An IPv6
    literal is not. The hostname of a parsed URL writes an IPv6 host between
    brackets, net.isIP takes no string that begins with a bracket, and so
    assertSafeTarget hands the bracketed text to the resolver like a name:
    the outcome is the resolver's, its error when it rejects, and
    acceptance when it answers with public addresses. Loopback ([::1]), an
    IPv4-mapped literal carrying 10.0.0.1 ([::ffff:a00:1]) and a unique
    local address ([fd00::1]) are accepted that way, and a rejecting
    resolver refuses a public literal as it refuses [::1]. *)
Theorem ipv6_literal_targets_are_looked_up :
  (forall url a b c d dns,
     0 <= a <= 255 -> 0 <= b <= 255 -> 0 <= c <= 255 -> 0 <= d <= 255 ->
     Security.hostname url = Wording.dotted a b c d ->
     run dns (Security.assertSafeTarget url)
     = ([], if Wording.in_private_ranges a b
            then Throw Security.PRIVATE_IP_BLOCKED else Return tt))
  /\ (forall t, JS.isIP (String "[" t) = 0)
  /\ (forall url t dns,
        JS.toLowerCase (Security.hostname url) = String "[" (t +:+ "]") ->
        run dns (Security.assertSafeTarget url)
        = ([String "[" (t +:+ "]")],
           match dns (String "[" (t +:+ "]")) with
           | Throw e => Throw e
           | Return records =>
               if (length records =? 0)%nat
               then Throw Security.RESOLUTION_FAILED
               else Security.check_records records
           end))
  /\ (let target h :=
        {| Security.protocol := "http:"; Security.username := EmptyString;
           Security.password := EmptyString; Security.hostname := h |} in
      let answering : string -> result (list LookupAddress) :=
        fun _ => Return [ {| address := "93.184.216.34"; family := 4 |} ] in
      let rejecting : string -> result (list LookupAddress) :=
        fun h => Throw ("getaddrinfo ENOTFOUND " +:+ h) in
      (Wording.in_private_ranges_v6 "::1" = true
       /\ run answering (Security.assertSafeTarget (target "[::1]"))
          = (["[::1]"], Return tt))
      /\ (Wording.embedded_ipv4 "::ffff:a00:1" = Some (10, 0, 0, 1)
          /\ Wording.in_private_ranges 10 0 = true
          /\ run answering
               (Security.assertSafeTarget (target "[::ffff:a00:1]"))
             = (["[::ffff:a00:1]"], Return tt))
      /\ (Wording.in_private_ranges_v6 "fd00::1" = true
          /\ run answering (Security.assertSafeTarget (target "[fd00::1]"))
             = (["[fd00::1]"], Return tt))
      /\ run rejecting (Security.assertSafeTarget (target "[::1]"))
         = (["[::1]"], Throw "getaddrinfo ENOTFOUND [::1]")
      /\ (Wording.in_private_ranges_v6 "2606:4700:4700::1111" = false
          /\ run rejecting
               (Security.assertSafeTarget (target "[2606:4700:4700::1111]"))
             = (["[2606:4700:4700::1111]"],
                Throw "getaddrinfo ENOTFOUND [2606:4700:4700::1111]"))).
Proof.
  split; [|split; [|split]].
  - intros url a b c d dns Ha Hb Hc Hd Hhost.
    pose proof (dotted_quad_chars a b c d Ha Hb Hc Hd) as Hq.
    assert (Hlow : JS.toLowerCase (Security.hostname url)
                   = Wording.dotted a b c d).
    { rewrite Hhost. now apply quad_char_lower. }
    assert (Hl : local_name (JS.toLowerCase (Security.hostname url)) = false).
    { rewrite Hlow. now apply quad_chars_not_local. }
    assert (Hip : JS.isIP (JS.toLowerCase (Security.hostname url)) <> 0).
    { rewrite Hlow.
      rewrite (proj2 (isIP_4_iff _) (isIPv4_dotted a b c d Ha Hb Hc Hd)).
      discriminate. }
    rewrite (assertSafeTarget_literal url Hl Hip), Hlow.
    rewrite (isPrivateIp_quad a b c d Ha Hb Hc Hd). reflexivity.
  - exact isIP_bracket.
  - intros url t dns Hhost.
    assert (Hl : local_name (JS.toLowerCase (Security.hostname url)) = false).
    { rewrite Hhost. apply bracketed_not_local. }
    assert (Hip : JS.isIP (JS.toLowerCase (Security.hostname url)) = 0).
    { rewrite Hhost. apply isIP_bracket. }
    rewrite (assertSafeTarget_name url Hl Hip), Hhost. cbn [run].
    destruct (dns _) as [records|e]; [|reflexivity].
    now destruct (length records =? 0)%nat.
  - vm_compute. auto 20.
Qed.

(** *** The limited reader *)

Section DecoderFacts.
Import TextDecoder.

Lemma with_bom_same st : with_bom st (bom_seen st) = st.
Proof. now destruct st. Qed.

Lemma lead_byte_bom st b seen :
  lead_byte (with_bom st seen) b
  = (with_bom (fst (lead_byte st b)) seen, snd (lead_byte st b)).
Proof.
  unfold lead_byte.
  repeat match goal with
         | |- context [if ?c then _ else _] => destruct c
         end; reflexivity.
Qed.

(** The handler neither reads nor writes the flag of the serializer. *)
Lemma handler_bom st b seen :
  handler (with_bom st seen) b
  = (with_bom (fst (handler st b)) seen, snd (handler st b)).
Proof.
  unfold handler. cbn [bytes_needed lower_boundary upper_boundary
                       code_point bytes_seen with_bom].
  destruct (bytes_needed st =? 0)%N; [apply lead_byte_bom|].
  destruct ((b <? lower_boundary st) || (upper_boundary st <? b))%N.
  - change (rest_state (with_bom st seen))
      with (with_bom (rest_state st) seen).
    rewrite lead_byte_bom. now destruct (lead_byte (rest_state st) b).
  - destruct (bytes_seen st + 1 =? bytes_needed st)%N; reflexivity.
Qed.

Lemma feed_bom st bytes seen :
  feed (with_bom st seen) bytes
  = (with_bom (fst (feed st bytes)) seen, snd (feed st bytes)).
Proof.
  revert st. induction bytes as [|b r IH]; intros st; [reflexivity|].
  cbn [feed]. rewrite handler_bom.
  destruct (handler st (Byte.to_N b)) as [st1 out1]. cbn [fst snd].
  rewrite IH. now destruct (feed st1 r).
Qed.

Lemma feed_bom_seen st bytes : bom_seen (fst (feed st bytes)) = bom_seen st.
Proof.
  rewrite <- (with_bom_same st) at 1. rewrite feed_bom. reflexivity.
Qed.

Lemma feed_app st a b :
  feed st (a ++ b)
  = (fst (feed (fst (feed st a)) b),
     snd (feed st a) ++ snd (feed (fst (feed st a)) b)).
Proof.
  revert st. induction a as [|x a IH]; intros st.
  - cbn [app feed fst snd]. now destruct (feed st b).
  - cbn [app feed]. destruct (handler st (Byte.to_N x)) as [st1 out1].
    rewrite IH. destruct (feed st1 a) as [st2 out2]. cbn [fst snd].
    destruct (feed st2 b). cbn [fst snd]. now rewrite app_assoc.
Qed.

Lemma serialize_flag seen cps :
  fst (serialize seen cps) = match cps with [] => seen | _ => true end.
Proof.
  revert seen. induction cps as [|cp r IH]; intros seen; [reflexivity|].
  cbn [serialize]. specialize (IH true).
  destruct (serialize true r) as [s o]. cbn [fst] in *.
  rewrite IH. now destruct r.
Qed.

Lemma serialize_app seen c1 c2 :
  serialize seen (c1 ++ c2)
  = (fst (serialize (fst (serialize seen c1)) c2),
     snd (serialize seen c1) ++ snd (serialize (fst (serialize seen c1)) c2)).
Proof.
  revert seen. induction c1 as [|cp r IH]; intros seen.
  - cbn [app serialize fst snd]. now destruct (serialize seen c2).
  - cbn [app serialize]. rewrite IH.
    destruct (serialize true r) as [s1 o1]. cbn [fst snd].
    destruct (serialize s1 c2) as [s2 o2]. cbn [fst snd].
    destruct (negb seen && (cp =? 65279)%N); [reflexivity|].
    now rewrite app_assoc.
Qed.

(** Once the flag is set the serializer writes every code point. *)
Lemma serialize_started cps :
  snd (serialize true cps) = [] -> cps = [].
Proof.
  destruct cps as [|cp r]; [reflexivity|]. cbn [serialize].
  destruct (serialize true r) as [s o]. cbn [snd negb andb].
  unfold code_units. destruct (cp <? 65536)%N; discriminate.
Qed.

Lemma decode_stream_eq st value :
  decode_stream st value
  = (with_bom (fst (feed st value))
              (fst (serialize (bom_seen st) (snd (feed st value)))),
     snd (serialize (bom_seen st) (snd (feed st value)))).
Proof.
  unfold decode_stream. pose proof (feed_bom_seen st value) as Hb.
  destruct (feed st value) as [st1 cps]. cbn [fst snd] in *. rewrite Hb.
  now destruct (serialize (bom_seen st) cps).
Qed.

(** Decoding in two pieces is decoding the whole. *)
Lemma decode_stream_app st a b :
  decode_stream st (a ++ b)
  = (fst (decode_stream (fst (decode_stream st a)) b),
     snd (decode_stream st a) ++ snd (decode_stream (fst (decode_stream st a)) b)).
Proof.
  rewrite !decode_stream_eq. cbn [fst snd bom_seen with_bom].
  rewrite feed_app. cbn [fst snd]. rewrite serialize_app, !feed_bom.
  cbn [fst snd]. reflexivity.
Qed.

Lemma decode_stream_nil st : decode_stream st [] = (st, []).
Proof. rewrite decode_stream_eq. cbn. now rewrite with_bom_same. Qed.

Lemma decode_chunks_concat st chunks :
  decode_chunks st chunks = decode_stream st (concat chunks).
Proof.
  revert st. induction chunks as [|v rest IH]; intros st.
  - cbn [decode_chunks concat]. now rewrite decode_stream_nil.
  - cbn [decode_chunks concat]. rewrite decode_stream_app.
    destruct (decode_stream st v) as [st1 o1]. cbn [fst snd].
    rewrite IH. now destruct (decode_stream st1 (concat rest)).
Qed.

Lemma decode_all_chunks chunks :
  decode_all (concat chunks)
  = snd (decode_chunks initial chunks)
      ++ decode_end (fst (decode_chunks initial chunks)).
Proof.
  unfold decode_all. rewrite decode_chunks_concat.
  now destruct (decode_stream initial (concat chunks)).
Qed.

End DecoderFacts.

Section DecoderOpenSequence.
Import TextDecoder.

Lemma decode_end_nil st : decode_end st = [] <-> bytes_needed st = 0%N.
Proof.
  unfold decode_end. destruct (N.eqb_spec (bytes_needed st) 0) as [E|E].
  - tauto.
  - split; [|tauto]. destruct (bom_seen st); discriminate.
Qed.

Lemma decode_end_length st : (length (decode_end st) <= 1)%nat.
Proof.
  unfold decode_end. destruct (bytes_needed st =? 0)%N; [simpl; lia|].
  destruct (bom_seen st); simpl; lia.
Qed.

(** A byte read inside a sequence gives a code point out (the character, or
    U+FFFD) or leaves the sequence open. *)
Lemma handler_open st b :
  open_sequence st -> snd (handler st b) = [] ->
  open_sequence (fst (handler st b)).
Proof.
  unfold open_sequence, handler. intros Hopen.
  destruct (N.eqb_spec (bytes_needed st) 0) as [E|_]; [contradiction|].
  destruct ((b <? lower_boundary st) || (upper_boundary st <? b))%N.
  - destruct (lead_byte (rest_state st) b). discriminate.
  - destruct (bytes_seen st + 1 =? bytes_needed st)%N; [discriminate|].
    intros _. exact Hopen.
Qed.

Lemma feed_open st bytes :
  open_sequence st -> snd (feed st bytes) = [] ->
  open_sequence (fst (feed st bytes)).
Proof.
  revert st. induction bytes as [|b r IH]; intros st Hopen; [auto|].
  cbn [feed]. pose proof (handler_open st (Byte.to_N b) Hopen) as Hh.
  destruct (handler st (Byte.to_N b)) as [st1 out1]. cbn [fst snd] in Hh.
  specialize (IH st1). destruct (feed st1 r) as [st2 out2].
  cbn [fst snd] in *. intros Hnil. apply app_eq_nil in Hnil as [H1 H2].
  auto.
Qed.

Lemma decode_stream_flag st value :
  bom_seen (fst (decode_stream st value)) = true
  <-> bom_seen st = true \/ snd (feed st value) <> [].
Proof.
  rewrite decode_stream_eq. cbn [fst bom_seen with_bom].
  rewrite serialize_flag. destruct (snd (feed st value)).
  - split; [auto|]. intros [H|H]; [exact H | congruence].
  - split; [right; discriminate | reflexivity].
Qed.

Lemma decode_stream_output st value :
  snd (decode_stream st value) <> [] -> snd (feed st value) <> [].
Proof.
  rewrite decode_stream_eq. cbn [snd]. intros H E. rewrite E in H.
  now apply H.
Qed.

Lemma decode_stream_open st value :
  bom_seen st = true -> open_sequence st ->
  snd (decode_stream st value) = [] ->
  open_sequence (fst (decode_stream st value)).
Proof.
  intros Hb Hopen. rewrite decode_stream_eq. cbn [fst snd]. rewrite Hb.
  intros Hnil. apply serialize_started in Hnil.
  unfold open_sequence. cbn [bytes_needed with_bom].
  now apply feed_open.
Qed.

Lemma decode_chunks_flag st chunks :
  bom_seen st = true -> bom_seen (fst (decode_chunks st chunks)) = true.
Proof.
  revert st. induction chunks as [|v rest IH]; intros st Hb; [exact Hb|].
  cbn [decode_chunks].
  assert (H1 : bom_seen (fst (decode_stream st v)) = true)
    by (apply decode_stream_flag; auto).
  destruct (decode_stream st v) as [st1 o1]. cbn [fst] in H1.
  specialize (IH st1 H1). now destruct (decode_chunks st1 rest).
Qed.

Lemma decode_chunks_output_flag st chunks :
  snd (decode_chunks st chunks) <> [] ->
  bom_seen (fst (decode_chunks st chunks)) = true.
Proof.
  revert st. induction chunks as [|v rest IH]; intros st; [now cbn|].
  cbn [decode_chunks].
  pose proof (decode_stream_flag st v) as Hf.
  pose proof (decode_stream_output st v) as Ho.
  destruct (decode_stream st v) as [st1 o1]. cbn [fst snd] in Hf, Ho.
  pose proof (decode_chunks_flag st1 rest) as Hk. specialize (IH st1).
  destruct (decode_chunks st1 rest) as [st2 o2]. cbn [fst snd] in *.
  intros Hne. destruct o1 as [|u o1].
  - apply IH. exact Hne.
  - apply Hk, Hf. right. apply Ho. discriminate.
Qed.

(** Chunks that add no text to an open sequence leave it open. *)
Lemma decode_chunks_open st chunks :
  bom_seen st = true -> open_sequence st ->
  snd (decode_chunks st chunks) = [] ->
  open_sequence (fst (decode_chunks st chunks)).
Proof.
  revert st. induction chunks as [|v rest IH]; intros st Hb Hopen; [auto|].
  cbn [decode_chunks].
  pose proof (decode_stream_open st v Hb Hopen) as Ho.
  assert (Hf : bom_seen (fst (decode_stream st v)) = true)
    by (apply decode_stream_flag; auto).
  destruct (decode_stream st v) as [st1 o1]. cbn [fst snd] in Ho, Hf.
  specialize (IH st1 Hf). destruct (decode_chunks st1 rest) as [st2 o2].
  cbn [fst snd] in *. intros Hnil. apply app_eq_nil in Hnil as [H1 H2].
  auto.
Qed.

Lemma decode_chunks_app st pre post :
  decode_chunks st (pre ++ post)
  = (fst (decode_chunks (fst (decode_chunks st pre)) post),
     snd (decode_chunks st pre)
       ++ snd (decode_chunks (fst (decode_chunks st pre)) post)).
Proof.
  rewrite !decode_chunks_concat, concat_app. apply decode_stream_app.
Qed.

End DecoderOpenSequence.

Section ReaderLoop.
Import Route.

Lemma slice0_nonneg limit s :
  0 <= limit -> Text.slice0 limit s = firstn (Z.to_nat limit) s.
Proof.
  intros H. unfold Text.slice0.
  destruct (Z.ltb_spec limit 0); [lia | reflexivity].
Qed.

(** While the text stays within the ceiling the loop reads every chunk. *)
Lemma read_loop_within limit st text chunks :
  Z.of_nat (length (text ++ snd (decode_chunks st chunks))) <= limit ->
  read_loop limit st text chunks
  = (text ++ snd (decode_chunks st chunks), false,
     fst (decode_chunks st chunks)).
Proof.
  revert st text. induction chunks as [|v rest IH]; intros st text H.
  - cbn. now rewrite app_nil_r.
  - cbn [read_loop decode_chunks] in *.
    destruct (TextDecoder.decode_stream st v) as [st1 o1].
    specialize (IH st1 (text ++ o1)).
    destruct (decode_chunks st1 rest) as [st2 o2]. cbn [fst snd] in *.
    rewrite app_assoc in H.
    destruct (Z.ltb_spec limit (Z.of_nat (length (text ++ o1)))) as [Hlt|_].
    + rewrite length_app in H. lia.
    + rewrite IH by exact H. now rewrite app_assoc.
Qed.

(** When the text goes over the ceiling the loop stops after the chunk
    that takes it over, with the first [limit] characters of the text. *)
Lemma read_loop_over limit st text chunks :
  0 <= limit ->
  Z.of_nat (length text) <= limit ->
  limit < Z.of_nat (length (text ++ snd (decode_chunks st chunks))) ->
  exists pre post,
    chunks = pre ++ post
    /\ limit < Z.of_nat (length (text ++ snd (decode_chunks st pre)))
    /\ read_loop limit st text chunks
       = (firstn (Z.to_nat limit) (text ++ snd (decode_chunks st chunks)),
          true, fst (decode_chunks st pre)).
Proof.
  intros Hlimit. revert st text.
  induction chunks as [|v rest IH]; intros st text Htext H.
  - cbn in H. rewrite app_nil_r in H. lia.
  - cbn [read_loop].
    destruct (TextDecoder.decode_stream st v) as [st1 o1] eqn:E1.
    assert (Hd : forall more,
      decode_chunks st (v :: more)
      = (fst (decode_chunks st1 more), o1 ++ snd (decode_chunks st1 more))).
    { intros more. cbn [decode_chunks]. rewrite E1.
      now destruct (decode_chunks st1 more). }
    rewrite Hd in H. cbn [snd] in H. rewrite app_assoc in H.
    destruct (Z.ltb_spec limit (Z.of_nat (length (text ++ o1)))) as [Hlt|Hle].
    + exists [v], rest. split; [reflexivity|].
      rewrite !Hd. cbn [decode_chunks fst snd]. rewrite app_nil_r.
      split; [exact Hlt|].
      rewrite slice0_nonneg by exact Hlimit.
      rewrite (app_assoc text o1), (take_app_le (text ++ o1)) by lia.
      reflexivity.
    + destruct (IH st1 (text ++ o1) Hle H) as (pre & post & -> & Hover & Hr).
      exists (v :: pre), post. split; [reflexivity|].
      rewrite !Hd. cbn [fst snd]. rewrite (app_assoc text o1).
      split; [exact Hover|]. rewrite Hr, (app_assoc text o1). reflexivity.
Qed.

End ReaderLoop.

Section ReaderTheorems.
Import Route.

Variables (response : Response) (chunks : list (list Byte.byte)).
Hypothesis has_body : body response = Some chunks.

Lemma readTextLimited_stream limitChars :
  readTextLimited response limitChars
  = let '(text, truncated, decoder) :=
      read_loop limitChars TextDecoder.initial [] chunks in
    {| read_text := text ++ TextDecoder.decode_end decoder;
       read_truncated := truncated |}.
Proof. unfold readTextLimited. now rewrite has_body. Qed.

(** A body whose text has at most [limitChars] characters comes back whole
    and not truncated: so does every body of exactly 50,000 characters. *)
Lemma readTextLimited_within limitChars :
  Z.of_nat (length (TextDecoder.decode_all (concat chunks))) <= limitChars ->
  readTextLimited response limitChars
  = {| read_text := TextDecoder.decode_all (concat chunks);
       read_truncated := false |}.
Proof.
  intros H. rewrite readTextLimited_stream, decode_all_chunks in *.
  rewrite read_loop_within; [reflexivity|].
  rewrite length_app in H. simpl. lia.
Qed.

(** A body streamed over the ceiling is cut: the flag is set, the text
    starts with the first [limitChars] characters of the body, and what
    follows them is the flush of the decoder, one U+FFFD when the last chunk
    read ended inside a sequence. *)
Lemma readTextLimited_over limitChars :
  0 <= limitChars ->
  limitChars
  < Z.of_nat (length (snd (decode_chunks TextDecoder.initial chunks))) ->
  exists flushed,
    readTextLimited response limitChars
    = {| read_text :=
           firstn (Z.to_nat limitChars)
                  (TextDecoder.decode_all (concat chunks)) ++ flushed;
         read_truncated := true |}
    /\ (length flushed <= 1)%nat.
Proof.
  intros Hlimit Hover. rewrite readTextLimited_stream.
  destruct (read_loop_over limitChars TextDecoder.initial [] chunks)
    as (pre & post & Hsplit & _ & Hr); [exact Hlimit | simpl; lia | exact Hover|].
  rewrite Hr. cbn [app].
  exists (TextDecoder.decode_end (fst (decode_chunks TextDecoder.initial pre))).
  split; [|apply decode_end_length].
  rewrite decode_all_chunks, take_app_le by lia. reflexivity.
Qed.

(** A body of exactly [limitChars + 1] characters that ends outside any
    sequence (nothing for the decoder to flush at the end of the stream)
    comes back truncated, as its first [limitChars] characters. *)
Lemma readTextLimited_one_over limitChars :
  0 <= limitChars ->
  Z.of_nat (length (TextDecoder.decode_all (concat chunks)))
  = limitChars + 1 ->
  TextDecoder.decode_end (fst (decode_chunks TextDecoder.initial chunks))
  = [] ->
  readTextLimited response limitChars
  = {| read_text := firstn (Z.to_nat limitChars)
                           (TextDecoder.decode_all (concat chunks));
       read_truncated := true |}.
Proof.
  intros Hlimit Hlen Hclosed. rewrite readTextLimited_stream.
  rewrite decode_all_chunks, Hclosed, app_nil_r in *.
  destruct (read_loop_over limitChars TextDecoder.initial [] chunks)
    as (pre & post & Hsplit & Hpre & Hr); [exact Hlimit | simpl; lia | simpl; lia|].
  rewrite Hr. cbn [app] in *.
  set (st := fst (decode_chunks TextDecoder.initial pre)) in *.
  assert (Hrest : snd (decode_chunks st post) = []).
  { rewrite Hsplit, decode_chunks_app in Hlen. cbn [snd] in Hlen.
    fold st in Hlen. rewrite length_app in Hlen.
    destruct (snd (decode_chunks st post)); [reflexivity | simpl in Hlen; lia]. }
  assert (Hst : TextDecoder.decode_end st = []).
  { apply decode_end_nil.
    destruct (N.eq_dec (TextDecoder.bytes_needed st) 0%N) as [E|E];
      [exact E|].
    exfalso.
    assert (Hflag : TextDecoder.bom_seen st = true).
    { apply decode_chunks_output_flag.
      destruct (snd (decode_chunks TextDecoder.initial pre));
        [simpl in Hpre; lia | discriminate]. }
    pose proof (decode_chunks_open st post Hflag E Hrest) as Hopen.
    rewrite Hsplit, decode_chunks_app in Hclosed. cbn [fst] in Hclosed.
    fold st in Hclosed. apply decode_end_nil in Hclosed. contradiction. }
  now rewrite Hst, app_nil_r.
Qed.

End ReaderTheorems.

(** C5 at the failing input. The body [dangling_body] decodes to 50,001
    characters (the last one U+FFFD, for the lead byte left open). Read
    through the stream, it comes back whole, 50,001 characters long, with
    [truncated = false]; read through the branch without a reader, it comes
    back cut to 50,000 characters with [truncated = true]. *)
Theorem limited_reader_overruns_on_dangling_byte :
  let whole := TextDecoder.decode_all (concat dangling_body) in
  let streamed :=
    Route.readTextLimited (response_of (Some dangling_body) whole)
                          Route.MAX_MARKDOWN_CHARS in
  let fallback :=
    Route.readTextLimited (response_of None whole)
                          Route.MAX_MARKDOWN_CHARS in
  Z.of_nat (length whole) = 50001
  /\ Route.read_truncated streamed = false
  /\ Z.of_nat (length (Route.read_text streamed)) = 50001
  /\ Route.read_truncated fallback = true
  /\ Z.of_nat (length (Route.read_text fallback)) = 50000.
Proof. vm_compute. auto. Qed.

(** The same flush goes over the ceiling on a well-formed body too, when
    the chunk that takes the text over the ceiling ends inside a character:
    the text comes back 50,001 characters long, the last one U+FFFD. *)
Lemma limited_reader_overruns_when_cut_inside_a_character :
  let whole := TextDecoder.decode_all (concat cut_inside_body) in
  let streamed :=
    Route.readTextLimited (response_of (Some cut_inside_body) whole)
                          Route.MAX_MARKDOWN_CHARS in
  Z.of_nat (length whole) = 50002
  /\ TextDecoder.decode_end
       (fst (decode_chunks TextDecoder.initial cut_inside_body)) = []
  /\ Route.read_truncated streamed = true
  /\ Z.of_nat (length (Route.read_text streamed)) = 50001
  /\ List.last (Route.read_text streamed) 0%N = TextDecoder.REPLACEMENT.
Proof. vm_compute. auto. Qed.

(** The examples of the specification for the classifier. *)
Example classify_examples :
  let response s ct :=
    {| Route.status := s; Route.statusText := EmptyString;
       Route.content_type := ct; Route.body := Some []; Route.text := [] |} in
  Route.found (Route.classify
                 (response 200 (Some "text/markdown; charset=utf-8"))) = true
  /\ (Route.found (Route.classify (response 301 None)) = false
      /\ Route.reason (Route.classify (response 301 None))
         = Route.REDIRECT_REASON)
  /\ (Route.found (Route.classify (response 404 None)) = false
      /\ Route.reason (Route.classify (response 404 None))
         = Route.NON_2XX_REASON)
  /\ (Route.found (Route.classify (response 200 (Some "text/html"))) = false
      /\ Route.reason (Route.classify (response 200 (Some "text/html")))
         = Route.IGNORED_REASON).
Proof. vm_compute. auto 10. Qed.

(** ** Part III: further properties of the code *)

(** *** The limiter: isolation, accounting, reset, memory *)

Section LimiterFacts.
Import RateLimit.

Implicit Types (store : gmap string (list Z)) (bucket : list Z).

(** The outcome of a call reads the bucket of its identifier only. *)
Lemma check_reads_own_bucket now identifier store1 store2 :
  store1 !! identifier = store2 !! identifier ->
  fst (check now identifier store1) = fst (check now identifier store2)
  /\ snd (check now identifier store1) !! identifier
     = snd (check now identifier store2) !! identifier.
Proof.
  intros H. unfold check, enforceRateLimit. rewrite H.
  destruct (LIMIT <=? _); simpl; now rewrite !lookup_insert_eq.
Qed.

Lemma calls_of_cons_same identifier now rest :
  calls_of identifier ((identifier, now) :: rest)
  = (identifier, now) :: calls_of identifier rest.
Proof. unfold calls_of. now rewrite filter_cons_True. Qed.

Lemma calls_of_cons_other identifier caller now rest :
  caller <> identifier ->
  calls_of identifier ((caller, now) :: rest) = calls_of identifier rest.
Proof. intros H. unfold calls_of. now rewrite filter_cons_False. Qed.

Lemma results_for_alone calls :
  forall identifier store1 store2,
    store1 !! identifier = store2 !! identifier ->
    results_for identifier calls store1
    = fst (run_calls (calls_of identifier calls) store2)
    /\ snd (run_calls calls store1) !! identifier
       = snd (run_calls (calls_of identifier calls) store2) !! identifier.
Proof.
  induction calls as [|[caller now] rest IH]; intros identifier s1 s2 H.
  - simpl. auto.
  - cbn [results_for]. rewrite run_calls_step.
    destruct (check now caller s1) as [r s1'] eqn:E1. cbn [fst snd].
    destruct (decide (caller = identifier)) as [->|Hne].
    + rewrite bool_decide_eq_true_2 by reflexivity.
      rewrite calls_of_cons_same, run_calls_step. cbn [fst snd].
      destruct (check_reads_own_bucket now identifier s1 s2 H) as [Hr Hs].
      rewrite E1 in Hr, Hs. cbn [fst snd] in Hr, Hs.
      destruct (IH identifier s1' (snd (check now identifier s2)) Hs)
        as [IH1 IH2].
      rewrite Hr, IH1. auto.
    + rewrite bool_decide_eq_false_2 by exact Hne.
      rewrite calls_of_cons_other by exact Hne.
      apply IH.
      pose proof (check_other now caller identifier s1 Hne) as Ho.
      rewrite E1 in Ho. cbn [snd] in Ho. now rewrite Ho.
Qed.

End LimiterFacts.

(** X1. In any run of calls of the in-process fallback, the results an
    identifier gets, and the timestamps stored for it at the end, are those
    it would get if the calls of every other identifier had not been
    made. *)
Theorem fallback_identifiers_are_isolated
    (identifier : string) (calls : list (string * Z))
    (store : gmap string (list Z)) :
  results_for identifier calls store
  = fst (RateLimit.run_calls (calls_of identifier calls) store)
  /\ snd (RateLimit.run_calls calls store) !! identifier
     = snd (RateLimit.run_calls (calls_of identifier calls) store)
         !! identifier.
Proof. now apply results_for_alone. Qed.

(** X2. On every store reachable from the empty one, after a call of the
    in-process fallback, [remaining] is LIMIT minus the number of timestamps
    now stored for the identifier, between 0 and 29, and [limit] is LIMIT;
    a rejected call leaves 30 timestamps stored, those of the bucket still
    in the window, its own not among them. *)
Theorem fallback_remaining_counts_the_bucket
    (calls : list (string * Z)) (identifier : string) (now : Z) :
  let store := snd (RateLimit.run_calls calls ∅) in
  let outcome := RateLimit.check now identifier store in
  exists bucket,
    snd outcome !! identifier = Some bucket
    /\ RateLimit.remaining (fst outcome)
       = RateLimit.LIMIT - Z.of_nat (length bucket)
    /\ 0 <= RateLimit.remaining (fst outcome) <= 29
    /\ RateLimit.limit (fst outcome) = RateLimit.LIMIT
    /\ (RateLimit.success (fst outcome) = false ->
        length bucket = 30%nat
        /\ bucket = RateLimit.fresh_of now (default [] (store !! identifier))).
Proof.
  intros store outcome.
  set (fresh := RateLimit.fresh_of now (default [] (store !! identifier))).
  assert (Hb : Z.of_nat (length fresh) <= RateLimit.LIMIT).
  { pose proof (run_calls_bounded calls ∅ (all_buckets_empty _)) as Hall.
    fold store in Hall. unfold fresh.
    pose proof (fresh_of_length now (default [] (store !! identifier))).
    destruct (store !! identifier) as [b|] eqn:E; simpl in *.
    - specialize (Hall _ _ E). unfold bounded in Hall. lia.
    - unfold RateLimit.LIMIT. lia. }
  destruct (Z.lt_ge_cases (Z.of_nat (length fresh)) RateLimit.LIMIT)
    as [H|H].
  - pose proof (check_allowed _ _ _ H) as E. fold outcome fresh in E.
    exists (fresh ++ [now]). rewrite E. simpl. rewrite lookup_insert_eq.
    rewrite length_app. unfold RateLimit.LIMIT in *. simpl.
    repeat split; try lia.
  - pose proof (check_rejected _ _ _ H) as E. fold outcome fresh in E.
    exists fresh. rewrite E. simpl. rewrite lookup_insert_eq.
    unfold RateLimit.LIMIT in *. repeat split; try lia.
Qed.

(** X3. Whatever the store, the [reset] a call of the in-process fallback
    returns is never before the clock reading of the call; on a store
    reachable with a clock that never goes back it is at most one window
    after it. *)
Theorem fallback_reset_is_ahead
    (identifier : string) (now : Z) :
  (forall store : gmap string (list Z),
     now <= RateLimit.reset (fst (RateLimit.check now identifier store)))
  /\ (forall calls t0,
        nondecreasing t0 (calls ++ [(identifier, now)]) ->
        RateLimit.reset
          (fst (RateLimit.check now identifier
                  (snd (RateLimit.run_calls calls ∅))))
        <= now + RateLimit.WINDOW_MS).
Proof.
  split.
  - intros store.
    set (fresh := RateLimit.fresh_of now (default [] (store !! identifier))).
    destruct (Z.lt_ge_cases (Z.of_nat (length fresh)) RateLimit.LIMIT)
      as [H|H].
    + rewrite (check_allowed _ _ _ H). simpl. unfold RateLimit.WINDOW_MS. lia.
    + rewrite (check_rejected _ _ _ H). simpl. fold fresh.
      destruct fresh as [|e rest] eqn:E.
      * unfold RateLimit.LIMIT in H. simpl in H. lia.
      * assert (He : e ∈ RateLimit.fresh_of now
                        (default [] (store !! identifier))).
        { fold fresh. rewrite E. apply list_elem_of_here. }
        apply fresh_of_in in He. simpl. lia.
  - intros calls t0 Hclock.
    apply nondecreasing_snoc in Hclock as [Hc Hlast].
    set (store := snd (RateLimit.run_calls calls ∅)).
    set (fresh := RateLimit.fresh_of now (default [] (store !! identifier))).
    destruct (Z.lt_ge_cases (Z.of_nat (length fresh)) RateLimit.LIMIT)
      as [H|H].
    + rewrite (check_allowed _ _ _ H). simpl. lia.
    + rewrite (check_rejected _ _ _ H). simpl. fold fresh.
      destruct fresh as [|e rest] eqn:E.
      * unfold RateLimit.LIMIT in H. simpl in H. lia.
      * assert (He : e ∈ RateLimit.fresh_of now
                        (default [] (store !! identifier))).
        { fold fresh. rewrite E. apply list_elem_of_here. }
        apply fresh_of_in in He as [_ He].
        pose proof (run_calls_ordered calls t0 ∅ Hc (all_buckets_empty _))
          as Ho. fold store in Ho.
        destruct (store !! identifier) as [b|] eqn:Eb; simpl in He.
        -- destruct (Ho _ _ Eb) as [_ Hle]. rewrite Forall_forall in Hle.
           specialize (Hle e He). simpl. lia.
        -- now apply not_elem_of_nil in He.
Qed.

Lemma fallback_reset_is_ahead_witness :
  RateLimit.reset
    (fst (RateLimit.check 1000 "a" (snd (RateLimit.run_calls [("a", 0)] ∅))))
  <= 1000 + RateLimit.WINDOW_MS.
Proof.
  apply (proj2 (fallback_reset_is_ahead "a" 1000) [("a", 0)] 0).
  simpl. lia.
Defined.

(** X4. The in-process fallback never forgets an identifier: after any run
    of calls the store holds exactly the identifiers it held before and
    those that called, whatever their timestamps have become. *)
Theorem fallback_store_never_shrinks
    (calls : list (string * Z)) (store : gmap string (list Z)) :
  dom (snd (RateLimit.run_calls calls store))
  = dom store ∪ list_to_set (map fst calls).
Proof.
  revert store. induction calls as [|[identifier now] rest IH]; intros store.
  - simpl. now rewrite union_empty_r_L.
  - rewrite run_calls_step. cbn [snd map fst list_to_set]. rewrite IH.
    assert (Hd : dom (snd (RateLimit.check now identifier store))
                 = {[identifier]} ∪ dom store).
    { unfold RateLimit.check, RateLimit.enforceRateLimit.
      destruct (RateLimit.LIMIT <=? _); simpl; apply dom_insert_L. }
    rewrite Hd, (union_comm_L {[identifier]} (dom store)).
    now rewrite union_assoc_L.
Qed.

Section SlidingFacts.
Import RateLimit.

Lemma fresh_of_all_or_less now (bucket : list Z) :
  length (fresh_of now bucket) = length bucket
  \/ ((length (fresh_of now bucket) < length bucket)%nat
      /\ Exists (fun e => WINDOW_MS < now - e) bucket).
Proof.
  induction bucket as [|e l IH]; [now left|].
  unfold fresh_of in *. rewrite filter_cons.
  destruct (decide (now - e <= WINDOW_MS)) as [He|He]; simpl.
  - destruct IH as [IH|[IH Hex]]; [left; lia|].
    right. split; [lia | now apply Exists_cons_tl].
  - right. pose proof (length_filter
      (fun timestamp => now - timestamp <= WINDOW_MS) l).
    split; [lia|]. apply Exists_cons_hd. lia.
Qed.

Lemma fresh_of_less now (bucket : list Z) :
  Exists (fun e => WINDOW_MS < now - e) bucket ->
  (length (fresh_of now bucket) < length bucket)%nat.
Proof.
  induction 1 as [e l He|e l _ IH]; unfold fresh_of in *.
  - rewrite filter_cons_False by lia.
    pose proof (length_filter
      (fun timestamp => now - timestamp <= WINDOW_MS) l). simpl. lia.
  - rewrite filter_cons. destruct (decide _); simpl; lia.
Qed.

End SlidingFacts.

(** X5. The window slides: an identifier with a full bucket (30 stored
    timestamps) is accepted again as soon as one of them is more than
    WINDOW_MS old, and not before. *)
Theorem fallback_full_bucket_recovers_one_by_one
    (identifier : string) (now : Z) (store : gmap string (list Z))
    (bucket : list Z) :
  store !! identifier = Some bucket ->
  length bucket = 30%nat ->
  (RateLimit.success (fst (RateLimit.check now identifier store)) = true
   <-> Exists (fun e => RateLimit.WINDOW_MS < now - e) bucket).
Proof.
  intros Hs Hlen.
  destruct (check_stored now identifier store) as [_ Hok].
  rewrite Hok, Hs. simpl. unfold RateLimit.LIMIT. split.
  - intros Hlt. destruct (fresh_of_all_or_less now bucket) as [H|[_ H]];
      [lia | exact H].
  - intros Hex. apply fresh_of_less in Hex. lia.
Qed.

Lemma fallback_full_bucket_recovers_witness :
  RateLimit.success
    (fst (RateLimit.check 600001 "a"
            (<["a" := map Z.of_nat (seq 0 30)]> ∅))) = true.
Proof.
  apply (fallback_full_bucket_recovers_one_by_one "a" 600001
           (<["a" := map Z.of_nat (seq 0 30)]> ∅) (map Z.of_nat (seq 0 30))).
  - apply lookup_insert_eq.
  - reflexivity.
  - apply Exists_cons_hd. unfold RateLimit.WINDOW_MS. lia.
Defined.

(** *** The target checks: local names, lookups, order of records *)


(** X6. assertSafeTarget settles at once with the local-target error, with
    no DNS lookup, exactly for the host names that are localhost or end
    with .local, in any letter case. *)
Theorem local_names_are_blocked_first (url : Security.URL) :
  Security.assertSafeTarget url = Settled (Throw Security.LOCAL_BLOCKED)
  <-> (JS.toLowerCase (Security.hostname url) = "localhost"
       \/ exists pre suffix,
            Security.hostname url = pre +:+ suffix
            /\ JS.toLowerCase suffix = ".local").
Proof.
  assert (Hlocal : local_name (JS.toLowerCase (Security.hostname url)) = true
    <-> (JS.toLowerCase (Security.hostname url) = "localhost"
         \/ exists pre suffix,
              Security.hostname url = pre +:+ suffix
              /\ JS.toLowerCase suffix = ".local")).
  { unfold local_name. rewrite orb_true_iff, String.eqb_eq, endsWith_iff.
    split; (intros [H|H]; [now left | right]).
    - destruct H as [pre H]. apply toLowerCase_split in H
        as (a & b & Hab & _ & Hb). now exists a, b.
    - destruct H as (pre & suffix & -> & Hs).
      exists (JS.toLowerCase pre). now rewrite toLowerCase_app, Hs. }
  rewrite <- Hlocal. split.
  - intros H. destruct (local_name _) eqn:Hl; [reflexivity|].
    destruct (Z.eq_dec (JS.isIP (JS.toLowerCase (Security.hostname url))) 0)
      as [Hip|Hip].
    + rewrite (assertSafeTarget_name url Hl Hip) in H. discriminate.
    + rewrite (assertSafeTarget_literal url Hl Hip) in H.
      destruct (Security.isPrivateIp _); discriminate.
  - apply assertSafeTarget_local.
Qed.

(** X7. assertSafeTarget looks up at most one name, the lower-cased host
    name, and only when that is neither a local name nor an IP literal;
    when the resolver rejects, assertSafeTarget throws the error of the
    resolver. *)
Theorem at_most_one_lookup
    (url : Security.URL) (dns : string -> result (list LookupAddress)) :
  let host := JS.toLowerCase (Security.hostname url) in
  (fst (run dns (Security.assertSafeTarget url)) = []
   \/ fst (run dns (Security.assertSafeTarget url)) = [host])
  /\ (fst (run dns (Security.assertSafeTarget url)) = [host]
      <-> local_name host = false /\ JS.isIP host = 0)
  /\ (forall e, local_name host = false -> JS.isIP host = 0 ->
      dns host = Throw e ->
      run dns (Security.assertSafeTarget url) = ([host], Throw e)).
Proof.
  intros host.
  destruct (local_name host) eqn:Hl.
  - rewrite (assertSafeTarget_local url Hl). simpl.
    repeat split; try discriminate; try tauto. intros [H _]. discriminate.
  - destruct (Z.eq_dec (JS.isIP host) 0) as [Hip|Hip].
    + rewrite (assertSafeTarget_name url Hl Hip). fold host. simpl.
      assert (Hlog : forall answer : result (list LookupAddress),
        fst (let '(log, r) :=
               run dns match answer with
                       | Return records =>
                           if (length records =? 0)%nat
                           then Settled (Throw Security.RESOLUTION_FAILED)
                           else Settled (Security.check_records records)
                       | Throw e => Settled (Throw e)
                       end in (host :: log, r)) = [host]).
      { intros [records|e]; [destruct (length records =? 0)%nat|];
          reflexivity. }
      repeat split; auto.
      intros e _ _ He. now rewrite He.
    + rewrite (assertSafeTarget_literal url Hl Hip). fold host. simpl.
      repeat split; try discriminate; try tauto.
Qed.

Lemma at_most_one_lookup_witness :
  run (fun _ => Throw "getaddrinfo ENOTFOUND no-such-host.example")
      (Security.assertSafeTarget
         {| Security.protocol := "https:"; Security.username := EmptyString;
            Security.password := EmptyString;
            Security.hostname := "No-Such-Host.example" |})
  = (["no-such-host.example"],
     Throw "getaddrinfo ENOTFOUND no-such-host.example").
Proof.
  apply (at_most_one_lookup
    {| Security.protocol := "https:"; Security.username := EmptyString;
       Security.password := EmptyString;
       Security.hostname := "No-Such-Host.example" |}); reflexivity.
Defined.

Section RecordOrder.
Import Security.

Lemma check_records_exists records :
  check_records records
  = if existsb (fun r => isPrivateIp (address r)) records
    then Throw RESOLVED_PRIVATE else Return tt.
Proof.
  induction records as [|r rest IH]; simpl; [reflexivity|].
  destruct (isPrivateIp (address r)); [reflexivity | exact IH].
Qed.

Lemma existsb_permutation {A} (f : A -> bool) (l k : list A) :
  Permutation l k -> existsb f l = existsb f k.
Proof.
  induction 1 as [|x l k _ IH|x y l|l k m _ IH1 _ IH2]; simpl.
  - reflexivity.
  - now rewrite IH.
  - destruct (f x), (f y); reflexivity.
  - now rewrite IH1.
Qed.

End RecordOrder.

(** X8. The outcome of assertSafeTarget does not depend on the order in
    which the resolver lists the records: two resolvers that give the same
    records for the host name, in any order, get the same outcome. *)
Theorem record_order_is_irrelevant
    (url : Security.URL) (dns dns' : string -> result (list LookupAddress))
    (records records' : list LookupAddress) :
  dns (JS.toLowerCase (Security.hostname url)) = Return records ->
  dns' (JS.toLowerCase (Security.hostname url)) = Return records' ->
  Permutation records records' ->
  run dns (Security.assertSafeTarget url)
  = run dns' (Security.assertSafeTarget url).
Proof.
  intros Hd Hd' Hperm.
  destruct (local_name (JS.toLowerCase (Security.hostname url))) eqn:Hl.
  - now rewrite (assertSafeTarget_local url Hl).
  - destruct (Z.eq_dec (JS.isIP (JS.toLowerCase (Security.hostname url))) 0)
      as [Hip|Hip].
    + rewrite (assertSafeTarget_name url Hl Hip). simpl. rewrite Hd, Hd'.
      rewrite <- (Permutation_length Hperm), !check_records_exists.
      rewrite (existsb_permutation _ _ _ Hperm).
      now destruct (length records =? 0)%nat.
    + now rewrite (assertSafeTarget_literal url Hl Hip).
Qed.

Lemma record_order_witness :
  run (fun _ => Return [ {| address := "10.0.0.5"; family := 4 |};
                         {| address := "93.184.216.34"; family := 4 |} ])
      (Security.assertSafeTarget
         {| Security.protocol := "https:"; Security.username := EmptyString;
            Security.password := EmptyString;
            Security.hostname := "example.com" |})
  = run (fun _ => Return [ {| address := "93.184.216.34"; family := 4 |};
                           {| address := "10.0.0.5"; family := 4 |} ])
        (Security.assertSafeTarget
           {| Security.protocol := "https:"; Security.username := EmptyString;
              Security.password := EmptyString;
              Security.hostname := "example.com" |}).
Proof.
  eapply record_order_is_irrelevant; [reflexivity | reflexivity |].
  apply perm_swap.
Defined.

(** X9. assertSupportedUrl returns normally exactly when the parser accepts
    the string and the parsed URL has the protocol [http:] or [https:] and
    neither user name nor password, and then returns the parsed URL itself;
    an error of the parser is passed on; and the unsupported-scheme error
    comes before the credentials error. *)
Theorem assertSupportedUrl_contract
    (parse : string -> result Security.URL) (rawUrl : string) :
  (forall target,
     Security.assertSupportedUrl parse rawUrl = Return target
     <-> parse rawUrl = Return target /\ supported target)
  /\ (forall e, parse rawUrl = Throw e ->
      Security.assertSupportedUrl parse rawUrl = Throw e)
  /\ (forall parsed,
        parse rawUrl = Return parsed ->
        Security.protocol parsed <> "http:" ->
        Security.protocol parsed <> "https:" ->
        Security.assertSupportedUrl parse rawUrl
        = Throw "Only HTTP(S) URLs are supported.")
  /\ (forall parsed,
        parse rawUrl = Return parsed ->
        Security.protocol parsed = "http:"
        \/ Security.protocol parsed = "https:" ->
        Security.username parsed <> EmptyString
        \/ Security.password parsed <> EmptyString ->
        Security.assertSupportedUrl parse rawUrl
        = Throw "URLs with credentials are not allowed.").
Proof.
  unfold Security.assertSupportedUrl, supported.
  destruct (parse rawUrl) as [parsed|e0].
  2:{ repeat split; try discriminate.
      - intros [H _]. discriminate.
      - intros e H. exact H. }
  cbn [existsb orb].
  destruct (String.eqb_spec (Security.protocol parsed) "http:") as [Hh|Hh];
  destruct (String.eqb_spec (Security.protocol parsed) "https:") as [Hs|Hs];
  destruct (String.eqb_spec (Security.username parsed) EmptyString) as [Hu|Hu];
  destruct (String.eqb_spec (Security.password parsed) EmptyString) as [Hp|Hp];
    cbn [orb negb andb];
    (split; [intros target; split;
               [intros H; try discriminate H; injection H as <-; tauto
               | intros [H Hsup]; injection H as <-;
                 try reflexivity; exfalso; tauto]
            | split; [discriminate
                     | split; [intros p H; injection H as <-; intros;
                               first [reflexivity | congruence]
                              | intros p H; injection H as <-; intros;
                                first [reflexivity | exfalso; tauto]]]]).
Qed.

Lemma assertSupportedUrl_contract_witness :
  Security.assertSupportedUrl
    (fun _ => Return {| Security.protocol := "ftp:";
                        Security.username := "anonymous";
                        Security.password := EmptyString;
                        Security.hostname := "example.com" |})
    "ftp://anonymous@example.com/"
  = Throw "Only HTTP(S) URLs are supported.".
Proof.
  eapply (assertSupportedUrl_contract
            (fun _ => Return {| Security.protocol := "ftp:";
                                Security.username := "anonymous";
                                Security.password := EmptyString;
                                Security.hostname := "example.com" |}));
    [reflexivity | discriminate | discriminate].
Defined.

(** *** The IPv6 prefixes *)

Section V6Facts.
Import JS Security Wording.

Lemma cut_double_colon_eq c r :
  cut_double_colon (String c r)
  = if Ascii.eqb c ":" && startsWith r ":"
    then Some (EmptyString, drop 1 r)
    else match cut_double_colon r with
         | Some (a, b) => Some (String c a, b)
         | None => None
         end.
Proof.
  destruct (Ascii.eqb_spec c ":") as [->|Hne].
  - destruct r as [|d r]; [reflexivity|].
    destruct (Ascii.eqb_spec d ":") as [->|Hd].
    + now destruct r.
    + assert (Hs : startsWith (String d r) ":" = false).
      { destruct (startsWith (String d r) ":") eqn:E; [|reflexivity].
        apply startsWith_iff in E as [post E]. injection E as E _.
        congruence. }
      rewrite Hs. cbn [andb].
      destruct d as [[] [] [] [] [] [] [] []]; try reflexivity; congruence.
  - cbn [andb].
    destruct c as [[] [] [] [] [] [] [] []]; try reflexivity; congruence.
Qed.

Lemma cut_double_colon_app s l r :
  cut_double_colon s = Some (l, r) -> s = l +:+ "::" +:+ r.
Proof.
  revert l. induction s as [|c s IH]; intros l; [discriminate|].
  rewrite cut_double_colon_eq.
  destruct (Ascii.eqb_spec c ":") as [->|Hne]; cbn [andb].
  - destruct (startsWith s ":") eqn:Hs.
    + intros H. injection H as <- <-.
      apply startsWith_iff in Hs as [post ->]. reflexivity.
    + destruct (cut_double_colon s) as [[a b]|]; [|discriminate].
      intros H. injection H as <- <-. simpl. now rewrite (IH a).
  - destruct (cut_double_colon s) as [[a b]|]; [|discriminate].
    intros H. injection H as <- <-. simpl. now rewrite (IH a).
Qed.

(** A hexadecimal digit is worth at most 15, and the digits worth 8 and more
    are, in lower case, 8 9 a b c d e f. *)
Lemma hex_digit_value c :
  is_hex_digit c = true -> 0 <= digit_value c <= 15.
Proof.
  destruct c as [[] [] [] [] [] [] [] []]; try discriminate;
    intros _; vm_compute; split; discriminate.
Qed.

Lemma hex_digit_lower c :
  is_hex_digit c = true ->
  (8 <=? digit_value c) = true ->
  Some (lower_char c)
  = nth_error ["8"; "9"; "a"; "b"; "c"; "d"; "e"; "f"]%char
              (Z.to_nat (digit_value c - 8)).
Proof.
  destruct c as [[] [] [] [] [] [] [] []]; try discriminate;
    intros _ H; try discriminate H; reflexivity.
Qed.

(** A group worth 0xfc00 or more is written with four digits. *)
Lemma high_segment p g :
  hex_group p = Some g -> 64512 <= g ->
  exists c1 c2 c3 c4,
    p = String c1 (String c2 (String c3 (String c4 EmptyString)))
    /\ is_hex_digit c1 = true /\ is_hex_digit c2 = true
    /\ is_hex_digit c3 = true
    /\ g = 4096 * digit_value c1 + 256 * digit_value c2
           + 16 * digit_value c3 + digit_value c4
    /\ 0 <= digit_value c4 <= 15.
Proof.
  unfold hex_group, is_v6_segment.
  destruct (_ && _ && all_chars is_hex_digit p) eqn:Hseg; [|discriminate].
  intros H Hg. injection H as <-.
  apply andb_true_iff in Hseg as [Hlen Hall].
  destruct p as [|c1 [|c2 [|c3 [|c4 [|c5 p]]]]]; try discriminate Hlen;
    cbn [all_chars] in Hall; cbn [digits_value] in Hg |- *;
    repeat (apply andb_true_iff in Hall as [?H Hall]);
    repeat match goal with
           | H : is_hex_digit ?c = true |- _ =>
               lazymatch goal with
               | _ : 0 <= digit_value c <= 15 |- _ => fail
               | _ => pose proof (hex_digit_value c H)
               end
           end; try lia.
  exists c1, c2, c3, c4. repeat split; auto; lia.
Qed.

Lemma nth_error_hex k ch :
  Some ch = nth_error ["8"; "9"; "a"; "b"; "c"; "d"; "e"; "f"]%char k ->
  (k < 8)%nat.
Proof.
  intros H. do 8 (destruct k as [|k]; [lia|]). destruct k; discriminate H.
Qed.

(** The textual test takes every string that begins with a group of
    fc00-fdff or fe80-febf. *)
Lemma isPrivateIPv6_high_group p tail g :
  hex_group p = Some g ->
  64512 <= g <= 65023 \/ 65152 <= g <= 65215 ->
  isPrivateIPv6 (p +:+ tail) = true.
Proof.
  intros Hp Hg.
  destruct (high_segment p g Hp ltac:(lia))
    as (c1 & c2 & c3 & c4 & -> & H1 & H2 & H3 & Hval & H4).
  pose proof (hex_digit_value c1 H1) as V1.
  pose proof (hex_digit_value c2 H2) as V2.
  pose proof (hex_digit_value c3 H3) as V3.
  assert (E1 : digit_value c1 = 15) by lia.
  pose proof (hex_digit_lower c1 H1) as L1.
  pose proof (hex_digit_lower c2 H2) as L2.
  pose proof (hex_digit_lower c3 H3) as L3.
  rewrite E1 in L1. specialize (L1 eq_refl). injection L1 as L1.
  unfold isPrivateIPv6. cbn [String.append toLowerCase]. rewrite L1.
  assert (Hcase : digit_value c2 = 12 \/ digit_value c2 = 13
                  \/ (digit_value c2 = 14
                      /\ (digit_value c3 = 8 \/ digit_value c3 = 9
                          \/ digit_value c3 = 10 \/ digit_value c3 = 11)))
    by lia.
  destruct Hcase as [E2|[E2|[E2 E3]]]; rewrite E2 in L2;
    specialize (L2 eq_refl); injection L2 as L2; rewrite L2;
    [reflexivity | reflexivity |].
  destruct E3 as [E3|[E3|[E3|E3]]]; rewrite E3 in L3;
    specialize (L3 eq_refl); injection L3 as L3; rewrite L3; reflexivity.
Qed.

Lemma groups_head v4_last p ps g rest :
  groups v4_last (p :: ps) = Some (g :: rest) ->
  (length (g :: rest) > 2)%nat \/ v4_last = false ->
  hex_group p = Some g.
Proof.
  destruct ps as [|p' ps].
  2:{ change (groups v4_last (p :: p' :: ps))
        with (match hex_group p, groups v4_last (p' :: ps) with
              | Some g0, Some gs => Some (g0 :: gs)
              | _, _ => None
              end).
      destruct (hex_group p) as [g0|]; [|intros H; discriminate H].
      destruct (groups v4_last (p' :: ps)); [|intros H; discriminate H].
      intros H _. injection H as Hg _. now rewrite Hg. }
  cbn [groups].
  - destruct (hex_group p) as [g0|] eqn:E.
    + intros H _. injection H as Hg _. now rewrite Hg.
    + unfold quad_groups. intros H Hc.
      destruct v4_last; [|discriminate H].
      destruct Hc as [Hlen|Hc]; [|discriminate Hc].
      destruct (isIPv4 p); [|discriminate H].
      destruct (map _ _) as [|a [|b [|c [|d [|? ?]]]]]; try discriminate H.
      injection H as _ H. rewrite <- H in Hlen. simpl in Hlen. lia.
Qed.

Lemma run_of_groups_head v4_last s g rest :
  run_of_groups v4_last s = Some (g :: rest) ->
  (length (g :: rest) > 2)%nat \/ v4_last = false ->
  exists p tail, s = p +:+ tail /\ hex_group p = Some g.
Proof.
  unfold run_of_groups. destruct s as [|c s]; [discriminate|].
  intros H Hc. pose proof (join_split ":" (String c s)) as Hj.
  destruct (split ":" (String c s)) as [|p ps] eqn:E.
  - now apply split_not_nil in E.
  - exists p. apply groups_head in H; [|exact Hc].
    destruct ps as [|p' ps].
    + exists EmptyString. split; [|exact H].
      rewrite <- Hj. simpl. clear. induction p; simpl; congruence.
    + eexists. split; [|exact H]. rewrite <- Hj. reflexivity.
Qed.

(** The first group of an address, when it is not zero, is what the address
    begins with. *)
Lemma address_groups_head s g rest :
  address_groups s = Some (g :: rest) -> g <> 0 ->
  exists p tail, s = p +:+ tail /\ hex_group p = Some g.
Proof.
  unfold address_groups. intros H Hg.
  destruct (cut_double_colon s) as [[l r]|] eqn:Hcut.
  - apply cut_double_colon_app in Hcut.
    destruct (run_of_groups false l) as [a|] eqn:Ea; [|discriminate].
    destruct (run_of_groups true r) as [b|]; [|discriminate].
    destruct (length a + length b <=? 7)%nat eqn:Hlen; [|discriminate].
    apply Nat.leb_le in Hlen. injection H as H.
    destruct a as [|g0 a].
    + exfalso. destruct (8 - length (@nil Z) - length b)%nat eqn:En;
        [simpl in *; lia|]. simpl in H. congruence.
    + simpl in H. injection H as -> _.
      destruct (run_of_groups_head false l g a Ea) as (p & tail & -> & Hp);
        [now right|].
      exists p, (tail +:+ "::" +:+ r). split; [|exact Hp]. rewrite Hcut.
      apply append_assoc_r.
  - destruct (run_of_groups true s) as [gs|] eqn:Eg; [|discriminate].
    destruct (length gs =? 8)%nat eqn:Hlen; [|discriminate].
    apply Nat.eqb_eq in Hlen. injection H as ->.
    apply (run_of_groups_head true s g rest Eg). left. lia.
Qed.

Lemma append_empty a : a +:+ EmptyString = a.
Proof. induction a; simpl; congruence. Qed.

(** A literal begins with its address. *)
Lemma address_part_prefix s : exists zone, s = address_part s +:+ zone.
Proof.
  unfold address_part. pose proof (join_split "%" s) as Hj.
  destruct (split "%" s) as [|a [|z more]]; cbn [hd].
  - exists EmptyString. now rewrite append_empty.
  - exists EmptyString. rewrite <- Hj. simpl. now rewrite append_empty.
  - eexists. rewrite <- Hj at 1. reflexivity.
Qed.

Lemma ipv6_groups_head s g rest :
  ipv6_groups s = Some (g :: rest) -> g <> 0 ->
  exists p tail, s = p +:+ tail /\ hex_group p = Some g.
Proof.
  unfold ipv6_groups. intros H Hg.
  destruct (address_groups_head _ g rest H Hg) as (p & tail & Ha & Hp).
  destruct (address_part_prefix s) as [zone Hz].
  exists p, (tail +:+ zone). split; [|exact Hp].
  rewrite Hz at 1. rewrite Ha. apply append_assoc_r.
Qed.

(** What net.isIP counts, the vocabulary spells: the groups of a run are as
    many as counted. *)
Lemma count_groups_spelled v4_last parts :
  forall n,
    count_groups v4_last parts = Some n ->
    exists gs, groups v4_last parts = Some gs /\ length gs = n.
Proof.
  induction parts as [|p ps IH]; intros n.
  - intros [= <-]. now exists [].
  - destruct ps as [|p' ps].
    + cbn [count_groups groups]. unfold hex_group.
      destruct (is_v6_segment p).
      * intros [= <-]. eexists. split; reflexivity.
      * destruct v4_last; cbn [andb]; [|discriminate].
        unfold quad_groups, isIPv4.
        destruct ((length (split "." p) =? 4)%nat
                  && forallb is_v4_segment (split "." p)) eqn:E;
          [|discriminate].
        intros [= <-]. apply andb_true_iff in E as [E _].
        apply Nat.eqb_eq in E.
        destruct (split "." p) as [|a [|b [|c [|d [|? ?]]]]];
          try discriminate E.
        eexists. split; reflexivity.
    + change (count_groups v4_last (p :: p' :: ps))
        with (if is_v6_segment p
              then option_map S (count_groups v4_last (p' :: ps))
              else None).
      change (groups v4_last (p :: p' :: ps))
        with (match hex_group p, groups v4_last (p' :: ps) with
              | Some g, Some gs => Some (g :: gs)
              | _, _ => None
              end).
      unfold hex_group. destruct (is_v6_segment p); [|discriminate].
      destruct (count_groups v4_last (p' :: ps)) as [m|]; [|discriminate].
      intros [= <-]. destruct (IH m eq_refl) as (gs & -> & <-).
      eexists. split; reflexivity.
Qed.

Lemma groups_of_spelled v4_last s n :
  groups_of v4_last s = Some n ->
  exists gs, run_of_groups v4_last s = Some gs /\ length gs = n.
Proof.
  unfold groups_of, run_of_groups. destruct s as [|c s].
  - intros [= <-]. now exists [].
  - apply count_groups_spelled.
Qed.

(** Every literal net.isIP takes for IPv6 spells eight groups. *)
Lemma isIPv6_groups s :
  isIPv6 s = true -> exists gs, ipv6_groups s = Some gs /\ length gs = 8%nat.
Proof.
  unfold isIPv6, ipv6_groups, address_part.
  pose proof (split_not_nil "%" s) as Hnn.
  destruct (split "%" s) as [|a tl]; [congruence|]. cbn [hd].
  assert (H : forall zone_ok,
    zone_ok && match cut_double_colon a with
               | None =>
                   match groups_of true a with
                   | Some 8%nat => negb (String.eqb a EmptyString)
                   | _ => false
                   end
               | Some (l, r) =>
                   match groups_of false l, groups_of true r with
                   | Some k, Some j => (k + j <=? 7)%nat
                   | _, _ => false
                   end
               end = true ->
    exists gs, address_groups a = Some gs /\ length gs = 8%nat).
  { intros zone_ok Hok. apply andb_true_iff in Hok as [_ Hok].
    unfold address_groups.
    destruct (cut_double_colon a) as [[l r]|].
    - destruct (groups_of false l) as [k|] eqn:Ek; [|discriminate].
      destruct (groups_of true r) as [j|] eqn:Ej; [|discriminate].
      destruct (groups_of_spelled _ _ _ Ek) as (gl & -> & Hl).
      destruct (groups_of_spelled _ _ _ Ej) as (gr & -> & Hr).
      rewrite Hl, Hr, Hok. eexists. split; [reflexivity|].
      apply Nat.leb_le in Hok.
      rewrite !length_app, repeat_length. lia.
    - destruct (groups_of true a) as [n|] eqn:En; [|discriminate].
      destruct (groups_of_spelled _ _ _ En) as (gs & -> & Hn).
      do 8 (destruct n as [|n]; [discriminate|]).
      destruct n; [|discriminate].
      rewrite Hn. cbn [Nat.eqb]. now exists gs. }
  destruct tl as [|z more]; apply H.
Qed.

End V6Facts.

(** X10. Every literal net.isIP takes for IPv6 spells eight groups, with
    or without a zone, and when the first of them lies in fc00-fdff (unique
    local, fc00::/7) or in fe80-febf (link local, fe80::/10) the literal is
    classified private, by isPrivateIPv6 and by isPrivateIp, however the
    rest of the address is written and in any letter case. *)
Theorem unique_local_and_link_local_are_private (s : string) :
  JS.isIP s = 6 ->
  exists g rest,
    Wording.ipv6_groups s = Some (g :: rest)
    /\ length rest = 7%nat
    /\ (64512 <= g <= 65023 \/ 65152 <= g <= 65215 ->
        Security.isPrivateIPv6 s = true /\ Security.isPrivateIp s = true).
Proof.
  intros H6.
  assert (Hv6 : JS.isIPv6 s = true).
  { unfold JS.isIP in H6. destruct (JS.isIPv4 s); [discriminate H6|].
    destruct (JS.isIPv6 s); [reflexivity | discriminate H6]. }
  destruct (isIPv6_groups s Hv6) as ([|g rest] & Hgroups & Hlen);
    [discriminate Hlen|].
  exists g, rest. split; [exact Hgroups|]. split; [simpl in Hlen; lia|].
  intros Hg.
  destruct (ipv6_groups_head s g rest Hgroups ltac:(lia))
    as (p & tail & -> & Hp).
  pose proof (isPrivateIPv6_high_group p tail g Hp Hg) as Hp6.
  split; [exact Hp6|]. now apply isPrivateIp_v6_flagged.
Qed.

Lemma unique_local_and_link_local_witness :
  (Security.isPrivateIPv6 "FE80::1ff:fe23:4567:890a%eth0" = true
   /\ Security.isPrivateIp "FE80::1ff:fe23:4567:890a%eth0" = true)
  /\ (Security.isPrivateIPv6 "FD12:3456:789a::1" = true
      /\ Security.isPrivateIp "FD12:3456:789a::1" = true).
Proof.
  split.
  - destruct (unique_local_and_link_local_are_private
                "FE80::1ff:fe23:4567:890a%eth0" eq_refl)
      as (g & rest & Hgroups & _ & H).
    vm_compute in Hgroups. injection Hgroups as <- _. apply H. lia.
  - destruct (unique_local_and_link_local_are_private
                "FD12:3456:789a::1" eq_refl)
      as (g & rest & Hgroups & _ & H).
    vm_compute in Hgroups. injection Hgroups as <- _. apply H. lia.
Defined.

(** *** The client identifier *)

Section IdentifierFacts.
Import JS Route.

Lemma or_unknown_not_empty s : or_unknown s <> EmptyString.
Proof.
  unfold or_unknown. destruct (String.eqb_spec s EmptyString);
    [discriminate | assumption].
Qed.

Lemma split_head sep p r :
  all_chars (not_char sep) p = true ->
  hd EmptyString (split sep (p +:+ String sep EmptyString +:+ r)) = p.
Proof. intros H. now rewrite split_app. Qed.

End IdentifierFacts.

(** X11. The client identifier is never empty. While x-forwarded-for has
    any content, x-real-ip is not consulted: the identifier is the text
    before the first comma of x-forwarded-for, trimmed, or "unknown" when
    that is blank. Without x-forwarded-for it is x-real-ip, or "unknown"
    when that is absent or empty too. *)
Theorem client_identifier (request : Route.NextRequest) :
  Route.getIpFromRequest request <> EmptyString
  /\ (forall first others,
        JS.all_chars (not_char ",") first = true ->
        Route.x_forwarded_for request
        = Some (first +:+ "," +:+ others)
        \/ (Route.x_forwarded_for request = Some first
            /\ first <> EmptyString) ->
        Route.getIpFromRequest request
        = if String.eqb (JS.trim first) EmptyString then "unknown"
          else JS.trim first)
  /\ (Route.x_forwarded_for request = None
      \/ Route.x_forwarded_for request = Some EmptyString ->
      Route.getIpFromRequest request
      = match Route.x_real_ip request with
        | Some ip => if String.eqb ip EmptyString then "unknown" else ip
        | None => "unknown"
        end).
Proof.
  unfold Route.getIpFromRequest. split; [|split].
  - destruct (negb _); apply or_unknown_not_empty.
  - intros first others Hfirst [Hf|[Hf Hne]]; rewrite Hf;
      cbn [default from_option id].
    + assert (Hn : String.eqb (first +:+ "," +:+ others) EmptyString = false).
      { destruct first; reflexivity. }
      rewrite Hn. cbn [negb]. rewrite split_head by exact Hfirst.
      reflexivity.
    + apply String.eqb_neq in Hne. rewrite Hne. cbn [negb].
      rewrite split_whole by exact Hfirst. reflexivity.
  - intros [Hf|Hf]; rewrite Hf; cbn [default from_option id String.eqb negb];
      destruct (Route.x_real_ip request); reflexivity.
Qed.

Lemma client_identifier_witness :
  Route.getIpFromRequest
    {| Route.x_forwarded_for := Some " 203.0.113.9 , 10.0.0.1";
       Route.x_real_ip := Some "198.51.100.1";
       Route.json := None |}
  = "203.0.113.9".
Proof.
  apply (client_identifier
           {| Route.x_forwarded_for := Some " 203.0.113.9 , 10.0.0.1";
              Route.x_real_ip := Some "198.51.100.1";
              Route.json := None |}) with (first := " 203.0.113.9 ")
                                          (others := " 10.0.0.1").
  - reflexivity.
  - left. reflexivity.
Defined.

(** *** The user agent: what the sanitizer leaves alone *)

Section TrimFacts.

Lemma trimStart_head s :
  Text.trimStart s = []
  \/ exists u r, Text.trimStart s = u :: r /\ Text.isWhiteSpace u = false.
Proof.
  induction s as [|u s IH]; simpl; [now left|].
  destruct (Text.isWhiteSpace u) eqn:E; [exact IH|]. right. eauto.
Qed.

Lemma trimStart_fixed u r :
  Text.isWhiteSpace u = false -> Text.trimStart (u :: r) = u :: r.
Proof. intros H. simpl. now rewrite H. Qed.

Lemma trimEnd_keeps_head u r :
  Text.isWhiteSpace u = false -> exists t, Text.trimEnd (u :: r) = u :: t.
Proof.
  intros H. simpl. destruct (Text.trimEnd r); [rewrite H|]; eauto.
Qed.

Lemma trimEnd_idempotent s : Text.trimEnd (Text.trimEnd s) = Text.trimEnd s.
Proof.
  induction s as [|u s IH]; [reflexivity|]. simpl.
  destruct (Text.trimEnd s) as [|x t] eqn:E.
  - destruct (Text.isWhiteSpace u) eqn:Hu; [reflexivity|].
    simpl. now rewrite Hu.
  - change (Text.trimEnd (u :: x :: t))
      with (match Text.trimEnd (x :: t) with
            | [] => if Text.isWhiteSpace u then [] else [u]
            | y :: t' => u :: y :: t'
            end).
    now rewrite IH.
Qed.

Lemma trimEnd_fixed s :
  Text.isWhiteSpace (List.last s 32%N) = false -> Text.trimEnd s = s.
Proof.
  induction s as [|u s IH]; [reflexivity|]. intros H.
  destruct s as [|x t].
  - simpl in *. now rewrite H.
  - change (List.last (u :: x :: t) 32%N) with (List.last (x :: t) 32%N) in H.
    change (Text.trimEnd (u :: x :: t))
      with (match Text.trimEnd (x :: t) with
            | [] => if Text.isWhiteSpace u then [] else [u]
            | y :: t' => u :: y :: t'
            end).
    now rewrite (IH H).
Qed.

(** [trim] gives a text [trim] leaves alone. *)
Lemma trim_idempotent s : Text.trim (Text.trim s) = Text.trim s.
Proof.
  unfold Text.trim.
  destruct (trimStart_head s) as [->|(u & r & -> & Hu)]; [reflexivity|].
  destruct (trimEnd_keeps_head u r Hu) as [t Ht]. rewrite Ht.
  rewrite (trimStart_fixed u t Hu), <- Ht. apply trimEnd_idempotent.
Qed.

Variable f : N -> N.
Hypothesis f_space : forall u, Text.isWhiteSpace (f u) = Text.isWhiteSpace u.

Lemma trimStart_map s : Text.trimStart (map f s) = map f (Text.trimStart s).
Proof.
  induction s as [|u s IH]; [reflexivity|]. simpl. rewrite f_space.
  destruct (Text.isWhiteSpace u); [exact IH | reflexivity].
Qed.

Lemma trimEnd_map s : Text.trimEnd (map f s) = map f (Text.trimEnd s).
Proof.
  induction s as [|u s IH]; [reflexivity|]. simpl. rewrite IH, f_space.
  destruct (Text.trimEnd s); simpl;
    [destruct (Text.isWhiteSpace u)|]; reflexivity.
Qed.

Lemma trim_map s : Text.trim (map f s) = map f (Text.trim s).
Proof. unfold Text.trim. now rewrite trimStart_map, trimEnd_map. Qed.

End TrimFacts.

Section SanitizerFacts.
Import Route.

Lemma blank_line_breaks_fixed s :
  Forall (fun u => ~ is_line_break u) s -> map blank_line_breaks s = s.
Proof.
  induction 1 as [|u s Hu _ IH]; [reflexivity|]. simpl. rewrite IH.
  f_equal. unfold blank_line_breaks, is_line_break in *.
  destruct (N.eqb_spec u 13); [tauto|].
  destruct (N.eqb_spec u 10); [tauto|].
  destruct (N.eqb_spec u 9); [tauto | reflexivity].
Qed.

Lemma sanitizeUserAgent_trimmed s :
  Text.trim s <> [] ->
  sanitizeUserAgent (Some s)
  = firstn 220 (Text.trim (map blank_line_breaks s)).
Proof.
  intros H. unfold sanitizeUserAgent.
  assert (Hc : (length s =? 0)%nat || (length (Text.trim s) =? 0)%nat = false).
  { apply orb_false_iff. split; apply Nat.eqb_neq.
    - destruct s; [now elim H | simpl; lia].
    - intros Hl. now apply length_zero_iff_nil in Hl. }
  now rewrite Hc.
Qed.

Lemma sanitizeUserAgent_blank s :
  Text.trim s = [] ->
  sanitizeUserAgent (Some s) = Text.of_string DEFAULT_USER_AGENT.
Proof.
  intros H. unfold sanitizeUserAgent. rewrite H. simpl length.
  now rewrite orb_true_r.
Qed.

End SanitizerFacts.

(** X12. The sanitizer leaves an ordinary user agent as it is: an input of
    at most 220 code units that holds no carriage return, line feed or tab
    and neither begins nor ends with white space comes back unchanged. *)
Theorem sanitizeUserAgent_leaves_clean_input (s : list N) :
  (length s <= 220)%nat ->
  Forall (fun u => ~ is_line_break u) s ->
  Text.isWhiteSpace (hd 32%N s) = false ->
  Text.isWhiteSpace (List.last s 32%N) = false ->
  Route.sanitizeUserAgent (Some s) = s.
Proof.
  intros Hlen Hclean Hhd Hlast.
  assert (Htrim : Text.trim s = s).
  { unfold Text.trim. destruct s as [|u r]; [reflexivity|].
    rewrite (trimStart_fixed u r Hhd). now apply trimEnd_fixed. }
  assert (Hne : Text.trim s <> []).
  { rewrite Htrim. destruct s; [discriminate Hhd | discriminate]. }
  rewrite (sanitizeUserAgent_trimmed s Hne).
  rewrite (blank_line_breaks_fixed s Hclean), Htrim.
  now apply firstn_all2.
Qed.

Lemma sanitizeUserAgent_leaves_clean_witness :
  Route.sanitizeUserAgent
    (Some (Text.of_string "Claude-User/1.0 (+https://www.anthropic.com)"))
  = Text.of_string "Claude-User/1.0 (+https://www.anthropic.com)".
Proof.
  apply sanitizeUserAgent_leaves_clean_input.
  - vm_compute. lia.
  - apply no_line_break_checked. reflexivity.
  - reflexivity.
  - reflexivity.
Defined.

(** X13. White space around the input never matters to the sanitizer, so
    the trim the form applies to a custom user agent changes nothing: what
    the server uses for the form's [resolvedUserAgent] is the sanitized
    custom field when the Custom entry is selected, and the sanitized entry
    otherwise. *)
Theorem sanitizer_ignores_surrounding_space :
  (forall s,
     Route.sanitizeUserAgent (Some (Text.trim s))
     = Route.sanitizeUserAgent (Some s))
  /\ (forall agent customAgent,
        Route.sanitizeUserAgent
          (Some (Client.resolvedUserAgent agent customAgent))
        = Route.sanitizeUserAgent
            (Some (if bool_decide (agent = Client.CUSTOM)
                   then customAgent else agent))).
Proof.
  assert (H : forall s,
    Route.sanitizeUserAgent (Some (Text.trim s))
    = Route.sanitizeUserAgent (Some s)).
  { intros s. destruct (Text.trim s) as [|u t] eqn:E.
    - now rewrite (sanitizeUserAgent_blank s E).
    - rewrite <- E.
      rewrite !sanitizeUserAgent_trimmed
        by (rewrite ?trim_idempotent, E; discriminate).
      rewrite !(trim_map _ blank_line_breaks_space), trim_idempotent.
      reflexivity. }
  split; [exact H|].
  intros agent customAgent. unfold Client.resolvedUserAgent.
  destruct (bool_decide (agent = Client.CUSTOM)); [apply H | reflexivity].
Qed.

(** *** The limited reader and the preview *)

Section ReaderFacts.
Import Route.

(** What the reader returns for a body stream, by whether the text decoded
    before the end of the stream goes over the ceiling. *)
Lemma readTextLimited_cases response chunks limitChars :
  body response = Some chunks ->
  0 <= limitChars ->
  let streamed := snd (decode_chunks TextDecoder.initial chunks) in
  let whole := TextDecoder.decode_all (concat chunks) in
  (Z.of_nat (length streamed) <= limitChars
   /\ readTextLimited response limitChars
      = {| read_text := whole; read_truncated := false |})
  \/ (limitChars < Z.of_nat (length streamed)
      /\ exists flushed,
           readTextLimited response limitChars
           = {| read_text := firstn (Z.to_nat limitChars) whole ++ flushed;
                read_truncated := true |}
           /\ (length flushed <= 1)%nat).
Proof.
  intros Hbody Hlimit streamed whole.
  destruct (Z.le_gt_cases (Z.of_nat (length streamed)) limitChars) as [Hle|Hgt].
  - left. split; [exact Hle|].
    rewrite (readTextLimited_stream response chunks Hbody).
    rewrite read_loop_within by exact Hle. cbn [app].
    unfold whole. now rewrite decode_all_chunks.
  - right. split; [exact Hgt|].
    now apply readTextLimited_over.
Qed.

Lemma readTextLimited_length response limitChars :
  0 <= limitChars ->
  Z.of_nat (length (read_text (readTextLimited response limitChars)))
  <= limitChars + 1.
Proof.
  intros Hlimit. destruct (body response) as [chunks|] eqn:Hbody.
  - destruct (readTextLimited_cases response chunks limitChars Hbody Hlimit)
      as [[Hle ->]|[Hgt (flushed & -> & Hf)]]; cbn [read_text].
    + rewrite decode_all_chunks, length_app.
      pose proof (decode_end_length
        (fst (decode_chunks TextDecoder.initial chunks))). lia.
    + rewrite length_app, length_take. lia.
  - unfold readTextLimited. rewrite Hbody. cbn [read_text].
    rewrite slice0_nonneg by exact Hlimit. rewrite length_take. lia.
Qed.

End ReaderFacts.

(** X14. What the limited reader returns for a body stream, for any
    ceiling that is not negative. The flag is set exactly when the text
    decoded before the end of the stream is longer than the ceiling; without
    the flag the text is the whole decoded body; in every case the text
    agrees with the decoded body on its first [limitChars] characters, and
    is at most one character longer than the ceiling. *)
Theorem limited_reader_contract
    (response : Route.Response) (chunks : list (list Byte.byte))
    (limitChars : Z) :
  Route.body response = Some chunks ->
  0 <= limitChars ->
  let read := Route.readTextLimited response limitChars in
  let whole := TextDecoder.decode_all (concat chunks) in
  let streamed := snd (decode_chunks TextDecoder.initial chunks) in
  (Route.read_truncated read = true
   <-> limitChars < Z.of_nat (length streamed))
  /\ (Route.read_truncated read = false -> Route.read_text read = whole)
  /\ firstn (Z.to_nat limitChars) (Route.read_text read)
     = firstn (Z.to_nat limitChars) whole
  /\ Z.of_nat (length (Route.read_text read)) <= limitChars + 1.
Proof.
  intros Hbody Hlimit. cbv zeta.
  pose proof (readTextLimited_length response limitChars Hlimit) as Hlen.
  pose proof (decode_all_chunks chunks) as Hwhole.
  destruct (readTextLimited_cases response chunks limitChars Hbody Hlimit)
    as [[Hle Hr]|[Hgt (flushed & Hr & Hf)]];
    rewrite Hr in *; cbn [Route.read_text Route.read_truncated] in *.
  - split; [split; [discriminate | lia]|].
    split; [reflexivity|]. split; [reflexivity | exact Hlen].
  - split; [split; [intros _; exact Hgt | reflexivity]|].
    split; [discriminate|]. split; [|exact Hlen].
    rewrite take_app_le; [now rewrite take_take, Nat.min_id|].
    rewrite length_take.
    apply (f_equal (@length N)) in Hwhole. rewrite length_app in Hwhole.
    lia.
Qed.

Lemma limited_reader_contract_witness :
  let response :=
    response_of (Some [[Byte.x61; Byte.xc3]; [Byte.xa9; Byte.x61]; [Byte.x61]])
                [] in
  let read := Route.readTextLimited response 2 in
  (Route.read_truncated read = true <-> 2 < 3)
  /\ (Route.read_truncated read = false -> Route.read_text read = [97; 233; 97; 97]%N)
  /\ firstn 2 (Route.read_text read) = [97; 233]%N
  /\ Z.of_nat (length (Route.read_text read)) <= 3.
Proof.
  exact (limited_reader_contract
           (response_of
              (Some [[Byte.x61; Byte.xc3]; [Byte.xa9; Byte.x61]; [Byte.x61]]) [])
           [[Byte.x61; Byte.xc3]; [Byte.xa9; Byte.x61]; [Byte.x61]] 2
           eq_refl ltac:(lia)).
Defined.

(** X15. The preview of a verdict. A verdict that found no Markdown
    carries an empty preview and no truncation flag, whatever the body of
    the response, and a preview is never more than one character longer
    than 50,000 characters. *)
Theorem preview_is_bounded (response : Route.Response) :
  let verdict := Route.classify response in
  (Route.found verdict = false ->
   Route.markdown verdict = [] /\ Route.truncated verdict = false)
  /\ Z.of_nat (length (Route.markdown verdict)) <= 50001.
Proof.
  cbv zeta. unfold Route.classify.
  destruct (Route.ok response && Route.isMarkdownContentType
                                   (Route.content_type response)) eqn:E;
    cbn [Route.found Route.markdown Route.truncated].
  - split; [discriminate|].
    apply (readTextLimited_length response Route.MAX_MARKDOWN_CHARS).
    unfold Route.MAX_MARKDOWN_CHARS. lia.
  - split; [intros _; split; reflexivity | simpl; lia].
Qed.

(** *** The header record of the diagnostics *)

Section RecordFacts.
Import Diagnostics.

Lemma asRecord_snoc headers key value :
  asRecord (headers ++ [(key, value)]) = assign (asRecord headers) key value.
Proof. unfold asRecord. now rewrite fold_left_app. Qed.

Lemma assign_lookup out key value k :
  assign out key value !! k
  = if String.eqb key "__proto__" then out !! k
    else if bool_decide (key = k) then Some value else out !! k.
Proof.
  unfold assign. destruct (String.eqb key "__proto__"); [reflexivity|].
  destruct (bool_decide_reflect (key = k)) as [->|Hne].
  - apply lookup_insert_eq.
  - now apply lookup_insert_ne.
Qed.

End RecordFacts.

(** X16. The header record keeps, for each name, the value of the last
    entry of that name, and nothing under the name [__proto__]: a name that
    comes more than once in the entries (as set-cookie does) shows its last
    value only. *)
Theorem asRecord_keeps_the_last_entry
    (headers : list (string * string)) (k v : string) :
  Diagnostics.asRecord headers !! k = Some v
  <-> k <> "__proto__"
      /\ exists before after,
           headers = before ++ (k, v) :: after
           /\ ~ In k (map fst after).
Proof.
  induction headers as [|[key value] headers IH] using rev_ind.
  - split; [discriminate|]. intros [_ (before & after & H & _)].
    now destruct before.
  - rewrite asRecord_snoc, assign_lookup.
    destruct (String.eqb_spec key "__proto__") as [Hp|Hp].
    + rewrite IH. split.
      * intros [Hk (before & after & -> & Hafter)].
        split; [exact Hk|]. exists before, (after ++ [(key, value)]).
        split; [now rewrite <- app_assoc|].
        rewrite map_app, in_app_iff. simpl. intros [H|[H|[]]]; [tauto|].
        congruence.
      * intros [Hk (before & after & H & Hafter)].
        split; [exact Hk|].
        destruct after as [|e after _] using rev_ind.
        { apply app_inj_tail in H as [_ H]. congruence. }
        rewrite app_comm_cons, app_assoc in H.
        apply app_inj_tail in H as [-> _].
        exists before, after. split; [reflexivity|].
        intros Hin. apply Hafter. rewrite map_app, in_app_iff. now left.
    + destruct (bool_decide_reflect (key = k)) as [->|Hne].
      * split.
        { intros [= ->]. split; [exact Hp|].
          exists headers, []. split; [reflexivity | intros []]. }
        intros [_ (before & after & H & Hafter)].
        destruct after as [|e after _] using rev_ind.
        { apply app_inj_tail in H as [_ H]. congruence. }
        exfalso. rewrite app_comm_cons, app_assoc in H.
        apply app_inj_tail in H as [_ <-].
        apply Hafter. rewrite map_app, in_app_iff. right. now left.
      * rewrite IH. split.
        { intros [Hk (before & after & -> & Hafter)].
          split; [exact Hk|]. exists before, (after ++ [(key, value)]).
          split; [now rewrite <- app_assoc|].
          rewrite map_app, in_app_iff. simpl. intros [H|[H|[]]]; tauto. }
        intros [Hk (before & after & H & Hafter)].
        split; [exact Hk|].
        destruct after as [|e after _] using rev_ind.
        { apply app_inj_tail in H as [_ H]. congruence. }
        rewrite app_comm_cons, app_assoc in H.
        apply app_inj_tail in H as [-> _].
        exists before, after. split; [reflexivity|].
        intros Hin. apply Hafter. rewrite map_app, in_app_iff. now left.
Qed.

(** *** The handler: accounting, statuses, and what reaches fetch *)

Section HandlerFacts.
Import RateLimit Route.

Lemma assertSupportedUrl_supported parse rawUrl target :
  Security.assertSupportedUrl parse rawUrl = Return target -> supported target.
Proof.
  unfold Security.assertSupportedUrl, supported.
  destruct (parse rawUrl) as [parsed|e]; [|discriminate].
  cbn [existsb orb].
  destruct (String.eqb_spec (Security.protocol parsed) "http:");
  destruct (String.eqb_spec (Security.protocol parsed) "https:");
  destruct (String.eqb_spec (Security.username parsed) EmptyString);
  destruct (String.eqb_spec (Security.password parsed) EmptyString);
    cbn [orb negb]; intros H; try discriminate H; injection H as <-; tauto.
Qed.

Lemma probe_stage_status outcome :
  status_of (probe_stage outcome) = 200
  \/ status_of (probe_stage outcome) = 502
  \/ status_of (probe_stage outcome) = 504.
Proof.
  destruct outcome as [response|error]; cbn; [now left|].
  destruct (isTimeout error); tauto.
Qed.

(** The store after the handler is the store after its call of the
    limiter. *)
Lemma POST_store rt request store :
  snd (POST rt request store)
  = snd (enforceRateLimit (upstashLimiter rt) (now rt)
           (getIpFromRequest request) store).
Proof.
  unfold POST.
  destruct (enforceRateLimit _ _ _ _) as [rate store']. cbn [snd].
  destruct (success rate); cbn [negb]; [|reflexivity].
  destruct (json request) as [body|]; [|reflexivity].
  destruct (url body) as [raw|]; [|reflexivity].
  destruct (String.eqb raw EmptyString); [reflexivity|].
  destruct (Security.assertSupportedUrl _ _) as [target|e]; [|reflexivity].
  destruct (snd (run _ _)); [|reflexivity].
  now destruct (probe_stage _).
Qed.

(** A refused call of the limiter gives the 429 reply with its headers. *)
Lemma POST_refused rt request store :
  success (fst (enforceRateLimit (upstashLimiter rt) (now rt)
                  (getIpFromRequest request) store)) = false ->
  fst (POST rt request store)
  = (RateLimited 429 "Rate limit exceeded. Try again in a few minutes.",
     Some (fst (enforceRateLimit (upstashLimiter rt) (now rt)
                  (getIpFromRequest request) store))).
Proof.
  unfold POST.
  destruct (enforceRateLimit _ _ _ _) as [rate store']. cbn [fst].
  now intros ->.
Qed.

(** An accepted call gives a reply of status 200, 400, 502 or 504, with the
    headers on 200 only. *)
Lemma POST_accepted rt request store :
  success (fst (enforceRateLimit (upstashLimiter rt) (now rt)
                  (getIpFromRequest request) store)) = true ->
  let reply := fst (fst (POST rt request store)) in
  let headers := snd (fst (POST rt request store)) in
  (status_of reply = 200
   /\ headers = Some (fst (enforceRateLimit (upstashLimiter rt) (now rt)
                             (getIpFromRequest request) store)))
  \/ ((status_of reply = 400 \/ status_of reply = 502 \/ status_of reply = 504)
      /\ headers = None).
Proof.
  unfold POST.
  destruct (enforceRateLimit _ _ _ _) as [rate store']. cbn [fst].
  intros ->. cbn [negb].
  destruct (json request) as [body|]; [|right; cbn; tauto].
  destruct (url body) as [raw|]; [|right; cbn; tauto].
  destruct (String.eqb raw EmptyString); [right; cbn; tauto|].
  destruct (Security.assertSupportedUrl _ _) as [target|e];
    [|right; cbn; tauto].
  destruct (snd (run _ _)); [|right; cbn; tauto].
  pose proof (probe_stage_status
    (fetch rt target (sanitizeUserAgent (userAgent body)))) as Hs.
  destruct (probe_stage _) as [code verdict|code msg|code msg|r] eqn:E;
    cbn [fst snd status_of] in *.
  - destruct (fetch rt target _); cbn in E; [|discriminate E].
    injection E as <- _. now left.
  - destruct (fetch rt target _); discriminate E.
  - destruct (fetch rt target _); discriminate E.
  - right. split; [|reflexivity].
    destruct (fetch rt target _) as [response|error]; [discriminate E|].
    cbn in E. injection E as <-. cbn. destruct (isTimeout error); tauto.
Qed.

Lemma serve_app requests1 requests2 store :
  serve (requests1 ++ requests2) store
  = (fst (serve requests1 store)
       ++ fst (serve requests2 (snd (serve requests1 store))),
     snd (serve requests2 (snd (serve requests1 store)))).
Proof.
  revert store. induction requests1 as [|[rt request] rest IH]; intros store.
  - cbn. now destruct (serve requests2 store).
  - cbn [serve app]. destruct (POST rt request store) as [[reply headers] s1].
    rewrite IH. destruct (serve rest s1) as [replies s2]. reflexivity.
Qed.

(** Without a remote limiter, serving requests runs their calls through the
    fallback, and a reply is a 429 exactly when its call was refused. *)
Lemma serve_runs_the_calls requests :
  forall store,
    Forall (fun entry => upstashLimiter (fst entry) = None) requests ->
    snd (serve requests store) = snd (run_calls (map call_of requests) store)
    /\ Forall2 (fun reply rate =>
                  (success rate = true -> status_of (fst reply) <> 429)
                  /\ (success rate = false ->
                      reply
                      = (RateLimited 429
                           "Rate limit exceeded. Try again in a few minutes.",
                         Some rate)))
               (fst (serve requests store))
               (fst (run_calls (map call_of requests) store)).
Proof.
  induction requests as [|[rt request] rest IH]; intros store Hnone.
  - cbn. split; [reflexivity | constructor].
  - inversion Hnone as [|? ? Hrt Hrest]; subst. cbn [fst] in Hrt.
    cbn [map]. unfold call_of at 1 3. cbn [fst snd].
    rewrite run_calls_step. cbn [serve fst snd].
    pose proof (POST_store rt request store) as Hstore.
    pose proof (POST_refused rt request store) as Hrefused.
    pose proof (POST_accepted rt request store) as Haccepted.
    rewrite Hrt in Hstore, Hrefused, Haccepted. fold check in *.
    destruct (POST rt request store) as [[reply headers] s1].
    cbn [fst snd] in *. subst s1.
    destruct (IH (snd (check (now rt) (getIpFromRequest request) store)) Hrest)
      as [IHs IHr].
    destruct (serve rest _) as [replies s2]. cbn [fst snd] in *.
    split; [exact IHs|]. constructor; [|exact IHr]. split.
    + intros Hok. destruct (Haccepted Hok) as [[H _]|[H _]]; cbn [fst]; lia.
    + intros Hno. now rewrite (Hrefused Hno).
Qed.

End HandlerFacts.

(** X17. With the in-process fallback (no remote limiter configured),
    every request is counted, whatever becomes of it: the store after the
    handler is the store after its one call of the limiter, with the client
    identifier of the request, also when the body is not JSON or the target
    is refused. The status of the reply is 200, 400, 429, 502 or 504; it is
    429 exactly when the limiter refused the call; and the reply carries
    the rate-limit headers, with the result of that call, exactly on 200 and
    429. (The body of the request is a JSON object whose [url] and
    [userAgent], when present, are strings, or is no JSON at all.) *)
Theorem POST_counts_every_request
    (rt : Route.Runtime) (request : Route.NextRequest)
    (store : gmap string (list Z)) :
  Route.upstashLimiter rt = None ->
  let called :=
    RateLimit.check (Route.now rt) (Route.getIpFromRequest request) store in
  let reply := fst (fst (Route.POST rt request store)) in
  let headers := snd (fst (Route.POST rt request store)) in
  snd (Route.POST rt request store) = snd called
  /\ In (status_of reply) [200; 400; 429; 502; 504]
  /\ (status_of reply = 429 <-> RateLimit.success (fst called) = false)
  /\ headers
     = (if bool_decide (status_of reply = 200 \/ status_of reply = 429)
        then Some (fst called) else None).
Proof.
  intros Hnone. cbv zeta.
  pose proof (POST_store rt request store) as Hstore.
  pose proof (POST_accepted rt request store) as Haccepted.
  pose proof (POST_refused rt request store) as Hrefused.
  rewrite Hnone in Hstore, Haccepted, Hrefused.
  fold RateLimit.check in Hstore, Haccepted, Hrefused.
  split; [exact Hstore|].
  destruct (RateLimit.success
              (fst (RateLimit.check (Route.now rt)
                      (Route.getIpFromRequest request) store)))
    eqn:Hok.
  - destruct (Haccepted eq_refl) as [[Hs ->]|[Hs ->]]; cbv zeta in Hs.
    + rewrite Hs. cbn. split; [tauto|]. split; [split; [lia | discriminate]|].
      reflexivity.
    + split; [cbn; intuition lia|].
      split; [split; [lia | discriminate]|].
      rewrite bool_decide_eq_false_2; [reflexivity | lia].
  - rewrite (Hrefused eq_refl). cbn [fst snd status_of].
    cbn. split; [tauto|]. split; [tauto | reflexivity].
Qed.

Lemma POST_counts_every_request_witness :
  let rt :=
    {| Route.upstashLimiter := None; Route.now := 5000;
       Route.parse := fun _ => Throw "Invalid URL.";
       Route.lookup := fun _ => Return [];
       Route.fetch := fun _ _ => inr (Route.OtherValue "unused") |} in
  let request :=
    {| Route.x_forwarded_for := Some "198.51.100.7"; Route.x_real_ip := None;
       Route.json := None |} in
  Route.POST rt request ∅
  = (Route.BadRequest 400 "Invalid JSON body.", None,
     {[ "198.51.100.7" := [5000] ]}).
Proof.
  cbv zeta.
  match goal with
  | |- Route.POST ?rt ?request ?store = _ =>
      pose proof (POST_counts_every_request rt request store eq_refl) as H
  end.
  cbv zeta in H. destruct H as (Hstore & _ & _ & Hheaders).
  match goal with
  | |- ?post = _ =>
      rewrite (surjective_pairing post), (surjective_pairing (fst post)),
        Hstore, Hheaders
  end.
  vm_compute. reflexivity.
Defined.

(** X18. The handler asks fetch about vetted targets only: two fetches
    that agree on every target that has the protocol http: or https: and no
    credentials and that assertSafeTarget lets through, with a user agent
    the sanitizer gives out, get the same reply, headers and store from the
    handler. No reply depends on what fetch would do for a target that
    failed a check. *)
Theorem fetch_sees_vetted_targets_only
    (rt : Route.Runtime) (request : Route.NextRequest)
    (store : gmap string (list Z))
    (f g : Security.URL -> list N -> Route.Response + Route.Thrown) :
  (forall target userAgent,
     supported target ->
     snd (run (Route.lookup rt) (Security.assertSafeTarget target))
     = Return tt ->
     (exists input, userAgent = Route.sanitizeUserAgent input) ->
     f target userAgent = g target userAgent) ->
  Route.POST (with_fetch rt f) request store
  = Route.POST (with_fetch rt g) request store.
Proof.
  intros Hagree. unfold Route.POST, with_fetch.
  cbn [Route.upstashLimiter Route.now Route.parse Route.lookup Route.fetch].
  destruct (RateLimit.enforceRateLimit _ _ _ _) as [rate store'].
  destruct (RateLimit.success rate); cbn [negb]; [|reflexivity].
  destruct (Route.json request) as [body|]; [|reflexivity].
  destruct (Route.url body) as [raw|]; [|reflexivity].
  destruct (String.eqb raw EmptyString); [reflexivity|].
  destruct (Security.assertSupportedUrl _ _) as [target|e] eqn:Hsup;
    [|reflexivity].
  destruct (snd (run _ _)) as [[]|e] eqn:Hsafe; [|reflexivity].
  rewrite (Hagree target (Route.sanitizeUserAgent (Route.userAgent body))
             (assertSupportedUrl_supported _ _ _ Hsup) Hsafe
             (ex_intro _ _ eq_refl)).
  reflexivity.
Qed.

Lemma fetch_sees_vetted_targets_only_witness :
  let rt :=
    {| Route.upstashLimiter := None; Route.now := 0;
       Route.parse := fun _ =>
         Return {| Security.protocol := "https:";
                   Security.username := EmptyString;
                   Security.password := EmptyString;
                   Security.hostname := "93.184.216.34" |};
       Route.lookup := fun _ => Return [];
       Route.fetch := fun _ _ => inr (Route.OtherValue "unused") |} in
  let request :=
    {| Route.x_forwarded_for := None; Route.x_real_ip := None;
       Route.json := Some {| Route.url := Some "https://93.184.216.34/";
                             Route.userAgent := None |} |} in
  Route.POST
    (with_fetch rt (fun target _ =>
       if String.eqb (Security.protocol target) "ftp:"
       then inr (Route.OtherValue "never asked")
       else inr (Route.ErrorObject "TypeError" "fetch failed")))
    request ∅
  = Route.POST
      (with_fetch rt (fun _ _ =>
         inr (Route.ErrorObject "TypeError" "fetch failed")))
      request ∅.
Proof.
  cbv zeta. apply fetch_sees_vetted_targets_only.
  intros target userAgent [[Hp|Hp] _] _ _; rewrite Hp; reflexivity.
Defined.

(** X19. The limit at the handler. Without a remote limiter, when thirty
    requests of one client identifier, of any kind, have been served within
    one window (nothing of the identifier still counted at its start), none
    of them is answered 429, and a further request of the identifier within
    the window is answered 429 with the rate-limit headers of a refused
    call, [remaining] 0 and [limit] 30: requests that were not JSON or named
    a refused target count like the others. *)
Theorem thirty_first_request_is_refused
    (T0 : Z) (ip : string)
    (requests : list (Route.Runtime * Route.NextRequest))
    (last : Route.Runtime * Route.NextRequest)
    (store : gmap string (list Z)) :
  Forall (fun entry =>
            Route.upstashLimiter (fst entry) = None
            /\ Route.getIpFromRequest (snd entry) = ip
            /\ in_window T0 (Route.now (fst entry)))
         (requests ++ [last]) ->
  length requests = 30%nat ->
  Forall (expired T0) (default [] (store !! ip)) ->
  exists accepted rate,
    fst (serve (requests ++ [last]) store)
    = accepted
        ++ [(Route.RateLimited 429
               "Rate limit exceeded. Try again in a few minutes.",
             Some rate)]
    /\ length accepted = 30%nat
    /\ Forall (fun reply => status_of (fst reply) <> 429) accepted
    /\ RateLimit.success rate = false
    /\ RateLimit.remaining rate = 0
    /\ RateLimit.limit rate = 30.
Proof.
  intros Hall Hlen Hstale.
  apply Forall_app in Hall as [Hreqs Hlast].
  apply Forall_cons_1 in Hlast as [(Hnone & Hip & Hwin) _].
  set (times := map (fun entry => Route.now (fst entry)) requests).
  assert (Hcalls : map call_of requests = map (pair ip) times).
  { unfold times. rewrite map_map. apply map_ext_Forall.
    eapply Forall_impl; [exact Hreqs|].
    intros [rt request] (_ & H & _). unfold call_of. cbn [fst snd] in *.
    now rewrite H. }
  assert (Htimes : Forall (in_window T0) times).
  { unfold times. apply Forall_map.
    eapply Forall_impl; [exact Hreqs|]. now intros entry (_ & _ & H). }
  assert (Hnones : Forall (fun entry => Route.upstashLimiter (fst entry) = None)
                          requests).
  { eapply Forall_impl; [exact Hreqs|]. now intros entry (H & _). }
  destruct (serve_runs_the_calls requests store Hnones) as [Hstore Hreplies].
  rewrite Hcalls in Hstore, Hreplies.
  destruct (run_in_window ip T0 times store (default [] (store !! ip)) [])
    as (Hok & Hn & stale' & Hst & Hex).
  { now rewrite app_nil_r. }
  { exact Hstale. }
  { constructor. }
  { exact Htimes. }
  { unfold times. rewrite length_map, Hlen. unfold RateLimit.LIMIT.
    simpl. lia. }
  cbn [app] in Hst. rewrite <- Hstore in Hst.
  rewrite serve_app. cbn [fst].
  destruct last as [rt request]. cbn [fst snd] in *.
  set (store1 := snd (serve requests store)) in *.
  assert (Hfresh : RateLimit.fresh_of (Route.now rt)
                     (default [] (store1 !! ip)) = times).
  { rewrite Hst. now apply (fresh_of_expired_kept T0). }
  assert (Hge : RateLimit.LIMIT
                <= Z.of_nat (length (RateLimit.fresh_of (Route.now rt)
                                       (default [] (store1 !! ip))))).
  { rewrite Hfresh. unfold times. rewrite length_map, Hlen.
    unfold RateLimit.LIMIT. simpl. lia. }
  pose proof (check_rejected _ _ _ Hge) as Hcheck.
  unfold RateLimit.check in Hcheck.
  pose proof (POST_refused rt request store1) as Hrefused.
  rewrite Hnone, Hip, Hcheck in Hrefused. cbn [fst RateLimit.success] in Hrefused.
  specialize (Hrefused eq_refl).
  cbn [serve]. destruct (Route.POST rt request store1) as [[reply headers] s2].
  cbn [fst] in Hrefused. injection Hrefused as -> ->. cbn [fst].
  eexists _, _. split; [reflexivity|].
  split.
  { rewrite (Forall2_length _ _ _ Hreplies), Hn. unfold times.
    now rewrite length_map. }
  split; [|now cbn].
  clear - Hreplies Hok.
  induction Hreplies as [|reply rate replies rates [Hyes _] _ IH];
    [constructor|].
  apply Forall_cons_1 in Hok as [[Hs _] Hrest].
  constructor; [exact (Hyes Hs) | exact (IH Hrest)].
Qed.

Lemma thirty_first_request_witness :
  let rt :=
    {| Route.upstashLimiter := None; Route.now := 1000;
       Route.parse := fun _ => Throw "Invalid URL.";
       Route.lookup := fun _ => Return [];
       Route.fetch := fun _ _ => inr (Route.OtherValue "unused") |} in
  let malformed :=
    {| Route.x_forwarded_for := Some "203.0.113.9, 10.0.0.1";
       Route.x_real_ip := None; Route.json := None |} in
  let wellformed :=
    {| Route.x_forwarded_for := Some "203.0.113.9";
       Route.x_real_ip := None;
       Route.json := Some {| Route.url := Some "https://example.com/";
                             Route.userAgent := None |} |} in
  exists accepted rate,
    fst (serve (replicate 30 (rt, malformed) ++ [(rt, wellformed)]) ∅)
    = accepted
        ++ [(Route.RateLimited 429
               "Rate limit exceeded. Try again in a few minutes.",
             Some rate)]
    /\ length accepted = 30%nat
    /\ Forall (fun reply => status_of (fst reply) <> 429) accepted
    /\ RateLimit.success rate = false
    /\ RateLimit.remaining rate = 0
    /\ RateLimit.limit rate = 30.
Proof.
  cbv zeta. apply (thirty_first_request_is_refused 0 "203.0.113.9").
  - apply Forall_app. split; [apply Forall_replicate | apply Forall_singleton];
      (split; [reflexivity | split; [reflexivity|]]);
      unfold in_window, RateLimit.WINDOW_MS; cbn; lia.
  - reflexivity.
  - rewrite lookup_empty. constructor.
Defined.

(** *** The handler: refused targets *)

Section RefusedTargets.
Import JS Security Wording RateLimit Route.

(** What the handler answers when the target check throws. *)
Lemma POST_refused_target rt request store body raw target message :
  success (fst (enforceRateLimit (upstashLimiter rt) (now rt)
                  (getIpFromRequest request) store)) = true ->
  json request = Some body ->
  url body = Some raw ->
  raw <> EmptyString ->
  assertSupportedUrl (parse rt) (trim raw) = Return target ->
  snd (run (lookup rt) (assertSafeTarget target)) = Throw message ->
  fst (POST rt request store) = (BadRequest 400 message, None).
Proof.
  intros Hrate Hjson Hurl Hraw Hsup Hsafe. unfold POST.
  destruct (enforceRateLimit _ _ _ _) as [rate store'].
  cbn [fst] in Hrate. rewrite Hrate, Hjson, Hurl. cbn [negb].
  destruct (String.eqb_spec raw EmptyString) as [E|_]; [contradiction|].
  now rewrite Hsup, Hsafe.
Qed.

End RefusedTargets.

(** X20. What the handler answers for a target it refuses, once the
    limiter has accepted the call and the URL has passed assertSupportedUrl:
    status 400 without rate-limit headers, with the message of the check.
    That is the local-target message for localhost and names ending in
    .local; the private-range message for every dotted quad in the private
    ranges; and, for a name, the error of the resolver, the
    could-not-resolve message for an empty answer, and the resolved-private
    message when some record of the answer is private. *)
Theorem refused_targets_are_answered_400
    (rt : Route.Runtime) (request : Route.NextRequest)
    (store : gmap string (list Z))
    (body : Route.RequestBody) (raw : string) (target : Security.URL) :
  RateLimit.success
    (fst (RateLimit.enforceRateLimit (Route.upstashLimiter rt) (Route.now rt)
            (Route.getIpFromRequest request) store)) = true ->
  Route.json request = Some body ->
  Route.url body = Some raw ->
  raw <> EmptyString ->
  Security.assertSupportedUrl (Route.parse rt) (JS.trim raw) = Return target ->
  let host := JS.toLowerCase (Security.hostname target) in
  let reply := fst (Route.POST rt request store) in
  (local_name host = true ->
   reply = (Route.BadRequest 400 Security.LOCAL_BLOCKED, None))
  /\ (forall a b c d,
        0 <= a <= 255 -> 0 <= b <= 255 -> 0 <= c <= 255 -> 0 <= d <= 255 ->
        Wording.in_private_ranges a b = true ->
        Security.hostname target = Wording.dotted a b c d ->
        reply = (Route.BadRequest 400 Security.PRIVATE_IP_BLOCKED, None))
  /\ (local_name host = false ->
      JS.isIP host = 0 ->
      match Route.lookup rt host with
      | Throw e => reply = (Route.BadRequest 400 e, None)
      | Return records =>
          (records = [] ->
           reply = (Route.BadRequest 400 Security.RESOLUTION_FAILED, None))
          /\ (Exists (fun r => Security.isPrivateIp (address r) = true)
                     records ->
              reply = (Route.BadRequest 400 Security.RESOLVED_PRIVATE, None))
      end).
Proof.
  intros Hrate Hjson Hurl Hraw Hsup host reply.
  pose proof (fun message =>
    POST_refused_target rt request store body raw target message
      Hrate Hjson Hurl Hraw Hsup) as Hrefused.
  fold reply in Hrefused. split; [|split].
  - intros Hl. apply Hrefused. now rewrite (assertSafeTarget_local target Hl).
  - intros a b c d Ha Hb Hc Hd Hin Hhost. apply Hrefused.
    pose proof (dotted_quad_chars a b c d Ha Hb Hc Hd) as Hq.
    assert (Hlow : host = Wording.dotted a b c d).
    { unfold host. rewrite Hhost. now apply quad_char_lower. }
    assert (Hl : local_name host = false).
    { rewrite Hlow. now apply quad_chars_not_local. }
    assert (Hip : JS.isIP host <> 0).
    { rewrite Hlow.
      rewrite (proj2 (isIP_4_iff _) (isIPv4_dotted a b c d Ha Hb Hc Hd)).
      discriminate. }
    rewrite (assertSafeTarget_literal target Hl Hip). fold host.
    rewrite Hlow, (isPrivateIp_quad a b c d Ha Hb Hc Hd), Hin. reflexivity.
  - intros Hl Hip.
    pose proof (assertSafeTarget_name target Hl Hip) as Hname. fold host in Hname.
    destruct (Route.lookup rt host) as [records|e] eqn:Hdns.
    + split.
      * intros ->. apply Hrefused. rewrite Hname. cbn [run].
        rewrite Hdns. reflexivity.
      * intros Hex. apply Hrefused. rewrite Hname. cbn [run].
        rewrite Hdns. destruct records as [|r records]; [inversion Hex|].
        cbn [length Nat.eqb run snd].
        now rewrite (check_records_throws _ Hex).
    + apply Hrefused. rewrite Hname. cbn [run]. rewrite Hdns. reflexivity.
Qed.

Lemma refused_targets_witness :
  fst (Route.POST
         {| Route.upstashLimiter := None; Route.now := 0;
            Route.parse := fun _ =>
              Return {| Security.protocol := "http:";
                        Security.username := EmptyString;
                        Security.password := EmptyString;
                        Security.hostname := "169.254.169.254" |};
            Route.lookup := fun _ => Return [];
            Route.fetch := fun _ _ => inr (Route.OtherValue "unused") |}
         {| Route.x_forwarded_for := None; Route.x_real_ip := None;
            Route.json :=
              Some {| Route.url := Some " http://169.254.169.254/latest/ ";
                      Route.userAgent := None |} |}
         ∅)
  = (Route.BadRequest 400 Security.PRIVATE_IP_BLOCKED, None).
Proof.
  match goal with
  | |- fst (Route.POST ?rt ?request ?store) = _ =>
      pose proof (refused_targets_are_answered_400 rt request store
        {| Route.url := Some " http://169.254.169.254/latest/ ";
           Route.userAgent := None |}
        " http://169.254.169.254/latest/ "
        {| Security.protocol := "http:";
           Security.username := EmptyString;
           Security.password := EmptyString;
           Security.hostname := "169.254.169.254" |}) as H
  end.
  cbv zeta in H.
  destruct H as (_ & H & _);
    [vm_compute; reflexivity | reflexivity | reflexivity | discriminate
    | reflexivity |].
  apply (H 169 254 169 254); first [lia | reflexivity].
Defined.

(** *** The limited reader on ASCII bodies *)

Section AsciiBodies.
Import TextDecoder Route.

Lemma ascii_feed st bytes :
  bytes_needed st = 0%N -> Forall is_ascii bytes ->
  feed st bytes = (st, map Byte.to_N bytes).
Proof.
  intros Hst. induction 1 as [|b r Hb _ IH]; [reflexivity|].
  cbn [feed map]. unfold handler, lead_byte. rewrite Hst. cbn [N.eqb].
  unfold is_ascii in Hb.
  destruct (N.leb_spec (Byte.to_N b) 127) as [_|Hgt]; [|lia].
  now rewrite IH.
Qed.

Lemma ascii_serialize seen cps :
  Forall (fun cp => (cp <= 127)%N) cps ->
  exists seen', serialize seen cps = (seen', cps).
Proof.
  intros H. revert seen. induction H as [|cp r Hcp _ IH]; intros seen.
  - now exists seen.
  - cbn [serialize]. destruct (IH true) as [seen' ->]. exists seen'.
    f_equal. destruct (N.eqb_spec cp 65279) as [E|_]; [lia|].
    rewrite andb_false_r. unfold code_units.
    destruct (N.ltb_spec cp 65536) as [_|Hge]; [reflexivity | lia].
Qed.

Lemma ascii_decode_stream st value :
  bytes_needed st = 0%N -> Forall is_ascii value ->
  exists seen,
    decode_stream st value = (with_bom st seen, map Byte.to_N value).
Proof.
  intros Hst Hvalue. unfold decode_stream.
  rewrite (ascii_feed st value Hst Hvalue).
  destruct (ascii_serialize (bom_seen st) (map Byte.to_N value))
    as [seen ->]; [|now exists seen].
  apply Forall_map. exact Hvalue.
Qed.

Lemma ascii_decode_chunks chunks :
  forall st,
    bytes_needed st = 0%N -> Forall (Forall is_ascii) chunks ->
    bytes_needed (fst (decode_chunks st chunks)) = 0%N
    /\ snd (decode_chunks st chunks) = map Byte.to_N (concat chunks).
Proof.
  induction chunks as [|value rest IH]; intros st Hst Hall.
  - now split.
  - apply Forall_cons_1 in Hall as [Hvalue Hrest].
    cbn [decode_chunks concat].
    destruct (ascii_decode_stream st value Hst Hvalue) as [seen ->].
    destruct (IH (with_bom st seen) Hst Hrest) as [Hn Hout].
    destruct (decode_chunks (with_bom st seen) rest) as [st2 out2].
    cbn [fst snd] in *. split; [exact Hn|]. now rewrite Hout, map_app.
Qed.

End AsciiBodies.

(** X21. On a body of ASCII bytes the ceiling is exact, however the body
    is cut into chunks: the reader gives the first [limitChars] bytes of the
    body as characters, and sets the flag exactly when the body has more
    than [limitChars] bytes. *)
Theorem ascii_body_is_cut_at_the_ceiling
    (response : Route.Response) (chunks : list (list Byte.byte))
    (limitChars : Z) :
  Route.body response = Some chunks ->
  0 <= limitChars ->
  Forall (Forall is_ascii) chunks ->
  Route.readTextLimited response limitChars
  = {| Route.read_text :=
         firstn (Z.to_nat limitChars) (map Byte.to_N (concat chunks));
       Route.read_truncated :=
         limitChars <? Z.of_nat (length (concat chunks)) |}.
Proof.
  intros Hbody Hlimit Hascii.
  destruct (ascii_decode_chunks chunks TextDecoder.initial eq_refl Hascii)
    as [Hclosed Hout].
  assert (Hlen : length (snd (decode_chunks TextDecoder.initial chunks))
                 = length (concat chunks)).
  { now rewrite Hout, length_map. }
  rewrite (readTextLimited_stream response chunks Hbody).
  destruct (Z.ltb_spec limitChars (Z.of_nat (length (concat chunks))))
    as [Hover|Hwithin].
  - destruct (read_loop_over limitChars TextDecoder.initial [] chunks)
      as (pre & post & Hsplit & _ & ->);
      [exact Hlimit | simpl; lia | cbn [app]; lia|].
    cbn [app]. rewrite Hout.
    assert (Hpre : Forall (Forall is_ascii) pre).
    { rewrite Hsplit in Hascii. now apply Forall_app in Hascii as [H _]. }
    destruct (ascii_decode_chunks pre TextDecoder.initial eq_refl Hpre)
      as [Hn _].
    rewrite (proj2 (decode_end_nil _) Hn), app_nil_r.
    reflexivity.
  - rewrite read_loop_within by (cbn [app]; lia). cbn [app].
    rewrite (proj2 (decode_end_nil _) Hclosed), app_nil_r, Hout.
    rewrite firstn_all2; [reflexivity|]. rewrite length_map. lia.
Qed.

Lemma ascii_body_witness :
  Route.readTextLimited
    (response_of (Some [[Byte.x23; Byte.x20]; [Byte.x48; Byte.x69]; []]) [])
    3
  = {| Route.read_text := [35; 32; 72]%N; Route.read_truncated := true |}.
Proof.
  apply (ascii_body_is_cut_at_the_ceiling
           (response_of (Some [[Byte.x23; Byte.x20]; [Byte.x48; Byte.x69]; []])
                        [])
           [[Byte.x23; Byte.x20]; [Byte.x48; Byte.x69]; []] 3 eq_refl).
  - lia.
  - repeat (apply Forall_cons_2 || apply Forall_nil_2);
      unfold is_ascii; vm_compute; discriminate.
Defined.

(** *** The presets of the form *)

(** X22. The presets of the form reach fetch as they are: for every entry
    of the selector other than Custom, the user agent the server uses for
    the form's [resolvedUserAgent] is the value of the entry, whatever the
    custom field holds; no preset is cut or changed by the sanitizer. *)
Theorem presets_pass_the_sanitizer
    (label : string) (value customAgent : list N) :
  In (label, value) Client.USER_AGENTS ->
  value <> Client.CUSTOM ->
  Route.sanitizeUserAgent (Some (Client.resolvedUserAgent value customAgent))
  = value.
Proof.
  intros Hin Hcustom. unfold Client.resolvedUserAgent.
  rewrite bool_decide_eq_false_2 by exact Hcustom.
  unfold Client.USER_AGENTS in Hin. cbn [In] in Hin.
  destruct Hin as [H|[H|[H|[H|[H|[]]]]]]; injection H as _ <-;
    first [vm_compute; reflexivity | now elim Hcustom].
Qed.

Lemma presets_pass_the_sanitizer_witness :
  Route.sanitizeUserAgent
    (Some (Client.resolvedUserAgent
             (Text.of_string "ChatGPT-User/1.0 (+https://openai.com/bot)")
             (Text.of_string "  ignored  ")))
  = Text.of_string "ChatGPT-User/1.0 (+https://openai.com/bot)".
Proof.
  apply (presets_pass_the_sanitizer "ChatGPT-User").
  - right. right. left. reflexivity.
  - vm_compute. discriminate.
Defined.
